(** * Git Repositories: repository discovery and grouping tree

    A shallow embedding of the scanner ([src/scanner/repositoryScanner.ts]),
    of the tree node classes ([src/views/treeNodes.ts]) and of the tree data
    provider ([src/views/repositoryTreeDataProvider.ts]), followed by the
    properties of the specification that are settled on it.

    Conventions.
    - A JavaScript string is a [string]; the inputs of interest (paths, git
      output, remote URLs) are ASCII, where a character and a UTF-16 code
      unit coincide.
    - [undefined] is [None]; a value used as a condition goes through
      [truthy], which is false on [undefined] and on the empty string.
    - A [try]/[catch] around a call that can throw is a match on the outcome
      of the call: a [Result], an [option] for a directory listing, a [bool]
      for opening a repository.
    - Objects mutated in place (the worktree under construction, the arrays
      of an owner node, the set of seen paths) are threaded explicitly. *)

From Stdlib Require Import List String Ascii Bool Arith ZArith Lia.
From Stdlib Require Import Permutation Sorted OrderedTypeEx.
Import ListNotations.
Open Scope string_scope.
Open Scope list_scope.
Open Scope nat_scope.

(** ** JavaScript values *)

Module JS.

(** The outcome of a call that may throw. *)
Inductive Result (A : Type) : Type :=
| Ok (a : A)
| Throws.
Arguments Ok {A} a.
Arguments Throws {A}.

(** [s.startsWith(p)] *)
Definition startsWith (s p : string) : bool := String.prefix p s.

(** [s.substring(n)] *)
Fixpoint substringFrom (n : nat) (s : string) : string :=
  match n, s with
  | O, _ => s
  | S _, EmptyString => EmptyString
  | S n', String _ s' => substringFrom n' s'
  end.

(** [s.substring(0, n)] *)
Fixpoint substringTo (n : nat) (s : string) : string :=
  match n, s with
  | O, _ => EmptyString
  | S _, EmptyString => EmptyString
  | S n', String c s' => String c (substringTo n' s')
  end.

(** [s.split(sep)] for a separator of one character: the pieces between
    the separators, the empty ones included; [""] for the empty string. *)
Fixpoint split (sep : ascii) (s : string) : list string :=
  match s with
  | EmptyString => [EmptyString]
  | String c s' =>
      if Ascii.eqb c sep then EmptyString :: split sep s'
      else match split sep s' with
           | [] => [String c EmptyString]
           | piece :: pieces => String c piece :: pieces
           end
  end.

(** [pieces.join(sep)] *)
Fixpoint join (sep : string) (pieces : list string) : string :=
  match pieces with
  | [] => EmptyString
  | [piece] => piece
  | piece :: rest => (piece ++ sep ++ join sep rest)%string
  end.

(** A string used as a condition. *)
Definition nonEmpty (s : string) : bool :=
  match s with EmptyString => false | String _ _ => true end.

(** An optional string used as a condition. *)
Definition truthy (v : option string) : bool :=
  match v with
  | Some s => nonEmpty s
  | None => false
  end.

(** [v || undefined] *)
Definition orUndefined (v : option string) : option string :=
  if truthy v then v else None.

(** [a === b] on two values that are a string or [undefined]. *)
Definition strictEq (a b : option string) : bool :=
  match a, b with
  | Some x, Some y => String.eqb x y
  | None, None => true
  | _, _ => false
  end.

Definition newline : ascii := "010"%char.
Definition slash : ascii := "/"%char.

(** [xs.some(p)] *)
Definition some {A : Type} (p : A -> bool) (xs : list A) : bool := existsb p xs.

(** [xs.sort(cmp)]: the comparator answers a negative number, zero or a
    positive number.  ECMAScript requires the sort to be stable, and for a
    consistent comparator all stable sorts return the same array; the
    insertion sort below is one of them. *)
Section Sort.
Context {A : Type} (cmp : A -> A -> Z).

Fixpoint insertSorted (x : A) (sorted : list A) : list A :=
  match sorted with
  | [] => [x]
  | y :: rest =>
      if (cmp y x <=? 0)%Z then y :: insertSorted x rest
      else x :: y :: rest
  end.

Definition sort (xs : list A) : list A :=
  fold_left (fun sorted x => insertSorted x sorted) xs [].

(** [a] may come before [b]. *)
Definition inOrder (a b : A) : Prop := (cmp a b <= 0)%Z.

(** A consistent comparator: of two elements one may come before the
    other, and "may come before" is transitive. *)
Definition Consistent : Prop :=
  (forall a b, (0 < cmp a b)%Z -> (cmp b a <= 0)%Z)
  /\ (forall a b c, (cmp a b <= 0)%Z -> (cmp b c <= 0)%Z -> (cmp a c <= 0)%Z).
End Sort.

(** A comparator of strings that ties no two different strings. *)
Definition Separating (cmp : string -> string -> Z) : Prop :=
  forall a b, (cmp a b <= 0)%Z -> (cmp b a <= 0)%Z -> a = b.

End JS.

(** ** The scanner: [src/scanner/repositoryScanner.ts] *)

Module Scanner.
Import JS.

Record RemoteInfo : Type := mkRemoteInfo {
  remoteName : string;
  fetchUrl : option string;
  pushUrl : option string
}.

Record WorktreeInfo : Type := mkWorktreeInfo {
  wtName : string;
  wtPath : string;
  branch : option string;
  isMain : bool;
  isDetached : bool;
  commitHash : option string;
  commitMessage : option string
}.

Record RepositoryInfo : Type := mkRepositoryInfo {
  path : string;
  name : string;
  remotes : list RemoteInfo;
  currentBranch : option string;
  isSubmodule : bool;
  worktrees : list WorktreeInfo;
  lastScanned : string
}.

Definition MAX_DEPTH : nat := 10.

Definition SKIP_DIRECTORIES : list string :=
  ["node_modules"; ".vscode"; "dist"; "build"; "target"; ".git"].

(** [xs.includes(x)] on strings. *)
Definition includes (xs : list string) (x : string) : bool :=
  existsb (String.eqb x) xs.

(** *** Parsing [git worktree list --porcelain]

    [currentWorktree] is a [Partial<WorktreeInfo>] that is either the empty
    object or the object built by a [worktree] line, which has [path],
    [name], [isMain] and [isDetached]: [None] is the empty object. *)

Definition PartialWorktree : Type := option WorktreeInfo.

(** [currentWorktree.path] used as a condition. *)
Definition hasPath (current : PartialWorktree) : bool :=
  match current with
  | Some wt => nonEmpty (wtPath wt)
  | None => false
  end.

Definition setBranch (b : string) (wt : WorktreeInfo) : WorktreeInfo :=
  mkWorktreeInfo (wtName wt) (wtPath wt) (Some b) (isMain wt) (isDetached wt)
                 (commitHash wt) (commitMessage wt).

Definition setCommitHash (h : string) (wt : WorktreeInfo) : WorktreeInfo :=
  mkWorktreeInfo (wtName wt) (wtPath wt) (branch wt) (isMain wt) (isDetached wt)
                 (Some h) (commitMessage wt).

Definition setCommitMessage (m : string) (wt : WorktreeInfo) : WorktreeInfo :=
  mkWorktreeInfo (wtName wt) (wtPath wt) (branch wt) (isMain wt) (isDetached wt)
                 (commitHash wt) (Some m).

Definition setDetached (wt : WorktreeInfo) : WorktreeInfo :=
  mkWorktreeInfo (wtName wt) (wtPath wt) (branch wt) (isMain wt) true
                 (commitHash wt) (commitMessage wt).

Definition setNameAndMain (n : string) (m : bool) (wt : WorktreeInfo) : WorktreeInfo :=
  mkWorktreeInfo n (wtPath wt) (branch wt) m (isDetached wt)
                 (commitHash wt) (commitMessage wt).

(** The state of the loop over the lines: the array [worktrees] and the
    object [currentWorktree]. *)
Definition ParseState : Type := (list WorktreeInfo * PartialWorktree)%type.

(** [worktrees.push(currentWorktree as WorktreeInfo)] under
    [if (currentWorktree.path)]. *)
Definition pushCurrent (st : ParseState) : list WorktreeInfo :=
  match snd st with
  | Some wt => if nonEmpty (wtPath wt) then (fst st ++ [wt])%list else fst st
  | None => fst st
  end.

(** One iteration of [for (const line of lines)]. *)
Definition parseLine (st : ParseState) (line : string) : ParseState :=
  let current := snd st in
  if startsWith line "worktree " then
    (pushCurrent st,
     Some (mkWorktreeInfo "" (substringFrom (String.length "worktree ") line)
                          None false false None None))
  else if startsWith line "HEAD " then
    let ref := substringFrom (String.length "HEAD ") line in
    match current with
    | Some wt =>
        if nonEmpty (wtPath wt) then
          let b := if startsWith ref "refs/heads/"
                   then substringFrom (String.length "refs/heads/") ref
                   else ref in
          (fst st, Some (setCommitHash (substringTo 8 ref) (setBranch b wt)))
        else st
    | None => st
    end
  else if startsWith line "branch " then
    match current with
    | Some wt =>
        if nonEmpty (wtPath wt) then
          (fst st,
           Some (setBranch (substringFrom (String.length "branch refs/heads/") line) wt))
        else st
    | None => st
    end
  else if String.eqb line "detached" then
    match current with
    | Some wt => if nonEmpty (wtPath wt) then (fst st, Some (setDetached wt)) else st
    | None => st
    end
  else if String.eqb line "" then
    if hasPath current then (pushCurrent st, None) else st
  else st.

(** The block-level parse: the loop over [worktreeList.split("\n")] and the
    push of the last object after it. *)
Definition parseWorktreeList (worktreeList : string) : list WorktreeInfo :=
  pushCurrent (fold_left parseLine (split newline worktreeList) ([], None)).

(** *** The git commands and the Node functions the scanner calls *)

Record LogLine : Type := mkLogLine {
  hash : string;
  message : string
}.

Record Git : Type := mkGit {
  (** [simpleGit(path)] does not throw *)
  simpleGit : string -> bool;
  (** [git.status()], its field [current] *)
  status : string -> Result (option string);
  (** [git.getRemotes(true)], each entry with [refs.fetch] and [refs.push] *)
  getRemotes : string -> Result (list RemoteInfo);
  (** [git.raw(["worktree", "list", "--porcelain"])] *)
  worktreeListPorcelain : string -> Result string;
  (** [wtGit.log({ maxCount: 1 })], its field [latest] *)
  log : string -> Result (option LogLine);
  (** [path.basename], [path.normalize], [path.join] *)
  basename : string -> string;
  normalize : string -> string;
  pathJoin : string -> string -> string;
  (** [new Date().toISOString()] *)
  now : string
}.

(** [message.split("\n")[0]] *)
Definition firstLine (m : string) : string :=
  match split newline m with
  | l :: _ => l
  | [] => EmptyString
  end.

(** The body of [for (const wt of worktrees)]: name, main flag, and the
    commit lookup inside its own [try]. *)
Definition completeWorktree (git : Git) (repoPath : string) (wt : WorktreeInfo)
  : WorktreeInfo :=
  let wt1 := setNameAndMain (basename git (wtPath wt))
               (String.eqb (normalize git (wtPath wt)) (normalize git repoPath)) wt in
  if simpleGit git (wtPath wt) then
    match log git (wtPath wt) with
    | Ok (Some latest) =>
        setCommitMessage (firstLine (message latest))
          (setCommitHash (substringTo 8 (hash latest)) wt1)
    | Ok None => wt1
    | Throws => wt1
    end
  else wt1.

(** The worktree part of [extractRepositoryInfo]: everything inside the
    [try] that starts with [git.raw]. *)
Definition extractWorktrees (git : Git) (repoPath : string) : list WorktreeInfo :=
  match worktreeListPorcelain git repoPath with
  | Ok worktreeList =>
      map (completeWorktree git repoPath) (parseWorktreeList worktreeList)
  | Throws => []
  end.

Definition extractRepositoryInfo (git : Git) (repoPath : string) (isGitFile : bool)
  : option RepositoryInfo :=
  if simpleGit git repoPath then
    let currentBranch :=
      match status git repoPath with
      | Ok current => orUndefined current
      | Throws => None
      end in
    let remotes :=
      match getRemotes git repoPath with
      | Ok remoteList => remoteList
      | Throws => []
      end in
    Some (mkRepositoryInfo repoPath (basename git repoPath) remotes currentBranch
            isGitFile (extractWorktrees git repoPath) (now git))
  else None.

(** *** The directory walk

    What [fs.readdir(dirPath, { withFileTypes: true })] sees: an entry has
    a name and a kind, and a listing when it can be read as a directory. *)

Inductive DirentKind : Type := KFile | KDirectory | KSymbolicLink | KOther.

#[local] Unset Elimination Schemes.
Inductive Dirent : Type :=
| mkDirent (direntName : string) (kind : DirentKind) (listing : option (list Dirent)).
#[local] Set Elimination Schemes.

Definition direntName (e : Dirent) : string :=
  match e with mkDirent n _ _ => n end.
Definition direntKind (e : Dirent) : DirentKind :=
  match e with mkDirent _ k _ => k end.
(** [fs.readdir] of the entry; [None] when it throws. *)
Definition readdir (e : Dirent) : option (list Dirent) :=
  match e with mkDirent _ _ l => l end.

Definition isFile (e : Dirent) : bool :=
  match direntKind e with KFile => true | _ => false end.
Definition isDirectory (e : Dirent) : bool :=
  match direntKind e with KDirectory => true | _ => false end.
Definition isSymbolicLink (e : Dirent) : bool :=
  match direntKind e with KSymbolicLink => true | _ => false end.

(** The two accumulators of [scanPath]: the set [seenPaths] and the array
    [repositories]. *)
Record ScanState : Type := mkScanState {
  seenPaths : list string;
  repositories : list RepositoryInfo
}.

Section Scan.
Variable git : Git.
(** [this.shouldIgnorePath]: some matcher of the configured patterns
    matches the path. *)
Variable shouldIgnorePath : string -> bool.

(** What [scan] does with a directory that has a [.git] entry. *)
Definition visitRepository (dirPath : string) (gitEntry : Dirent) (st : ScanState)
  : ScanState :=
  if isFile gitEntry then st
  else
    let normalizedPath := normalize git dirPath in
    if includes (seenPaths st) normalizedPath then st
    else
      let seen := (seenPaths st ++ [normalizedPath])%list in
      match extractRepositoryInfo git dirPath (isFile gitEntry) with
      | Some repoInfo => mkScanState seen (repositories st ++ [repoInfo])%list
      | None => mkScanState seen (repositories st)
      end.

(** The inner function [scan] of [scanPath], on the entry that [dirPath]
    names. *)
Fixpoint scan (dir : Dirent) (dirPath : string) (depth : nat) (st : ScanState)
  {struct dir} : ScanState :=
  if MAX_DEPTH <? depth then st
  else if shouldIgnorePath dirPath then st
  else
    match dir with
    | mkDirent _ _ None => st
    | mkDirent _ _ (Some entries) =>
        match find (fun e => String.eqb (direntName e) ".git") entries with
        | Some gitEntry => visitRepository dirPath gitEntry st
        | None =>
            (fix each (es : list Dirent) (st : ScanState) {struct es} : ScanState :=
               match es with
               | [] => st
               | entry :: rest =>
                   if isDirectory entry && negb (isSymbolicLink entry) then
                     if includes SKIP_DIRECTORIES (direntName entry) then each rest st
                     else each rest
                            (scan entry (pathJoin git dirPath (direntName entry))
                                  (depth + 1) st)
                   else each rest st
               end) entries st
        end
    end.

Definition scanPath (base : Dirent) (basePath : string) : list RepositoryInfo :=
  repositories (scan base basePath 0 (mkScanState [] [])).

End Scan.

End Scanner.

(** ** The tree nodes: [src/views/treeNodes.ts] *)

Module TreeNodes.
Import JS Scanner.

(** [vscode.TreeItemCollapsibleState] *)
Inductive CollapsibleState : Type := NoneState | Collapsed | Expanded.

(** The fields of [vscode.TreeItem] that the node classes set and that
    carry the state of a node; [iconPath] is the id of its [ThemeIcon] and
    a localized label is its message key.  The tooltip, the command and the
    resource URI are left out. *)
Record TreeItem : Type := mkTreeItem {
  label : string;
  collapsibleState : CollapsibleState;
  id : option string;
  iconPath : string;
  contextValue : string;
  description : option string
}.

Definition setCollapsibleState (s : CollapsibleState) (it : TreeItem) : TreeItem :=
  mkTreeItem (label it) s (id it) (iconPath it) (contextValue it) (description it).

(** The test of one repository inside [containsCurrentWorkspace]. *)
Definition isOpenIn (currentWorkspacePath : string) (repo : RepositoryInfo) : bool :=
  String.eqb (path repo) currentWorkspacePath
  || some (fun wt => String.eqb (wtPath wt) currentWorkspacePath) (worktrees repo).

Definition containsCurrentWorkspace (repositories : list RepositoryInfo)
           (currentWorkspacePath : option string) : bool :=
  match currentWorkspacePath with
  | Some p => if nonEmpty p then some (isOpenIn p) repositories else false
  | None => false
  end.

Definition EmptyStateNode : TreeItem :=
  mkTreeItem "treeNode.emptyState.label" NoneState None "info" "emptyState" None.

Record DomainNode : Type := mkDomainNode {
  domain : string;
  domainRepositories : list RepositoryInfo;
  domainItem : TreeItem
}.

Definition newDomainNode (domain : string) (repositories : list RepositoryInfo)
           (currentWorkspacePath : option string) : DomainNode :=
  let shouldExpand := containsCurrentWorkspace repositories currentWorkspacePath in
  mkDomainNode domain repositories
    (mkTreeItem domain (if shouldExpand then Expanded else Collapsed)
                (Some ("domain:" ++ domain)%string) "folder" "domain" None).

Record LocalGroupNode : Type := mkLocalGroupNode {
  localRepositories : list RepositoryInfo;
  localItem : TreeItem
}.

Definition newLocalGroupNode (repositories : list RepositoryInfo) : LocalGroupNode :=
  mkLocalGroupNode repositories
    (mkTreeItem "treeNode.localGroup.label" Expanded (Some "no-remote-group")
                "folder" "noRemoteGroup" None).

Record RepositoryNode : Type := mkRepositoryNode {
  repository : RepositoryInfo;
  repositoryItem : TreeItem
}.

(** [isCurrentlyOpen] in the constructor of [RepositoryNode]. *)
Definition repositoryIsCurrentlyOpen (repository : RepositoryInfo)
           (currentWorkspacePath : option string) : bool :=
  match currentWorkspacePath with
  | Some p =>
      nonEmpty p
      && (String.eqb p (path repository)
          || some (fun wt => String.eqb (wtPath wt) p) (worktrees repository))
  | None => false
  end.

Definition newRepositoryNode (repository : RepositoryInfo)
           (currentWorkspacePath : option string) : RepositoryNode :=
  let hasWorktrees := 1 <? List.length (worktrees repository) in
  let isCurrentlyOpen := repositoryIsCurrentlyOpen repository currentWorkspacePath in
  mkRepositoryNode repository
    (mkTreeItem (name repository)
       (if hasWorktrees
        then if isCurrentlyOpen then Expanded else Collapsed
        else NoneState)
       (Some ("repo:" ++ path repository)%string)
       (if isCurrentlyOpen then "repo-selected" else "repo")
       "repository"
       (Some (match orUndefined (currentBranch repository) with
              | Some b => b
              | None => ""
              end))).

Record WorktreeNode : Type := mkWorktreeNode {
  worktree : WorktreeInfo;
  worktreeItem : TreeItem
}.

(** [isCurrentlyOpen] in the constructor of [WorktreeNode]. *)
Definition worktreeIsCurrentlyOpen (worktree : WorktreeInfo)
           (currentWorkspacePath : option string) : bool :=
  strictEq currentWorkspacePath (Some (wtPath worktree)).

Definition createDescription (worktree : WorktreeInfo) : string :=
  if truthy (branch worktree) then
    match branch worktree with Some b => b | None => "" end
  else if isDetached worktree then "worktree.detached"
  else "".

Definition newWorktreeNode (worktree : WorktreeInfo)
           (currentWorkspacePath : option string) : WorktreeNode :=
  let isCurrentlyOpen := worktreeIsCurrentlyOpen worktree currentWorkspacePath in
  mkWorktreeNode worktree
    (mkTreeItem (wtName worktree) NoneState
       (Some ("worktree:" ++ wtPath worktree)%string)
       (if isCurrentlyOpen then "git-branch" else "worktree")
       (if isMain worktree then "mainWorktree" else "worktree")
       (Some (createDescription worktree))).

(** [OwnerNode]: [children] is a [Map] from a segment to an owner node or
    a repository node; a [Map] iterates in the order in which its keys were
    first set, so it is an association list in that order. *)
#[local] Unset Elimination Schemes.
Inductive OwnerNode : Type :=
| mkOwnerNode (owner fullPath : string) (repositories : list RepositoryInfo)
              (domain : option string) (item : TreeItem)
              (children : list (string * (OwnerNode + RepositoryNode))).
#[local] Set Elimination Schemes.

(** [OwnerNode | RepositoryNode]; [inl] is [instanceof OwnerNode]. *)
Definition OwnerChild : Type := (OwnerNode + RepositoryNode)%type.

Definition owner (n : OwnerNode) : string :=
  match n with mkOwnerNode o _ _ _ _ _ => o end.
Definition fullPath (n : OwnerNode) : string :=
  match n with mkOwnerNode _ f _ _ _ _ => f end.
Definition ownerRepositories (n : OwnerNode) : list RepositoryInfo :=
  match n with mkOwnerNode _ _ r _ _ _ => r end.
Definition ownerDomain (n : OwnerNode) : option string :=
  match n with mkOwnerNode _ _ _ d _ _ => d end.
Definition ownerItem (n : OwnerNode) : TreeItem :=
  match n with mkOwnerNode _ _ _ _ i _ => i end.
Definition children (n : OwnerNode) : list (string * OwnerChild) :=
  match n with mkOwnerNode _ _ _ _ _ c => c end.

(** [map.get(key)] *)
Fixpoint mapGet {V : Type} (key : string) (m : list (string * V)) : option V :=
  match m with
  | [] => None
  | (k, v) :: rest => if String.eqb k key then Some v else mapGet key rest
  end.

(** [map.set(key, value)]: a key that is present keeps its place. *)
Fixpoint mapSet {V : Type} (key : string) (value : V) (m : list (string * V))
  : list (string * V) :=
  match m with
  | [] => [(key, value)]
  | (k, v) :: rest =>
      if String.eqb k key then (k, value) :: rest
      else (k, v) :: mapSet key value rest
  end.

(** [Array.from(map.values())] *)
Definition mapValues {V : Type} (m : list (string * V)) : list V := map snd m.

Definition newOwnerNode (owner fullPath : string) (repositories : list RepositoryInfo)
           (domain : option string) (currentWorkspacePath : option string) : OwnerNode :=
  let shouldExpand := containsCurrentWorkspace repositories currentWorkspacePath in
  mkOwnerNode owner fullPath repositories domain
    (mkTreeItem owner (if shouldExpand then Expanded else Collapsed)
       (Some (if truthy domain
              then match domain with
                   | Some d => ("owner:" ++ d ++ ":" ++ fullPath)%string
                   | None => ""
                   end
              else ("owner:" ++ fullPath)%string))
       "folder" "owner" None)
    [].

Definition addChild (name : string) (node : OwnerChild) (n : OwnerNode) : OwnerNode :=
  match n with
  | mkOwnerNode o f r d i c => mkOwnerNode o f r d i (mapSet name node c)
  end.

(** [this.repositories.push(repo)] *)
Definition pushRepository (repo : RepositoryInfo) (n : OwnerNode) : OwnerNode :=
  match n with
  | mkOwnerNode o f r d i c => mkOwnerNode o f (r ++ [repo]) d i c
  end.

Fixpoint containsCurrentWorkspaceRecursive (currentWorkspacePath : string)
         (n : OwnerNode) {struct n} : bool :=
  match n with
  | mkOwnerNode _ _ repositories _ _ children =>
      if containsCurrentWorkspace repositories (Some currentWorkspacePath) then true
      else
        (fix each (cs : list (string * (OwnerNode + RepositoryNode))) : bool :=
           match cs with
           | [] => false
           | (_, inl child) :: rest =>
               if containsCurrentWorkspaceRecursive currentWorkspacePath child
               then true else each rest
           | (_, inr child) :: rest =>
               if String.eqb (path (repository child)) currentWorkspacePath
                  || some (fun wt => String.eqb (wtPath wt) currentWorkspacePath)
                          (worktrees (repository child))
               then true else each rest
           end) children
  end.

(** [updateExpansionState] once [currentWorkspacePath] is known to be a
    non-empty string. *)
Fixpoint expandTowards (currentWorkspacePath : string) (n : OwnerNode) {struct n}
  : OwnerNode :=
  match n with
  | mkOwnerNode o f r d i children =>
      let hasCurrentWorkspace := containsCurrentWorkspaceRecursive currentWorkspacePath n in
      mkOwnerNode o f r d
        (if hasCurrentWorkspace then setCollapsibleState Expanded i else i)
        ((fix each (cs : list (string * (OwnerNode + RepositoryNode)))
            : list (string * (OwnerNode + RepositoryNode)) :=
            match cs with
            | [] => []
            | (k, inl child) :: rest =>
                (k, inl (expandTowards currentWorkspacePath child)) :: each rest
            | (k, inr child) :: rest => (k, inr child) :: each rest
            end) children)
  end.

Definition updateExpansionState (currentWorkspacePath : option string) (n : OwnerNode)
  : OwnerNode :=
  match currentWorkspacePath with
  | Some p => if nonEmpty p then expandTowards p n else n
  | None => n
  end.

Definition hasChildren (n : OwnerNode) : bool :=
  0 <? List.length (children n).

Section Collation.
(** [String.prototype.localeCompare] of the host. *)
Variable localeCompare : string -> string -> Z.

(** The comparator inside [OwnerNode.getChildren]. *)
Definition compareChildren (a b : OwnerChild) : Z :=
  match a, b with
  | inl _, inr _ => (-1)%Z
  | inr _, inl _ => 1%Z
  | inl a, inl b => localeCompare (owner a) (owner b)
  | inr a, inr b => localeCompare (name (repository a)) (name (repository b))
  end.

Definition getChildren (n : OwnerNode) (currentWorkspacePath : option string)
  : list OwnerChild :=
  if 0 <? List.length (children n) then
    sort compareChildren (mapValues (children n))
  else
    map (fun repo => inr (newRepositoryNode repo currentWorkspacePath))
        (ownerRepositories n).
End Collation.

(** [RepositoryTreeNode] *)
Inductive RepositoryTreeNode : Type :=
| EmptyState
| Domain (n : DomainNode)
| Owner (n : OwnerNode)
| LocalGroup (n : LocalGroupNode)
| Repository (n : RepositoryNode)
| Worktree (n : WorktreeNode).

Definition ofOwnerChild (c : OwnerChild) : RepositoryTreeNode :=
  match c with
  | inl n => Owner n
  | inr n => Repository n
  end.

(** The [TreeItem] that a node is. *)
Definition treeItem (n : RepositoryTreeNode) : TreeItem :=
  match n with
  | EmptyState => EmptyStateNode
  | Domain d => domainItem d
  | Owner o => ownerItem o
  | LocalGroup l => localItem l
  | Repository r => repositoryItem r
  | Worktree w => worktreeItem w
  end.

End TreeNodes.

(** ** The tree data provider: [src/views/repositoryTreeDataProvider.ts] *)

Module Provider.
Import JS Scanner TreeNodes.

(** *** The two regular expressions over a remote URL

    A quantifier is tried the way the matcher tries it: a greedy one from
    the longest repetition down, a lazy one from the shortest up, an
    alternative from left to right, and the first attempt on which the
    rest of the pattern matches is the match. *)

Definition isColon (c : ascii) : bool := Ascii.eqb c ":"%char.
Definition isSlash (c : ascii) : bool := Ascii.eqb c "/"%char.
Definition isSpace (c : ascii) : bool := Ascii.eqb c " "%char.

(** [[^:\/]] and [[^\/]] and [[:\/ ]] *)
Definition notColonSlash (c : ascii) : bool := negb (isColon c || isSlash c).
Definition notSlash (c : ascii) : bool := negb (isSlash c).
Definition colonSlashSpace (c : ascii) : bool := isColon c || isSlash c || isSpace c.

(** What [.] does not match, among the characters of an ASCII string. *)
Definition isLineTerminator (c : ascii) : bool :=
  Ascii.eqb c "010"%char || Ascii.eqb c "013"%char.

Fixpoint allChars (p : ascii -> bool) (s : string) : bool :=
  match s with
  | EmptyString => true
  | String c s' => p c && allChars p s'
  end.

(** [s] without the prefix [p], when it starts with it. *)
Definition stripPrefix (p s : string) : option string :=
  if startsWith s p then Some (substringFrom (String.length p) s) else None.

(** The first answer among [f k], [f (k - 1)], ..., [f 1]. *)
Fixpoint longestFirst {A : Type} (k : nat) (f : nat -> option A) : option A :=
  match k with
  | O => None
  | S k' =>
      match f k with
      | Some a => Some a
      | None => longestFirst k' f
      end
  end.

(** The first answer of [f] along a list of attempts. *)
Fixpoint firstMatch {A B : Type} (f : A -> option B) (attempts : list A) : option B :=
  match attempts with
  | [] => None
  | a :: rest =>
      match f a with
      | Some b => Some b
      | None => firstMatch f rest
      end
  end.

(** What is left of the URL after [(?:git@|ssh:\/\/(?:git@)?)], one
    remainder per way of matching it, in the order of the attempts. *)
Definition afterSshPrefix (remoteUrl : string) : list string :=
  (match stripPrefix "git@" remoteUrl with
   | Some rest => [rest]
   | None => []
   end)
  ++ (match stripPrefix "ssh://" remoteUrl with
      | Some rest =>
          (match stripPrefix "git@" rest with
           | Some rest' => [rest']
           | None => []
           end) ++ [rest]
      | None => []
      end).

(** What is left of the URL after [https?:\/\/]. *)
Definition afterHttpPrefix (remoteUrl : string) : list string :=
  (match stripPrefix "https://" remoteUrl with
   | Some rest => [rest]
   | None => []
   end)
  ++ (match stripPrefix "http://" remoteUrl with
      | Some rest => [rest]
      | None => []
      end).

(** A capture [(p+)] at the start of [s] with nothing required after it:
    the longest run, which has to be non-empty. *)
Definition captureRun (p : ascii -> bool) (s : string) : option string :=
  longestFirst (String.length s)
    (fun k => if allChars p (substringTo k s) then Some (substringTo k s) else None).

(** [(.+?)(?:\.git)?$] on the whole of [s]: the shortest non-empty prefix
    free of line terminators that is followed by the end of the string or
    by [.git] and the end. *)
Fixpoint capturePath (s : string) : option string :=
  match s with
  | EmptyString => None
  | String c s' =>
      if isLineTerminator c then None
      else if String.eqb s' "" || String.eqb s' ".git" then Some (String c EmptyString)
      else option_map (String c) (capturePath s')
  end.

(** [host+ sep (.+?)(?:\.git)?$] on the whole of [s]: the host as long as
    possible, then one separator, then the path. *)
Definition captureAfterHost (host sep : ascii -> bool) (s : string) : option string :=
  longestFirst (String.length s)
    (fun k =>
       if allChars host (substringTo k s) then
         match substringFrom k s with
         | String c rest => if sep c then capturePath rest else None
         | EmptyString => None
         end
       else None).

Definition extractDomain (remoteUrl : string) : string :=
  match firstMatch (captureRun notColonSlash) (afterSshPrefix remoteUrl) with
  | Some host => host
  | None =>
      match firstMatch (captureRun notSlash) (afterHttpPrefix remoteUrl) with
      | Some host => host
      | None => "unknown"
      end
  end.

(** [s.split("/").filter((s) => s.length > 0)] *)
Definition segmentsOf (s : string) : list string :=
  filter nonEmpty (split slash s).

(** The value of [pathPart] in [extractOwner] before it is tested. *)
Definition pathPartOf (remoteUrl : string) : string :=
  match firstMatch (captureAfterHost notColonSlash colonSlashSpace)
                   (afterSshPrefix remoteUrl) with
  | Some p => p
  | None =>
      match firstMatch (captureAfterHost notSlash isSlash) (afterHttpPrefix remoteUrl) with
      | Some p => p
      | None => ""
      end
  end.

Definition extractOwner (remoteUrl : string) : string :=
  let pathPart := pathPartOf remoteUrl in
  if negb (nonEmpty pathPart) then "unknown"
  else
    match segmentsOf pathPart with
    | [] => "unknown"
    | [segment] => segment
    | segments => join "/" (removelast segments)
    end.

(** *** The provider

    The provider also reports counts to the decoration provider
    ([setCount]); these calls change no node and are left out, except for
    the number that [updateDescriptions] computes. *)

(** [repo.remotes.length > 0 && repo.remotes[0].fetchUrl]: the URL when the
    condition holds. *)
Definition firstFetchUrl (repo : RepositoryInfo) : option string :=
  match remotes repo with
  | [] => None
  | remote :: _ => orUndefined (fetchUrl remote)
  end.

(** The two loops of [getRemoteViewRootNodes] that fill [reposWithRemote]
    and [reposWithoutRemote]. *)
Definition reposWithRemote (repositories : list RepositoryInfo) : list RepositoryInfo :=
  filter (fun repo => match firstFetchUrl repo with Some _ => true | None => false end)
         repositories.

Definition reposWithoutRemote (repositories : list RepositoryInfo) : list RepositoryInfo :=
  filter (fun repo => match firstFetchUrl repo with Some _ => false | None => true end)
         repositories.

(** One iteration of the loop that fills [domainMap]. *)
Definition addToDomainMap (domainMap : list (string * list RepositoryInfo))
           (repo : RepositoryInfo) : list (string * list RepositoryInfo) :=
  match firstFetchUrl repo with
  | Some url =>
      let domain := extractDomain url in
      let domainMap' :=
        match mapGet domain domainMap with
        | Some _ => domainMap
        | None => mapSet domain [] domainMap
        end in
      match mapGet domain domainMap' with
      | Some repos => mapSet domain (repos ++ [repo]) domainMap'
      | None => domainMap'
      end
  | None => domainMap
  end.

Definition buildDomainMap (repositories : list RepositoryInfo)
  : list (string * list RepositoryInfo) :=
  fold_left addToDomainMap (reposWithRemote repositories) [].

Definition getRemoteViewRootNodes (repositories : list RepositoryInfo)
           (currentWorkspacePath : option string) : list RepositoryTreeNode :=
  match repositories with
  | [] => [EmptyState]
  | _ =>
      map (fun entry => Domain (newDomainNode (fst entry) (snd entry) currentWorkspacePath))
          (buildDomainMap repositories)
      ++ (if 0 <? List.length (reposWithoutRemote repositories)
          then [LocalGroup (newLocalGroupNode (reposWithoutRemote repositories))]
          else [])
  end.

(** The loop over [segments] in [getOwnerNodes] followed by
    [currentNode.repositories.push(repo)], from [currentNode] on: the node
    returned is [currentNode] after the nodes below it have been created
    and changed in place. *)
Fixpoint attach (domain : string) (currentWorkspacePath : option string)
         (segments : list string) (fullPath : string) (repo : RepositoryInfo)
         (currentNode : OwnerNode) {struct segments} : OwnerNode :=
  match segments with
  | [] => pushRepository repo currentNode
  | segment :: rest =>
      let fullPath' :=
        if nonEmpty fullPath then (fullPath ++ "/" ++ segment)%string else segment in
      let childNode :=
        match mapGet segment (children currentNode) with
        | Some (inl child) => child
        | _ => newOwnerNode segment fullPath' [] (Some domain) currentWorkspacePath
        end in
      addChild segment
        (inl (attach domain currentWorkspacePath rest fullPath' repo childNode))
        currentNode
  end.

(** One iteration of [for (const repo of repositories)] in [getOwnerNodes]. *)
Definition addToOwnerTree (domain : string) (currentWorkspacePath : option string)
           (root : OwnerNode) (repo : RepositoryInfo) : OwnerNode :=
  match firstFetchUrl repo with
  | None => root
  | Some url =>
      match segmentsOf (extractOwner url) with
      | [] => root
      | segments => attach domain currentWorkspacePath segments "" repo root
      end
  end.

(** The root owner node of [getOwnerNodes] when the function returns. *)
Definition ownerTree (domain : string) (repositories : list RepositoryInfo)
           (currentWorkspacePath : option string) : OwnerNode :=
  updateExpansionState currentWorkspacePath
    (fold_left (addToOwnerTree domain currentWorkspacePath) repositories
               (newOwnerNode "" "" [] (Some domain) currentWorkspacePath)).

(** [updateDescriptions]: the number it returns; the decoration it sets on
    the way does not reach the nodes. *)
Fixpoint updateDescriptions (node : OwnerNode) {struct node} : nat :=
  match node with
  | mkOwnerNode _ _ repositories _ _ children =>
      List.length repositories
      + (fix each (cs : list (string * (OwnerNode + RepositoryNode))) : nat :=
           match cs with
           | [] => 0
           | (_, inl child) :: rest => updateDescriptions child + each rest
           | (_, inr _) :: rest => each rest
           end) children
  end.

Section Provider.
Variable localeCompare : string -> string -> Z.
(** [this.repositories] and [this.currentWorkspacePath] *)
Variable repositories : list RepositoryInfo.
Variable currentWorkspacePath : option string.

Definition getOwnerNodes (domain : string) (repositories : list RepositoryInfo)
  : list RepositoryTreeNode :=
  map ofOwnerChild
      (TreeNodes.getChildren localeCompare
         (ownerTree domain repositories currentWorkspacePath) currentWorkspacePath).

(** The children of a [RepositoryNode] in [getChildren]. *)
Definition worktreeNodes (repo : RepositoryInfo) : list RepositoryTreeNode :=
  if 1 <? List.length (worktrees repo) then
    let sortedWorktrees :=
      sort (fun a b => localeCompare (wtName a) (wtName b))
           (filter (fun worktree => negb (isMain worktree)) (worktrees repo)) in
    map (fun worktree => Worktree (newWorktreeNode worktree currentWorkspacePath))
        sortedWorktrees
  else [].

Definition getChildren (element : option RepositoryTreeNode) : list RepositoryTreeNode :=
  match element with
  | None => getRemoteViewRootNodes repositories currentWorkspacePath
  | Some EmptyState => []
  | Some (Domain element) =>
      getOwnerNodes (TreeNodes.domain element) (domainRepositories element)
  | Some (Owner element) =>
      map ofOwnerChild (TreeNodes.getChildren localeCompare element currentWorkspacePath)
  | Some (LocalGroup element) =>
      map (fun repo => Repository (newRepositoryNode repo currentWorkspacePath))
          (localRepositories element)
  | Some (Repository element) => worktreeNodes (repository element)
  | Some (Worktree _) => []
  end.

(** The nodes of the tree that the view shows: the roots, and the
    children of every node that is shown. *)
Inductive Shown : RepositoryTreeNode -> Prop :=
| ShownRoot : forall n, In n (getChildren None) -> Shown n
| ShownChild : forall parent n,
    Shown parent -> In n (getChildren (Some parent)) -> Shown n.

End Provider.

End Provider.

(** ** Concrete inputs *)

Module Examples.
Import JS Scanner TreeNodes Provider.

Definition nl : string := String newline EmptyString.

(** The porcelain text of two worktrees, the second one detached. *)
Definition porcelainExample : string :=
  ("worktree /r" ++ nl ++ "HEAD abc123" ++ nl ++ "branch refs/heads/main" ++ nl
   ++ nl
   ++ "worktree /r-wt" ++ nl ++ "HEAD def456" ++ nl ++ "detached" ++ nl
   ++ nl)%string.

(** "A worktree has [branch] XOR ([isDetached = true] and no [branch])". *)
Definition branchXorDetached (wt : WorktreeInfo) : bool :=
  xorb (truthy (branch wt)) (isDetached wt && negb (truthy (branch wt))).

(** The last segment of a path and the identity as [path.basename] and
    [path.normalize], which they are on the normalized absolute paths used
    below. *)
Definition lastSegment (p : string) : string := last (split slash p) EmptyString.

(** What [path.join] gives for a normalized path that does not end in a
    slash and the name of a directory entry. *)
Definition plainJoin (dirPath entryName : string) : string :=
  (dirPath ++ "/" ++ entryName)%string.

(** A git in which every command succeeds: the repository at [/r] has the
    two worktrees of [porcelainExample], any other has none, and no
    worktree has a commit. *)
Definition quietGit : Git :=
  mkGit (fun _ => true)
        (fun _ => Ok (Some "main"))
        (fun _ => Ok [])
        (fun p => if String.eqb p "/r" then Ok porcelainExample else Ok "")
        (fun _ => Ok None)
        lastSegment (fun p => p) plainJoin "2024-01-01T00:00:00.000Z".

(** The same git, except that the commit lookup throws in every worktree. *)
Definition failingLogGit : Git :=
  mkGit (fun _ => true)
        (fun _ => Ok (Some "main"))
        (fun _ => Ok [])
        (fun p => if String.eqb p "/r" then Ok porcelainExample else Ok "")
        (fun _ => Throws)
        lastSegment (fun p => p) plainJoin "2024-01-01T00:00:00.000Z".

Definition ignoreNothing (p : string) : bool := false.

(** A directory whose [.git] is a regular file, and one whose [.git] is a
    directory. *)
Definition submoduleDirectory : Dirent :=
  mkDirent "sub" KDirectory
    (Some [mkDirent ".git" KFile None; mkDirent "README.md" KFile None]).

Definition plainRepository : Dirent :=
  mkDirent "sub" KDirectory
    (Some [mkDirent ".git" KDirectory (Some []); mkDirent "README.md" KFile None]).

(** The entries of a repository root that has one more directory below it. *)
Definition repositoryEntries : list Dirent :=
  [mkDirent ".git" KDirectory (Some []);
   mkDirent "src" KDirectory (Some [mkDirent "main.ts" KFile None])].

(** A chain of [depth] directories named [d] below the base, the last of
    which has the entries [leaf]: the directory with these entries is at
    depth [depth]. *)
Fixpoint chain (depth : nat) (leaf : list Dirent) : Dirent :=
  match depth with
  | O => mkDirent "d" KDirectory (Some leaf)
  | S depth' => mkDirent "d" KDirectory (Some [chain depth' leaf])
  end.

(** The path of the last directory of [chain depth leaf], as [path.join]
    gives it, segment by segment. *)
Fixpoint chainPath (git : Git) (basePath : string) (depth : nat) : string :=
  match depth with
  | O => basePath
  | S depth' => chainPath git (pathJoin git basePath "d") depth'
  end.

(** A repository node is marked as current by its icon, and so is a
    worktree node. *)
Definition repositoryIsCurrent (n : RepositoryNode) : bool :=
  String.eqb (iconPath (repositoryItem n)) "repo-selected".

Definition worktreeIsCurrent (n : WorktreeNode) : bool :=
  String.eqb (iconPath (worktreeItem n)) "git-branch".

(** The repository at [/r] with its main worktree and the worktree at
    [/r-wt]. *)
Definition mainWorktree : WorktreeInfo :=
  mkWorktreeInfo "r" "/r" (Some "main") true false (Some "abc123") None.

Definition secondWorktree : WorktreeInfo :=
  mkWorktreeInfo "r-wt" "/r-wt" (Some "def456") false true (Some "def456") None.

Definition repositoryR : RepositoryInfo :=
  mkRepositoryInfo "/r" "r"
    [mkRemoteInfo "origin" (Some "https://github.com/user/r.git") None]
    (Some "main") false [mainWorktree; secondWorktree] "2024-01-01T00:00:00.000Z".

(** Two repositories of two domains. *)
Definition githubRepository : RepositoryInfo :=
  mkRepositoryInfo "/home/dev/widgets" "widgets"
    [mkRemoteInfo "origin" (Some "git@github.com:acme/widgets.git") None]
    (Some "main") false
    [mkWorktreeInfo "widgets" "/home/dev/widgets" (Some "main") true false None None]
    "2024-01-01T00:00:00.000Z".

(** A second repository of [acme] at [github.com]. *)
Definition gadgetsRepository : RepositoryInfo :=
  mkRepositoryInfo "/home/dev/gadgets" "gadgets"
    [mkRemoteInfo "origin" (Some "git@github.com:acme/gadgets.git") None]
    (Some "main") false
    [mkWorktreeInfo "gadgets" "/home/dev/gadgets" (Some "main") true false None None]
    "2024-01-01T00:00:00.000Z".

(** The labels of a list of nodes. *)
Definition labels (nodes : list RepositoryTreeNode) : list string :=
  map (fun n => label (treeItem n)) nodes.

(** Two repositories of one domain, the owner path of the first a proper
    prefix of the owner path of the second. *)
Definition directRepository : RepositoryInfo :=
  mkRepositoryInfo "/home/dev/direct" "direct"
    [mkRemoteInfo "origin" (Some "https://github.com/org/direct.git") None]
    (Some "main") false
    [mkWorktreeInfo "direct" "/home/dev/direct" (Some "main") true false None None]
    "2024-01-01T00:00:00.000Z".

Definition nestedRepository : RepositoryInfo :=
  mkRepositoryInfo "/home/dev/project" "project"
    [mkRemoteInfo "origin" (Some "https://github.com/org/team/project.git") None]
    (Some "main") false
    [mkWorktreeInfo "project" "/home/dev/project" (Some "main") true false None None]
    "2024-01-01T00:00:00.000Z".

(** The root owner node of the two, as [getOwnerNodes] leaves it when no
    path is active. *)
Definition githubRoot : OwnerNode :=
  ownerTree "github.com" [directRepository; nestedRepository] None.

(** A repository without a remote. *)
Definition localRepository : RepositoryInfo :=
  mkRepositoryInfo "/home/dev/notes" "notes" [] (Some "main") false
    [mkWorktreeInfo "notes" "/home/dev/notes" (Some "main") true false None None]
    "2024-01-01T00:00:00.000Z".

Definition gitlabUrl : string := "https://gitlab.com/org/team/proj.git".

Definition gitlabRepository : RepositoryInfo :=
  mkRepositoryInfo "/home/dev/proj" "proj" [mkRemoteInfo "origin" (Some gitlabUrl) None]
    (Some "main") false
    [mkWorktreeInfo "proj" "/home/dev/proj" (Some "main") true false None None]
    "2024-01-01T00:00:00.000Z".

(** Code-unit order, a comparator to run the sorts with: on strings of
    lower-case ASCII letters it orders as [localeCompare] does. *)
Definition codeUnitCompare (a b : string) : Z :=
  match String.compare a b with
  | Lt => (-1)%Z
  | Eq => 0%Z
  | Gt => 1%Z
  end.

End Examples.

(** ** The notions in which the properties are stated *)

Module Notions.
Import JS Scanner TreeNodes Provider.

(** The two ways in which the commit lookup of a worktree fails. *)
Definition lookupFails (git : Git) (worktreePath : string) : Prop :=
  simpleGit git worktreePath = false \/ log git worktreePath = Throws.

(** The directories that the walk can reach from the base, each with its
    depth and with the path that [path.join] gives it on the way. *)
Inductive Below (git : Git) (base : Dirent) (basePath : string)
  : Dirent -> string -> nat -> Prop :=
| BelowBase : Below git base basePath base basePath 0
| BelowEntry : forall dir dirPath depth entries entry,
    Below git base basePath dir dirPath depth ->
    readdir dir = Some entries ->
    In entry entries ->
    Below git base basePath entry (pathJoin git dirPath (direntName entry)) (S depth).

(** A directory is a repository root for the walk when its listing has an
    entry named [.git] and the first such entry is not a regular file. *)
Definition isRepositoryRoot (dir : Dirent) : Prop :=
  exists entries gitEntry,
    readdir dir = Some entries
    /\ find (fun e => String.eqb (direntName e) ".git") entries = Some gitEntry
    /\ isFile gitEntry = false.

(** The segments along which [getOwnerNodes] files a repository: those of
    the owner path of its first fetch URL; none when it has no such URL. *)
Definition ownerSegments (repo : RepositoryInfo) : list string :=
  match firstFetchUrl repo with
  | Some url => segmentsOf (extractOwner url)
  | None => []
  end.

(** The value of [fullPath] in the loop of [getOwnerNodes] after one more
    segment, and after the segments of a path from the root. *)
Definition extendPath (fullPath segment : string) : string :=
  if nonEmpty fullPath then (fullPath ++ "/" ++ segment)%string else segment.

Definition pathName (p : list string) : string := fold_left extendPath p "".

Definition sameSegments (p : list string) (repo : RepositoryInfo) : bool :=
  match p with
  | [] => false
  | _ => if list_eq_dec string_dec (ownerSegments repo) p then true else false
  end.

(** The repositories filed at the path [p], in the order of the input. *)
Definition bucketOf (repos : list RepositoryInfo) (p : list string)
  : list RepositoryInfo :=
  filter (sameSegments p) repos.

(** The item that the constructor gives to an owner node without
    repositories. *)
Definition ownerItemOf (domain owner fullPath : string) : TreeItem :=
  ownerItem (newOwnerNode owner fullPath [] (Some domain) None).

(** The owner node at the path [p] of the tree that [getOwnerNodes] has
    grown from the repositories [repos] of a domain, before the expansion
    state is updated: its fields are those of the path, its repositories are
    the ones filed at the path, and its children are owner nodes, one for
    each segment that continues the path in some repository. *)
#[local] Unset Elimination Schemes.
Inductive Grown (domain : string) (repos : list RepositoryInfo)
  : list string -> OwnerNode -> Prop :=
| GrownNode : forall p cs,
    NoDup (map fst cs) ->
    (forall k v, In (k, v) cs -> exists c, v = inl c /\ Grown domain repos (p ++ [k]) c) ->
    (forall x k t, In x repos -> ownerSegments x = p ++ k :: t -> In k (map fst cs)) ->
    (forall k, In k (map fst cs) ->
               exists x t, In x repos /\ ownerSegments x = p ++ k :: t) ->
    Grown domain repos p
      (mkOwnerNode (last p "") (pathName p) (bucketOf repos p) (Some domain)
                   (ownerItemOf domain (last p "") (pathName p)) cs).
#[local] Set Elimination Schemes.

(** The repositories of the input whose first fetch URL has the domain
    [domain], in the order of the input. *)
Definition inDomain (domain : string) (repo : RepositoryInfo) : bool :=
  match firstFetchUrl repo with
  | Some url => String.eqb (extractDomain url) domain
  | None => false
  end.

Definition domainGroup (repos : list RepositoryInfo) (domain : string)
  : list RepositoryInfo :=
  filter (inDomain domain) repos.

(** The domains of the repositories, each once, in the order in which they
    first occur. *)
Definition addDomain (seen : list string) (repo : RepositoryInfo) : list string :=
  match firstFetchUrl repo with
  | Some url =>
      if includes seen (extractDomain url) then seen else seen ++ [extractDomain url]
  | None => seen
  end.

Definition domainsInOrder (repos : list RepositoryInfo) : list string :=
  fold_left addDomain repos [].

(** What [domainMap] holds for a domain once the repositories [done] have
    been added. *)
Definition groupEntry (done : list RepositoryInfo) (D : string)
  : option (list RepositoryInfo) :=
  match domainGroup done D with
  | [] => None
  | g => Some g
  end.

(** [updateExpansionState] on a child of an owner node. *)
Definition updateChild (currentWorkspacePath : option string) (entry : string * OwnerChild)
  : string * OwnerChild :=
  (fst entry,
   match snd entry with
   | inl c => inl (updateExpansionState currentWorkspacePath c)
   | inr r => inr r
   end).

(** What a node of the view is made of: a domain node stands for the group
    of its domain, an owner node is a node of the tree grown from such a
    group with its expansion state updated, and the others come out of
    their constructors, the local group with the repositories that have no
    remote. *)
Definition Built (repos : list RepositoryInfo) (currentWorkspacePath : option string)
           (n : RepositoryTreeNode) : Prop :=
  match n with
  | EmptyState => True
  | Domain d =>
      d = newDomainNode (domain d) (domainGroup repos (domain d)) currentWorkspacePath
  | Owner o =>
      exists D q o0,
        Grown D (domainGroup repos D) q o0
        /\ o = updateExpansionState currentWorkspacePath o0
  | LocalGroup l => l = newLocalGroupNode (reposWithoutRemote repos)
  | Repository r => r = newRepositoryNode (repository r) currentWorkspacePath
  | Worktree w => w = newWorktreeNode (worktree w) currentWorkspacePath
  end.

(** The state of a node when nothing is open: collapsed if the node can be
    collapsed at all, and with the icon that does not mark it as current. *)
Definition atRest (n : RepositoryTreeNode) : Prop :=
  match n with
  | EmptyState => collapsibleState EmptyStateNode = NoneState
  | Domain d => collapsibleState (domainItem d) = Collapsed
  | Owner o => collapsibleState (ownerItem o) = Collapsed
  | LocalGroup l => collapsibleState (localItem l) = Collapsed
  | Repository r =>
      collapsibleState (repositoryItem r)
      = (if 1 <? List.length (worktrees (repository r)) then Collapsed else NoneState)
      /\ iconPath (repositoryItem r) = "repo"
  | Worktree w =>
      collapsibleState (worktreeItem w) = NoneState
      /\ iconPath (worktreeItem w) = "worktree"
  end.

(** The string by which [OwnerNode.getChildren] compares a child with a
    child of its kind. *)
Definition childKey (c : OwnerChild) : string :=
  match c with
  | inl n => owner n
  | inr r => name (repository r)
  end.

(** Two nodes of two views that differ at most in the order of the
    repositories they hold: domain nodes of one domain, owner nodes of one
    path, local groups; with the same state; and, where the children are
    owner nodes, with children that are alike one by one, in the same
    order. *)
#[local] Unset Elimination Schemes.
Inductive Alike (localeCompare : string -> string -> Z)
          (currentWorkspacePath : option string)
  : RepositoryTreeNode -> RepositoryTreeNode -> Prop :=
| AlikeEmptyState : Alike localeCompare currentWorkspacePath EmptyState EmptyState
| AlikeDomain : forall d d',
    domain d = domain d' ->
    domainItem d = domainItem d' ->
    Permutation (domainRepositories d) (domainRepositories d') ->
    Forall2 (Alike localeCompare currentWorkspacePath)
      (getOwnerNodes localeCompare currentWorkspacePath (domain d) (domainRepositories d))
      (getOwnerNodes localeCompare currentWorkspacePath (domain d') (domainRepositories d')) ->
    Alike localeCompare currentWorkspacePath (Domain d) (Domain d')
| AlikeOwner : forall o o',
    owner o = owner o' -> fullPath o = fullPath o' ->
    ownerDomain o = ownerDomain o' -> ownerItem o = ownerItem o' ->
    Permutation (ownerRepositories o) (ownerRepositories o') ->
    children o <> [] -> children o' <> [] ->
    Forall2 (Alike localeCompare currentWorkspacePath)
      (map ofOwnerChild (TreeNodes.getChildren localeCompare o currentWorkspacePath))
      (map ofOwnerChild (TreeNodes.getChildren localeCompare o' currentWorkspacePath)) ->
    Alike localeCompare currentWorkspacePath (Owner o) (Owner o')
| AlikeOwnerOfLeaves : forall o o',
    owner o = owner o' -> fullPath o = fullPath o' ->
    ownerDomain o = ownerDomain o' -> ownerItem o = ownerItem o' ->
    Permutation (ownerRepositories o) (ownerRepositories o') ->
    children o = [] -> children o' = [] ->
    Alike localeCompare currentWorkspacePath (Owner o) (Owner o')
| AlikeLocalGroup : forall l l',
    localItem l = localItem l' ->
    Permutation (localRepositories l) (localRepositories l') ->
    Alike localeCompare currentWorkspacePath (LocalGroup l) (LocalGroup l').
#[local] Set Elimination Schemes.

(** The item of an owner node of [gitlab.com] that is collapsed. *)
Definition collapsedOwnerItem (owner fullPath : string) : TreeItem :=
  mkTreeItem owner Collapsed (Some ("owner:gitlab.com:" ++ fullPath)%string)
             "folder" "owner" None.

End Notions.

(** ** The scan of all configured paths *)

Module Configured.
Import JS Scanner.

Section ScanAll.
Variable git : Git.
Variable shouldIgnorePath : string -> bool.
(** The directory that a configured path names. *)
Variable directoryAt : string -> Dirent.

(** The two accumulators of [scanAllConfiguredPaths]: its set [seenPaths]
    and the array [allRepositories]. *)
Record MergeState : Type := mkMergeState {
  mergedPaths : list string;
  allRepositories : list RepositoryInfo
}.

(** The body of [for (const repo of repos)]. *)
Definition addScanned (st : MergeState) (repo : RepositoryInfo) : MergeState :=
  let normalizedPath := normalize git (path repo) in
  if includes (mergedPaths st) normalizedPath then st
  else mkMergeState (mergedPaths st ++ [normalizedPath]) (allRepositories st ++ [repo]).

(** The body of [for (const configPath of configuredPaths)]; [scanPath]
    catches what its walk throws, so the [catch] here has nothing to do. *)
Definition addConfigured (st : MergeState) (configPath : string) : MergeState :=
  fold_left addScanned
            (scanPath git shouldIgnorePath (directoryAt configPath) configPath) st.

Definition scanAllConfiguredPaths (configuredPaths : list string) : list RepositoryInfo :=
  allRepositories (fold_left addConfigured configuredPaths (mkMergeState [] [])).

End ScanAll.

End Configured.

(** ** More notions *)

Module MoreNotions.
Import JS Scanner TreeNodes Provider Notions.

(** The loop over the entries in [scan], as a function of its own. *)
Section Entries.
Variable git : Git.
Variable shouldIgnorePath : string -> bool.
Variable dirPath : string.
Variable depth : nat.

Fixpoint scanEntries (es : list Dirent) (st : ScanState) {struct es} : ScanState :=
  match es with
  | [] => st
  | entry :: rest =>
      if isDirectory entry && negb (isSymbolicLink entry) then
        if includes SKIP_DIRECTORIES (direntName entry)
        then scanEntries rest st
        else scanEntries rest
               (scan git shouldIgnorePath entry (pathJoin git dirPath (direntName entry))
                     (depth + 1) st)
      else scanEntries rest st
  end.
End Entries.

(** The directories that the walk enters: the base, and every entry of an
    entered directory that is within the ceiling, not ignored, readable and
    without a [.git] entry, when the entry is a directory, not a symbolic
    link, and not named in [SKIP_DIRECTORIES]; each with the path that
    [path.join] gives it on the way, which is the path that the ignore
    patterns are tried on. *)
Inductive Walked (git : Git) (shouldIgnorePath : string -> bool) (base : Dirent)
          (basePath : string)
  : Dirent -> string -> nat -> Prop :=
| WalkedBase : Walked git shouldIgnorePath base basePath base basePath 0
| WalkedEntry : forall dir dirPath depth entries entry,
    Walked git shouldIgnorePath base basePath dir dirPath depth ->
    depth <= MAX_DEPTH ->
    shouldIgnorePath dirPath = false ->
    readdir dir = Some entries ->
    find (fun e => String.eqb (direntName e) ".git") entries = None ->
    In entry entries ->
    isDirectory entry = true ->
    isSymbolicLink entry = false ->
    includes SKIP_DIRECTORIES (direntName entry) = false ->
    Walked git shouldIgnorePath base basePath entry
           (pathJoin git dirPath (direntName entry)) (S depth).

(** The normalized path of a record. *)
Definition normalizedPath (git : Git) (repo : RepositoryInfo) : string :=
  normalize git (path repo).

(** The records of a state have different normalized paths, all of them
    seen. *)
Definition distinctRecords (git : Git) (st : ScanState) : Prop :=
  NoDup (map (normalizedPath git) (repositories st))
  /\ forall r, In r (repositories st) -> In (normalizedPath git r) (seenPaths st).

(** Every seen path whose directories [simpleGit] can open has a record. *)
Definition seenHaveRecords (git : Git) (st : ScanState) : Prop :=
  forall p, In p (seenPaths st) ->
            (forall q, normalize git q = p -> simpleGit git q = true) ->
            exists r, In r (repositories st) /\ normalizedPath git r = p.

(** What [scanAllConfiguredPaths] keeps true of its accumulators. *)
Definition merged (git : Git) (st : Configured.MergeState) : Prop :=
  NoDup (map (normalizedPath git) (Configured.allRepositories st))
  /\ (forall r, In r (Configured.allRepositories st) ->
                In (normalizedPath git r) (Configured.mergedPaths st))
  /\ (forall p, In p (Configured.mergedPaths st) ->
                exists r, In r (Configured.allRepositories st) /\ normalizedPath git r = p).

(** The paths that the [worktree] lines of a listing name, in the order of
    the lines; a [worktree] line with nothing after the prefix names none. *)
Definition worktreeLinePaths (lines : list string) : list string :=
  filter nonEmpty
    (map (substringFrom (String.length "worktree "))
       (filter (fun line => startsWith line "worktree ") lines)).

(** A host name as [extractDomain] and [extractOwner] read it in every form
    of URL: not empty, and without colon and slash. *)
Definition plainHost (h : string) : Prop :=
  nonEmpty h = true /\ allChars notColonSlash h = true.

(** A segment of the path of a URL: not empty, without slash and without
    line terminator. *)
Definition plainSegment (s : string) : Prop :=
  nonEmpty s = true
  /\ allChars notSlash s = true
  /\ allChars (fun c => negb (isLineTerminator c)) s = true.

(** The forms of the remote URL of the repository [name] of the owner path
    [owners] on the host [h], each ending in [.git]. *)
Definition remoteUrlForms (h : string) (owners : list string) (name : string)
  : list string :=
  let p := join "/" (owners ++ [name]) in
  [("https://" ++ h ++ "/" ++ p ++ ".git")%string;
   ("http://" ++ h ++ "/" ++ p ++ ".git")%string;
   ("git@" ++ h ++ ":" ++ p ++ ".git")%string;
   ("ssh://git@" ++ h ++ "/" ++ p ++ ".git")%string].

(** A repository is filed at the path [p] of the owner tree or below it. *)
Definition filedBelow (p : list string) (repo : RepositoryInfo) : bool :=
  match ownerSegments repo with
  | [] => false
  | segments =>
      if list_eq_dec string_dec (firstn (List.length p) segments) p then true else false
  end.

(** The loop over [node.children.values()] in [updateDescriptions]. *)
Fixpoint sumCounts (cs : list (string * OwnerChild)) : nat :=
  match cs with
  | [] => 0
  | (_, inl child) :: rest => updateDescriptions child + sumCounts rest
  | (_, inr _) :: rest => sumCounts rest
  end.

Definition indicator (b : bool) : nat := if b then 1 else 0.

(** The order of the siblings of the view: owner nodes before repository
    leaves, owner nodes by their names, repository leaves by the names of
    their repositories, where [localeCompare] says which name may come
    first. *)
Definition siblingOrder (localeCompare : string -> string -> Z) (a b : OwnerChild)
  : Prop :=
  match a, b with
  | inl a, inl b => (localeCompare (owner a) (owner b) <= 0)%Z
  | inl _, inr _ => True
  | inr _, inl _ => False
  | inr a, inr b =>
      (localeCompare (name (repository a)) (name (repository b)) <= 0)%Z
  end.

(** Two repositories of one domain, the owner of the first after the owner
    of the second, and the root owner node of the two. *)
Definition zetaRepository : RepositoryInfo :=
  mkRepositoryInfo "/home/dev/zeta-tool" "zeta-tool"
    [mkRemoteInfo "origin" (Some "https://github.com/zeta/tool.git") None]
    (Some "main") false
    [mkWorktreeInfo "zeta-tool" "/home/dev/zeta-tool" (Some "main") true false None None]
    "2024-01-01T00:00:00.000Z".

Definition alphaRepository : RepositoryInfo :=
  mkRepositoryInfo "/home/dev/alpha-tool" "alpha-tool"
    [mkRemoteInfo "origin" (Some "https://github.com/alpha/tool.git") None]
    (Some "main") false
    [mkWorktreeInfo "alpha-tool" "/home/dev/alpha-tool" (Some "main") true false None None]
    "2024-01-01T00:00:00.000Z".

Definition zetaAlphaRoot : OwnerNode :=
  ownerTree "github.com" [zetaRepository; alphaRepository] None.


End MoreNotions.

(** ** The quick pick: [src/extension.ts] *)

Module QuickPick.
Import JS Scanner TreeNodes Provider.

(** A [RepositoryQuickPickItem]: a separator, or an entry with its label,
    description and detail, its repository and, for a worktree, the
    worktree. *)
Inductive QuickPickItem : Type :=
| Separator (label : string)
| Entry (label description detail : string)
        (repository : RepositoryInfo) (worktree : option WorktreeInfo).

(** The two local functions of the command.  [extractDomain] has the two
    regular expressions of the provider's; [extractOwnerAndRepo] has the
    two of [extractOwner] and keeps the whole path part. *)
Definition extractDomain (remoteUrl : string) : string :=
  match firstMatch (captureRun notColonSlash) (afterSshPrefix remoteUrl) with
  | Some host => host
  | None =>
      match firstMatch (captureRun notSlash) (afterHttpPrefix remoteUrl) with
      | Some host => host
      | None => "unknown"
      end
  end.

Definition extractOwnerAndRepo (remoteUrl : string) : string :=
  let pathPart := pathPartOf remoteUrl in
  if nonEmpty pathPart then pathPart else "unknown".

(** The state of the loop over the repositories: [domainGroups] and
    [localRepos]. *)
Definition Groups : Type :=
  (list (string * list RepositoryInfo) * list RepositoryInfo)%type.

Definition addToGroups (st : Groups) (repo : RepositoryInfo) : Groups :=
  match firstFetchUrl repo with
  | Some url =>
      let domain := extractDomain url in
      let domainGroups :=
        match mapGet domain (fst st) with
        | Some _ => fst st
        | None => mapSet domain [] (fst st)
        end in
      (match mapGet domain domainGroups with
       | Some repos => mapSet domain (repos ++ [repo]) domainGroups
       | None => domainGroups
       end,
       snd st)
  | None => (fst st, snd st ++ [repo])
  end.

(** The separator of [descriptionParts.join]: a space, a bullet (the three
    bytes of its UTF-8 form) and a space. *)
Definition bullet : string :=
  String " " (String (ascii_of_nat 226) (String (ascii_of_nat 128)
    (String (ascii_of_nat 162) (String " " EmptyString)))).

Definition worktreeDescription (worktree : WorktreeInfo) : string :=
  join bullet
    ((match branch worktree with
      | Some b => if nonEmpty b then [b]
                  else if isDetached worktree then ["worktree.detached"] else []
      | None => if isDetached worktree then ["worktree.detached"] else []
      end)
     ++ (match commitHash worktree with
         | Some h => if nonEmpty h then [h] else []
         | None => []
         end)
     ++ (match commitMessage worktree with
         | Some m => if nonEmpty m then [m] else []
         | None => []
         end)).

Definition repositoryDescription (repo : RepositoryInfo) : string :=
  join bullet
    (match currentBranch repo with
     | Some b => if nonEmpty b then [b] else []
     | None => []
     end).

(** The items of one repository; [prefix] is [ownerRepo] for a repository
    of a domain and [repo.name] for a local one. *)
Definition repositoryItems (prefix : string) (repo : RepositoryInfo)
  : list QuickPickItem :=
  if 1 <? List.length (worktrees repo) then
    map (fun worktree =>
           Entry ("$(" ++ (if isMain worktree then "repo" else "git-branch") ++ ") "
                  ++ prefix ++ "/" ++ wtName worktree)%string
                 (worktreeDescription worktree) (wtPath worktree) repo (Some worktree))
        (worktrees repo)
  else
    [Entry ("$(repo) " ++ prefix)%string (repositoryDescription repo) (path repo)
           repo None].

(** The items of the repositories of a domain; [None] when
    [repo.remotes[0].fetchUrl!] is not a string, on which [match] throws. *)
Fixpoint domainItems (repos : list RepositoryInfo) : option (list QuickPickItem) :=
  match repos with
  | [] => Some []
  | repo :: rest =>
      match firstFetchUrl repo, domainItems rest with
      | Some url, Some items =>
          Some (repositoryItems (extractOwnerAndRepo url) repo ++ items)
      | _, _ => None
      end
  end.

Fixpoint groupItems (groups : list (string * list RepositoryInfo))
  : option (list QuickPickItem) :=
  match groups with
  | [] => Some []
  | (domain, repos) :: rest =>
      match domainItems repos, groupItems rest with
      | Some items, Some items' => Some (Separator domain :: items ++ items')
      | _, _ => None
      end
  end.

Definition localItems (localRepos : list RepositoryInfo) : list QuickPickItem :=
  if 0 <? List.length localRepos then
    Separator "quickPick.separator.local"
    :: flat_map (fun repo => repositoryItems (name repo) repo) localRepos
  else [].

(** The array [items] that the command hands to [showQuickPick], for a
    list of repositories that is not empty; [None] when building it
    throws. *)
Definition quickPickItems (repositories : list RepositoryInfo)
  : option (list QuickPickItem) :=
  let groups := fold_left addToGroups repositories ([], []) in
  match groupItems (fst groups) with
  | Some items => Some (items ++ localItems (snd groups))
  | None => None
  end.

(** [pathToOpen] for the selected item; [None] when nothing is opened. *)
Definition pathToOpen (selected : QuickPickItem) : option string :=
  match selected with
  | Separator _ => None
  | Entry _ _ _ repository (Some worktree) => Some (wtPath worktree)
  | Entry _ _ _ repository None => Some (path repository)
  end.

Definition separatorLabels (items : list QuickPickItem) : list string :=
  flat_map (fun item => match item with
                        | Separator l => [l]
                        | Entry _ _ _ _ _ => []
                        end) items.

(** The separator that stands for a root node of the tree view. *)
Definition separatorOf (n : RepositoryTreeNode) : list string :=
  match n with
  | Domain d => [domain d]
  | LocalGroup _ => ["quickPick.separator.local"]
  | _ => []
  end.

(** The paths that the entries among the items open, in their order. *)
Definition openedPaths (items : list QuickPickItem) : list string :=
  flat_map (fun item => match pathToOpen item with
                        | Some p => [p]
                        | None => []
                        end) items.

(** The paths that [repositoryItems] offers for a repository. *)
Definition offeredPaths (repo : RepositoryInfo) : list string :=
  if 1 <? List.length (worktrees repo) then map wtPath (worktrees repo)
  else [path repo].

End QuickPick.

(** ** The configured paths: [src/config.ts] *)

Module Config.
Import JS.

(** The host: the environment and [os.homedir()]. *)
Record Host : Type := mkHost {
  (** The variables that are set, with their values: the own properties of
      [process.env]. *)
  processEnv : string -> option string;
  (** The members that [process.env] inherits from [Object.prototype], such
      as [toString], [constructor] and [__proto__], each with the text that
      [replace] inserts for it; [None] for a name that is no such
      member. *)
  inheritedMember : string -> option string;
  homedir : string
}.

(** [process.env[varName] || ""], as the text that [replace] inserts when
    the callback returns it: the value of the variable when it is set; for
    a name that is not set, the inherited member of that name, which is a
    function or an object and so not falsy; the empty string when there is
    neither. *)
Definition envValue (host : Host) (varName : string) : string :=
  match processEnv host varName with
  | Some v => v
  | None =>
      match inheritedMember host varName with
      | Some text => text
      | None => ""
      end
  end.

Definition isDollar (c : ascii) : bool := Ascii.eqb c "$"%char.
Definition isOpenBrace (c : ascii) : bool := Ascii.eqb c "{"%char.
Definition isCloseBrace (c : ascii) : bool := Ascii.eqb c "}"%char.

(** [[A-Z_]] and [[A-Z0-9_]] under the flag [i]. *)
Definition isNameStart (c : ascii) : bool :=
  let n := nat_of_ascii c in
  ((65 <=? n) && (n <=? 90)) || ((97 <=? n) && (n <=? 122)) || Ascii.eqb c "_"%char.

Definition isNameChar (c : ascii) : bool :=
  let n := nat_of_ascii c in
  isNameStart c || ((48 <=? n) && (n <=? 57)).

(** [([^}]+)\}] at the start of [s]: the run up to the first closing
    brace, which has to be there, and what follows the brace.  The run may
    be empty here; the caller asks for a character. *)
Fixpoint braceName (s : string) : option (string * string) :=
  match s with
  | EmptyString => None
  | String c s' =>
      if isCloseBrace c then Some (EmptyString, s')
      else match braceName s' with
           | Some (varName, rest) => Some (String c varName, rest)
           | None => None
           end
  end.

(** [\$\{([^}]+)\}] at the start of [s]: the name and what follows the
    match. *)
Definition matchBraces (s : string) : option (string * string) :=
  match s with
  | String c (String c' s') =>
      if isDollar c && isOpenBrace c' then
        match braceName s' with
        | Some (String a varName, rest) => Some (String a varName, rest)
        | _ => None
        end
      else None
  | _ => None
  end.

(** The longest run of [[A-Z0-9_]] at the start of [s], and what follows. *)
Fixpoint nameRun (s : string) : string * string :=
  match s with
  | EmptyString => (EmptyString, EmptyString)
  | String c s' =>
      if isNameChar c then (String c (fst (nameRun s')), snd (nameRun s'))
      else (EmptyString, s)
  end.

(** The second pattern at the start of [s]: a dollar sign, a character of
    [[A-Z_]] and the longest run of [[A-Z0-9_]] after it. *)
Definition matchName (s : string) : option (string * string) :=
  match s with
  | String c (String c' s') =>
      if isDollar c && isNameStart c' then
        Some (String c' (fst (nameRun s')), snd (nameRun s'))
      else None
  | _ => None
  end.

(** [s.replace(re, (_, varName) => process.env[varName] || "")] for a
    global [re]: from left to right, a match is replaced and the search
    goes on after it, any other character is kept.  Every step takes at
    least one character, so the length of [s] is fuel enough. *)
Fixpoint replaceFrom (host : Host) (matchAt : string -> option (string * string))
         (fuel : nat) (s : string) : string :=
  match fuel with
  | O => s
  | S fuel' =>
      match matchAt s with
      | Some (varName, rest) =>
          (envValue host varName ++ replaceFrom host matchAt fuel' rest)%string
      | None =>
          match s with
          | EmptyString => EmptyString
          | String c s' => String c (replaceFrom host matchAt fuel' s')
          end
      end
  end.

Definition replaceAll (host : Host) (matchAt : string -> option (string * string))
           (s : string) : string :=
  replaceFrom host matchAt (String.length s) s.

Definition expandEnvironmentVariables (host : Host) (path : string) : string :=
  let expanded := replaceAll host matchBraces path in
  let expanded := replaceAll host matchName expanded in
  if startsWith expanded "~" then (homedir host ++ substringFrom 1 expanded)%string
  else expanded.

(** [getRepositoryPaths]; [paths] is the value of the setting. *)
Definition getRepositoryPaths (host : Host) (paths : list string) : list string :=
  filter nonEmpty (map (expandEnvironmentVariables host) paths).

(** A host in which [HOME] is set and [toString] is inherited. *)
Definition exampleHost : Host :=
  mkHost (fun v => if String.eqb v "HOME" then Some "/home/dev" else None)
         (fun v => if String.eqb v "toString"
                   then Some "function toString() { [native code] }" else None)
         "/root".

(** What the last step of [expandEnvironmentVariables] does. *)
Definition expandTilde (host : Host) (expanded : string) : string :=
  if startsWith expanded "~" then (homedir host ++ substringFrom 1 expanded)%string
  else expanded.

(** A string without a dollar sign. *)
Fixpoint dollarFree (s : string) : bool :=
  match s with
  | EmptyString => true
  | String c s' => negb (isDollar c) && dollarFree s'
  end.

Fixpoint braceFree (s : string) : bool :=
  match s with
  | EmptyString => true
  | String c s' => negb (isCloseBrace c) && braceFree s'
  end.

(** A name that the second pattern takes as a whole. *)
Fixpoint allNameChars (s : string) : bool :=
  match s with
  | EmptyString => true
  | String c s' => isNameChar c && allNameChars s'
  end.

Definition isIdentifier (s : string) : bool :=
  match s with
  | EmptyString => false
  | String c s' => isNameStart c && allNameChars s'
  end.

(** [s] does not go on with a character of a name. *)
Definition endsName (s : string) : bool :=
  match s with
  | EmptyString => true
  | String c _ => negb (isNameChar c)
  end.

End Config.

(** ** The decorations: [src/views/repositoryDecorationProvider.ts] *)

Module Decorations.
Import JS Scanner TreeNodes Provider.

(** [new vscode.FileDecoration(count.toString(), `${count} repositories`)]:
    the badge and the tooltip are the count, printed. *)
Record FileDecoration : Type := mkFileDecoration {
  badgeCount : nat
}.

(** The map [decorations]. *)
Definition DecorationMap : Type := list (string * FileDecoration).

(** [map.delete(key)] *)
Definition mapDelete {V : Type} (key : string) (m : list (string * V))
  : list (string * V) :=
  filter (fun entry => negb (String.eqb (fst entry) key)) m.

Section Uris.
(** [vscode.Uri] with [Uri.parse], [uri.toString()] and [uri.scheme]. *)
Variable Uri : Type.
Variable parse : string -> Uri.
Variable toString : Uri -> string.
Variable scheme : Uri -> string.

Definition provideFileDecoration (decorations : DecorationMap) (uri : Uri)
  : option FileDecoration :=
  if negb (String.eqb (scheme uri) "git-repositories") then None
  else mapGet (toString uri) decorations.

Definition setCount (id : string) (count : nat) (decorations : DecorationMap)
  : DecorationMap :=
  let uri := parse ("git-repositories:" ++ id)%string in
  mapSet (toString uri) (mkFileDecoration count) decorations.

Definition clearCount (id : string) (decorations : DecorationMap) : DecorationMap :=
  let uri := parse ("git-repositories:" ++ id)%string in
  mapDelete (toString uri) decorations.

Definition clear (decorations : DecorationMap) : DecorationMap := [].

(** [this.resourceUri] of a domain node, of the local group and of an
    owner node. *)
Definition domainResourceUri (d : DomainNode) : Uri :=
  parse ("git-repositories:domain:" ++ domain d)%string.

Definition localGroupResourceUri : Uri := parse "git-repositories:local-group".

Definition ownerResourceUri (n : OwnerNode) : Uri :=
  parse ("git-repositories:owner:"
         ++ (if truthy (ownerDomain n)
             then match ownerDomain n with Some d => d | None => "" end
             else "local")
         ++ ":" ++ fullPath n)%string.

(** The calls of [setCount] in [getRemoteViewRootNodes];
    [showRepositoryCount] is the setting that [getShowRepositoryCount]
    reads. *)
Definition setDomainCount (showRepositoryCount : bool) (decorations : DecorationMap)
           (entry : string * list RepositoryInfo) : DecorationMap :=
  if showRepositoryCount
  then setCount ("domain:" ++ fst entry)%string (List.length (snd entry)) decorations
  else decorations.

Definition decorateRoots (showRepositoryCount : bool)
           (repositories : list RepositoryInfo) (decorations : DecorationMap)
  : DecorationMap :=
  match repositories with
  | [] => decorations
  | _ =>
      let decorations' :=
        fold_left (setDomainCount showRepositoryCount) (buildDomainMap repositories)
                  decorations in
      if 0 <? List.length (reposWithoutRemote repositories) then
        if showRepositoryCount
        then setCount "local-group" (List.length (reposWithoutRemote repositories))
                      decorations'
        else decorations'
      else decorations'
  end.

(** [updateDescriptions] of [getOwnerNodes] with the decorations it sets:
    the number it returns and the map after it. *)
Fixpoint decorateOwners (showRepositoryCount : bool) (domain : string)
         (node : OwnerNode) (decorations : DecorationMap) {struct node}
  : nat * DecorationMap :=
  match node with
  | mkOwnerNode _ fullPath repositories _ _ children =>
      let below :=
        (fix each (cs : list (string * (OwnerNode + RepositoryNode)))
             (decorations : DecorationMap) : nat * DecorationMap :=
           match cs with
           | [] => (0, decorations)
           | (_, inl child) :: rest =>
               let counted := decorateOwners showRepositoryCount domain child decorations in
               let others := each rest (snd counted) in
               (fst counted + fst others, snd others)
           | (_, inr _) :: rest => each rest decorations
           end) children decorations in
      let totalRepos := List.length repositories + fst below in
      (totalRepos,
       if 0 <? totalRepos then
         let ownerKey :=
           ("owner:" ++ (if nonEmpty domain then domain else "local")
            ++ ":" ++ fullPath)%string in
         if showRepositoryCount then setCount ownerKey totalRepos (snd below)
         else snd below
       else snd below)
  end.

(** [refresh]: what it does to the decorations. *)
Definition refresh (showRepositoryCount : bool) (decorations : DecorationMap)
  : DecorationMap :=
  if negb showRepositoryCount then clear decorations else decorations.

End Uris.

Arguments provideFileDecoration {Uri} toString scheme decorations uri.
Arguments setCount {Uri} parse toString id count decorations.
Arguments clearCount {Uri} parse toString id decorations.
Arguments domainResourceUri {Uri} parse d.
Arguments localGroupResourceUri {Uri} parse.
Arguments ownerResourceUri {Uri} parse n.
Arguments setDomainCount {Uri} parse toString showRepositoryCount decorations entry.
Arguments decorateRoots {Uri} parse toString showRepositoryCount repositories decorations.
Arguments decorateOwners {Uri} parse toString showRepositoryCount domain node decorations.

(** A host in which a URI is its text and the scheme is the text before
    the first colon. *)
Definition textScheme (uri : string) : string :=
  match split ":"%char uri with
  | s :: _ => s
  | [] => EmptyString
  end.

End Decorations.

Module DecorationNotions.
Import JS Scanner TreeNodes Provider Notions MoreNotions Decorations.

(** The loop over [node.children.values()] in [updateDescriptions], with
    the decorations. *)
Section Children.
Variable Uri : Type.
Variable parse : string -> Uri.
Variable toString : Uri -> string.
Variable showRepositoryCount : bool.
Variable domain : string.

Fixpoint decorateChildren (cs : list (string * OwnerChild)) (decorations : DecorationMap)
  : nat * DecorationMap :=
  match cs with
  | [] => (0, decorations)
  | (_, inl child) :: rest =>
      let counted :=
        decorateOwners parse toString showRepositoryCount domain child decorations in
      let others := decorateChildren rest (snd counted) in
      (fst counted + fst others, snd others)
  | (_, inr _) :: rest => decorateChildren rest decorations
  end.
End Children.

Arguments decorateChildren {Uri} parse toString showRepositoryCount domain cs decorations.

(** The text of the URI under which [updateDescriptions] sets the count of
    the owner node of a path. *)
Definition ownerUriText (domain : string) (p : list string) : string :=
  ("git-repositories:owner:" ++ (if nonEmpty domain then domain else "local")
   ++ ":" ++ pathName p)%string.

(** The nodes of an owner tree: a node at its path, and the nodes of its
    child nodes. *)
Inductive Within : OwnerNode -> list string -> OwnerNode -> list string -> Prop :=
| WithinSelf : forall n q, Within n q n q
| WithinChild : forall n q k c c' p,
    In (k, inl c) (children n) ->
    Within c (q ++ [k]) c' p ->
    Within n q c' p.

(** The number of repositories filed at a path or below it. *)
Definition countBelow (repos : list RepositoryInfo) (p : list string) : nat :=
  List.length (filter (filedBelow p) repos).

(** What a pass over a part of the owner tree of a domain has done to the
    decorations: a key has the decoration it had, or the count of a path of
    this key that has repositories below it. *)
Definition countsOnly {Uri : Type} (parse : string -> Uri) (toString : Uri -> string)
           (domain : string) (repos : list RepositoryInfo)
           (before after : DecorationMap) : Prop :=
  forall key,
    mapGet key after = mapGet key before
    \/ exists p, 0 < countBelow repos p
                 /\ key = toString (parse (ownerUriText domain p))
                 /\ mapGet key after = Some (mkFileDecoration (countBelow repos p)).

(** What [updateDescriptions] does on the owner node [n] at the path [q]:
    it returns the count of the path, changes the decorations by counts
    only, and leaves every node of [n] that has a count with it. *)
Definition decorated {Uri : Type} (parse : string -> Uri) (toString : Uri -> string)
           (domain : string) (repos : list RepositoryInfo)
           (n : OwnerNode) (q : list string) : Prop :=
  forall decorations,
    fst (decorateOwners parse toString true domain n decorations) = countBelow repos q
    /\ countsOnly parse toString domain repos decorations
         (snd (decorateOwners parse toString true domain n decorations))
    /\ (forall c p,
          Within n q c p -> 0 < countBelow repos p ->
          mapGet (toString (parse (ownerUriText domain p)))
                 (snd (decorateOwners parse toString true domain n decorations))
          = Some (mkFileDecoration (countBelow repos p))).

(** The first child node of an owner node. *)
Definition firstChild (n : OwnerNode) : OwnerNode :=
  match children n with
  | (_, inl c) :: _ => c
  | _ => n
  end.

End DecorationNotions.

(** ** The form of a worktree listing *)

Module Porcelain.
Import JS Scanner.

(** What [git worktree list --porcelain] prints for a worktree after its
    path: a head and a branch, a head that is detached, or nothing of the
    two for a bare repository. *)
Inductive HeadState : Type :=
| OnBranch (head branch : string)
| DetachedAt (head : string)
| Bare.

Record ListedWorktree : Type := mkListedWorktree {
  listedPath : string;
  listedState : HeadState
}.

Definition line (s : string) : string := (s ++ String newline EmptyString)%string.

(** The block of a worktree: its lines and the blank line that ends it. *)
Definition porcelainBlock (w : ListedWorktree) : string :=
  (line ("worktree " ++ listedPath w)
   ++ match listedState w with
      | OnBranch head branch =>
          line ("HEAD " ++ head) ++ line ("branch refs/heads/" ++ branch)
      | DetachedAt head => line ("HEAD " ++ head) ++ line "detached"
      | Bare => line "bare"
      end
   ++ line "")%string.

(** The lines of the block. *)
Definition blockLines (w : ListedWorktree) : list string :=
  ("worktree " ++ listedPath w)%string
  :: match listedState w with
     | OnBranch head branch =>
         [("HEAD " ++ head)%string; ("branch refs/heads/" ++ branch)%string]
     | DetachedAt head => [("HEAD " ++ head)%string; "detached"]
     | Bare => ["bare"]
     end
  ++ [EmptyString].

Definition porcelain (ws : list ListedWorktree) : string :=
  fold_right append EmptyString (map porcelainBlock ws).

(** The value that a [HEAD] line leaves in [branch]. *)
Definition headAsBranch (head : string) : string :=
  if startsWith head "refs/heads/"
  then substringFrom (String.length "refs/heads/") head
  else head.

(** The record that the loop over the lines pushes for a block. *)
Definition parsedWorktree (w : ListedWorktree) : WorktreeInfo :=
  match listedState w with
  | OnBranch head branch =>
      mkWorktreeInfo "" (listedPath w) (Some branch) false false
                     (Some (substringTo 8 head)) None
  | DetachedAt head =>
      mkWorktreeInfo "" (listedPath w) (Some (headAsBranch head)) false true
                     (Some (substringTo 8 head)) None
  | Bare => mkWorktreeInfo "" (listedPath w) None false false None None
  end.

Definition lineFree (s : string) : bool :=
  Provider.allChars (fun c => negb (Ascii.eqb c newline)) s.

(** A worktree whose block has the lines it is meant to have: the path is
    not empty, and no text of it holds a line feed. *)
Definition wellListed (w : ListedWorktree) : Prop :=
  nonEmpty (listedPath w) = true
  /\ lineFree (listedPath w) = true
  /\ match listedState w with
     | OnBranch head branch => lineFree head = true /\ lineFree branch = true
     | DetachedAt head => lineFree head = true
     | Bare => True
     end.

End Porcelain.

(** ** The blocks of a worktree listing *)

Module Listing.
Import JS Scanner.

(** The lines of the block that goes on with [lines]: those before the
    next line that starts a worktree, before the next empty line, or up to
    the end of the listing. *)
Fixpoint blockOf (lines : list string) : list string :=
  match lines with
  | [] => []
  | l :: rest =>
      if startsWith l "worktree " || String.eqb l "" then []
      else l :: blockOf rest
  end.

(** The blocks of a listing: for every line that starts with [worktree ],
    the path that follows the prefix and the lines of its block. *)
Fixpoint blocks (lines : list string) : list (string * list string) :=
  match lines with
  | [] => []
  | l :: rest =>
      if startsWith l "worktree "
      then (substringFrom (String.length "worktree ") l, blockOf rest) :: blocks rest
      else blocks rest
  end.

(** The blocks of a listing that name a path. *)
Definition listedBlocks (text : string) : list (string * list string) :=
  filter (fun b => nonEmpty (fst b)) (blocks (split newline text)).

(** The value of the last [HEAD] line of a block; [h] when it has none. *)
Definition lastHeadFrom (h : option string) (block : list string) : option string :=
  fold_left (fun h l => if startsWith l "HEAD "
                        then Some (substringFrom (String.length "HEAD ") l)
                        else h)
            block h.

Definition lastHead (block : list string) : option string := lastHeadFrom None block.

(** What a block says of the commit of its worktree before the commit is
    looked up: the path, the first eight characters of the value of its
    last [HEAD] line, and no message. *)
Definition listedCommit (b : string * list string)
  : string * option string * option string :=
  (fst b, option_map (substringTo 8) (lastHead (snd b)), None).

(** The same three fields of a worktree record. *)
Definition recordedCommit (wt : WorktreeInfo) : string * option string * option string :=
  (wtPath wt, commitHash wt, commitMessage wt).

(** What the loop over the lines will push for [currentWorktree] when the
    lines of its block are [block] and the last [HEAD] line before them
    had the value [h]. *)
Definition pendingCommit (current : PartialWorktree) (h : option string)
           (block : list string) : list (string * option string * option string) :=
  match current with
  | Some wt =>
      if nonEmpty (wtPath wt)
      then [(wtPath wt, option_map (substringTo 8) (lastHeadFrom h block), None)]
      else []
  | None => []
  end.

(** [currentWorktree] has the hash of the [HEAD] value [h] and no
    message. *)
Definition holdsHead (current : PartialWorktree) (h : option string) : Prop :=
  forall wt, current = Some wt ->
             commitHash wt = option_map (substringTo 8) h /\ commitMessage wt = None.

End Listing.

(** * Properties of the scanner *)

Module ScannerFacts.
Import Listing.
Import JS Scanner Examples Notions.

(** ** The worktree parser *)


Lemma completeWorktree_failed : forall git repoPath wt,
  lookupFails git (wtPath wt) ->
  wtPath (completeWorktree git repoPath wt) = wtPath wt
  /\ commitHash (completeWorktree git repoPath wt) = commitHash wt
  /\ commitMessage (completeWorktree git repoPath wt) = commitMessage wt.
Proof.
  intros git repoPath wt [Hopen|Hlog]; unfold completeWorktree.
  - rewrite Hopen. simpl. auto.
  - rewrite Hlog. destruct (simpleGit git (wtPath wt)); simpl; auto.
Qed.

(** ** The directory walk *)


Section Walk.
Variable git : Git.
Variable shouldIgnorePath : string -> bool.

#[local] Opaque includes.

(** An invariant of the accumulators holds after a walk when every visit
    of a repository root within the ceiling keeps it. *)
Lemma scan_invariant (base : Dirent) (basePath : string) (P : ScanState -> Prop) :
  (forall dir dirPath depth gitEntry st,
      Below git base basePath dir dirPath depth -> depth <= MAX_DEPTH ->
      (forall entries, readdir dir = Some entries ->
         find (fun e => String.eqb (direntName e) ".git") entries = Some gitEntry) ->
      readdir dir <> None ->
      P st -> P (visitRepository git dirPath gitEntry st)) ->
  forall dir dirPath depth st,
    Below git base basePath dir dirPath depth -> P st ->
    P (scan git shouldIgnorePath dir dirPath depth st).
Proof.
  intro Hvisit.
  fix IH 1.
  intros [n k [entries|]] dirPath depth st Hbelow Hst; simpl.
  2: { destruct (MAX_DEPTH <? depth); [exact Hst|].
       destruct (shouldIgnorePath dirPath); exact Hst. }
  destruct (MAX_DEPTH <? depth) eqn:Hdepth; [exact Hst|].
  apply Nat.ltb_ge in Hdepth.
  destruct (shouldIgnorePath dirPath); [exact Hst|].
  destruct (find (fun e => String.eqb (direntName e) ".git") entries) as [gitEntry|] eqn:Hfind.
  - apply (Hvisit (mkDirent n k (Some entries)) dirPath depth gitEntry st Hbelow Hdepth).
    + intros es Hes. simpl in Hes. injection Hes as <-. exact Hfind.
    + simpl. discriminate.
    + exact Hst.
  - clear Hfind.
    assert (Hchild : forall e, In e entries ->
              Below git base basePath e (pathJoin git dirPath (direntName e)) (S depth)).
    { intros e He. eapply BelowEntry; [exact Hbelow|reflexivity|exact He]. }
    clear Hbelow. revert st Hst Hchild.
    induction entries as [|entry rest IHes]; intros st Hst Hchild.
    + exact Hst.
    + destruct (isDirectory entry && negb (isSymbolicLink entry)).
      * destruct (includes SKIP_DIRECTORIES (direntName entry)).
        -- apply IHes; [exact Hst|]. intros e He. apply Hchild. right. exact He.
        -- apply IHes; [|intros e He; apply Hchild; right; exact He].
           apply IH; [|exact Hst].
           replace (depth + 1) with (S depth) by lia.
           apply Hchild. left. reflexivity.
      * apply IHes; [exact Hst|]. intros e He. apply Hchild. right. exact He.
Qed.
End Walk.

(** A record that the walk adds comes from [extractRepositoryInfo] called
    with [isGitFile = false] on the path of the directory. *)
Lemma visitRepository_repositories : forall git dirPath gitEntry st r,
  In r (repositories (visitRepository git dirPath gitEntry st)) ->
  In r (repositories st)
  \/ (isFile gitEntry = false
      /\ extractRepositoryInfo git dirPath false = Some r).
Proof.
  intros git dirPath gitEntry st r. unfold visitRepository.
  destruct (isFile gitEntry) eqn:Hfile; [auto|].
  destruct (includes (seenPaths st) (normalize git dirPath)); [auto|].
  destruct (extractRepositoryInfo git dirPath false) as [info|] eqn:Hinfo; simpl; [|auto].
  intro Hin. apply in_app_or in Hin. destruct Hin as [Hin|[<-|[]]]; auto.
Qed.

Lemma extractRepositoryInfo_fields : forall git repoPath isGitFile r,
  extractRepositoryInfo git repoPath isGitFile = Some r ->
  path r = repoPath /\ isSubmodule r = isGitFile.
Proof.
  intros git repoPath isGitFile r. unfold extractRepositoryInfo.
  destruct (simpleGit git repoPath); [|discriminate].
  intro H. injection H as <-. simpl. auto.
Qed.

Lemma direntName_chain : forall depth leaf, direntName (chain depth leaf) = "d".
Proof. intros [|depth] leaf; reflexivity. Qed.

Lemma chainPath_step : forall git depth basePath,
  chainPath git basePath (S depth) = pathJoin git (chainPath git basePath depth) "d".
Proof.
  intro git. induction depth as [|depth IH]; intro basePath.
  - reflexivity.
  - change (chainPath git basePath (S (S depth)))
      with (chainPath git (pathJoin git basePath "d") (S depth)).
    rewrite IH. reflexivity.
Qed.

(** Below the ceiling the walk leaves the accumulators as they are. *)
Lemma scan_chain_too_deep : forall git shouldIgnorePath leaf below dirPath depth st,
  MAX_DEPTH < depth + below ->
  scan git shouldIgnorePath (chain below leaf) dirPath depth st = st.
Proof.
  intros git shouldIgnorePath leaf below.
  induction below as [|below IH]; intros dirPath depth st Hdeep.
  - simpl. replace (MAX_DEPTH <? depth) with true; [reflexivity|].
    symmetry. apply Nat.ltb_lt. lia.
  - simpl. destruct (MAX_DEPTH <? depth); [reflexivity|].
    destruct (shouldIgnorePath dirPath); [reflexivity|].
    rewrite direntName_chain. simpl.
    replace (isDirectory (chain below leaf)) with true by (destruct below; reflexivity).
    replace (isSymbolicLink (chain below leaf)) with false by (destruct below; reflexivity).
    simpl. apply IH. lia.
Qed.

(** Within the ceiling the walk goes down the chain to its last directory. *)
Lemma scan_chain_within : forall git shouldIgnorePath below dirPath depth st,
  depth + below <= MAX_DEPTH ->
  (forall p, shouldIgnorePath p = false) ->
  scan git shouldIgnorePath (chain below repositoryEntries) dirPath depth st
  = visitRepository git (chainPath git dirPath below)
      (mkDirent ".git" KDirectory (Some [])) st.
Proof.
  intros git shouldIgnorePath below.
  induction below as [|below IH]; intros dirPath depth st Hwithin Hignore.
  - simpl. replace (MAX_DEPTH <? depth) with false; [|symmetry; apply Nat.ltb_ge; lia].
    rewrite Hignore. reflexivity.
  - simpl. replace (MAX_DEPTH <? depth) with false; [|symmetry; apply Nat.ltb_ge; lia].
    rewrite Hignore. rewrite direntName_chain. simpl.
    replace (isDirectory (chain below repositoryEntries)) with true
      by (destruct below; reflexivity).
    replace (isSymbolicLink (chain below repositoryEntries)) with false
      by (destruct below; reflexivity).
    simpl. apply IH; [lia|exact Hignore].
Qed.

(** ** The claims about the scanner *)

(** C1, as the code has it.  A directory that the walk reads and that has
    a [.git] entry is never descended into.  When that entry is a regular
    file the directory is skipped and adds nothing; otherwise, unless its
    normalized path was seen before, it is handed to the metadata
    extraction with [isGitFile = false].  Hence no record of a scan has
    [isSubmodule = true]. *)
Theorem git_file_directory_is_skipped : forall git shouldIgnorePath,
  (forall n k entries gitEntry dirPath depth st,
      find (fun e => String.eqb (direntName e) ".git") entries = Some gitEntry ->
      depth <= MAX_DEPTH ->
      shouldIgnorePath dirPath = false ->
      (isFile gitEntry = true ->
       scan git shouldIgnorePath (mkDirent n k (Some entries)) dirPath depth st = st)
      /\ (isFile gitEntry = false ->
          scan git shouldIgnorePath (mkDirent n k (Some entries)) dirPath depth st
          = if includes (seenPaths st) (normalize git dirPath) then st
            else mkScanState
                   (seenPaths st ++ [normalize git dirPath])
                   (repositories st
                    ++ match extractRepositoryInfo git dirPath false with
                       | Some repoInfo => [repoInfo]
                       | None => []
                       end)))
  /\ (forall base basePath r,
        In r (scanPath git shouldIgnorePath base basePath) -> isSubmodule r = false).
Proof.
  intros git shouldIgnorePath. split.
  - intros n k entries gitEntry dirPath depth st Hfind Hdepth Hignore.
    simpl. replace (MAX_DEPTH <? depth) with false; [|symmetry; apply Nat.ltb_ge; lia].
    rewrite Hignore, Hfind. unfold visitRepository.
    split; intro Hfile; rewrite Hfile; [reflexivity|].
    destruct (includes (seenPaths st) (normalize git dirPath)); [reflexivity|].
    destruct (extractRepositoryInfo git dirPath false); [reflexivity|].
    rewrite app_nil_r. reflexivity.
  - intros base basePath r Hin. unfold scanPath in Hin.
    assert (Hall : Forall (fun r => isSubmodule r = false)
                     (repositories (scan git shouldIgnorePath base basePath 0
                                         (mkScanState [] [])))).
    { apply (scan_invariant git shouldIgnorePath base basePath
               (fun st => Forall (fun r => isSubmodule r = false) (repositories st))).
      - intros dir dirPath depth gitEntry st _ _ _ _ Hst.
        apply Forall_forall. intros r' Hr'.
        destruct (visitRepository_repositories _ _ _ _ _ Hr') as [Hold|[_ Hnew]].
        + rewrite Forall_forall in Hst. apply Hst. exact Hold.
        + apply extractRepositoryInfo_fields in Hnew. apply Hnew.
      - constructor.
      - constructor. }
    rewrite Forall_forall in Hall. apply Hall. exact Hin.
Qed.

Lemma git_file_directory_is_skipped_witness :
  scan quietGit ignoreNothing submoduleDirectory "/sub" 0 (mkScanState [] [])
  = mkScanState [] [].
Proof.
  apply (proj1 (git_file_directory_is_skipped quietGit ignoreNothing)
               "sub" KDirectory
               [mkDirent ".git" KFile None; mkDirent "README.md" KFile None]
               (mkDirent ".git" KFile None) "/sub" 0 (mkScanState [] [])).
  - reflexivity.
  - unfold MAX_DEPTH. lia.
  - reflexivity.
  - reflexivity.
Defined.

(** C1, as the specification has it, fails: a directory whose [.git] is a
    regular file yields no record at all, while the same directory with a
    [.git] directory yields one. *)
Lemma submodule_directory_yields_no_record :
  scanPath quietGit ignoreNothing submoduleDirectory "/sub" = []
  /\ map isSubmodule (scanPath quietGit ignoreNothing plainRepository "/sub") = [false].
Proof. split; vm_compute; reflexivity. Qed.

(** C2, evaluated on the code.  On the porcelain text of the claim the
    scanner yields two worktree records, for [/r] and [/r-wt], the first on
    branch [main] and not detached, the second detached; but the second
    keeps the value of its [HEAD] line, [def456], as its branch, so it has
    a branch and is detached at once (the exclusive or of the data model,
    read to the letter, holds of it because it has a branch).  Neither the
    name, the main flag nor the commit lookup of the later pass changes
    these fields. *)
Theorem detached_worktree_keeps_head_as_branch : forall git repoPath,
  let records := map (completeWorktree git repoPath) (parseWorktreeList porcelainExample) in
  map wtPath records = ["/r"; "/r-wt"]
  /\ map branch records = [Some "main"; Some "def456"]
  /\ map isDetached records = [false; true]
  /\ map branchXorDetached records = [true; true].
Proof.
  intros git repoPath.
  assert (Hkeep : forall wt,
             wtPath (completeWorktree git repoPath wt) = wtPath wt
             /\ branch (completeWorktree git repoPath wt) = branch wt
             /\ isDetached (completeWorktree git repoPath wt) = isDetached wt).
  { intro wt. unfold completeWorktree.
    destruct (simpleGit git (wtPath wt)); [|simpl; auto].
    destruct (log git (wtPath wt)) as [[latest|]|]; simpl; auto. }
  replace (parseWorktreeList porcelainExample)
    with [mkWorktreeInfo "" "/r" (Some "main") false false (Some "abc123") None;
          mkWorktreeInfo "" "/r-wt" (Some "def456") false true (Some "def456") None]
    by (vm_compute; reflexivity).
  cbv zeta. unfold branchXorDetached. simpl map.
  repeat match goal with
         | |- context [completeWorktree git repoPath ?wt] =>
             let H := fresh in
             destruct (Hkeep wt) as (H & ? & ?);
             generalize dependent (completeWorktree git repoPath wt); intros
         end.
  simpl in *.
  repeat match goal with H : _ = _ |- _ => rewrite H end.
  repeat split; reflexivity.
Qed.

(** The loop over the lines pushes one record for each block that names a
    path, with the hash of the last [HEAD] line of the block. *)
Lemma parse_fold_commits : forall lines done current h,
  holdsHead current h ->
  map recordedCommit (pushCurrent (fold_left parseLine lines (done, current)))
  = map recordedCommit done
    ++ pendingCommit current h (blockOf lines)
    ++ map listedCommit (filter (fun b => nonEmpty (fst b)) (blocks lines)).
Proof.
  induction lines as [|l rest IH]; intros done current h Hhead.
  - simpl. unfold pushCurrent, pendingCommit. simpl.
    destruct current as [wt|]; [|rewrite !app_nil_r; reflexivity].
    destruct (Hhead wt eq_refl) as [Hhash Hmsg].
    destruct (nonEmpty (wtPath wt)); [|rewrite !app_nil_r; reflexivity].
    rewrite map_app, app_nil_r. unfold recordedCommit at 2. simpl.
    rewrite Hhash, Hmsg. reflexivity.
  - cbn [fold_left blockOf blocks]. unfold parseLine at 2. cbv zeta. cbn [snd fst].
    destruct (startsWith l "worktree ") eqn:Hwt.
    + (* a new block: the current object is pushed *)
      cbn [orb].
      rewrite (IH _ _ None).
      2: { intros wt Hwt'. injection Hwt' as <-. split; reflexivity. }
      cbn [filter fst]. unfold pendingCommit at 1. cbn [wtPath].
      assert (Hpushed : map recordedCommit (pushCurrent (done, current))
                        = map recordedCommit done ++ pendingCommit current h []).
      { unfold pushCurrent, pendingCommit. simpl.
        destruct current as [wt|]; [|rewrite app_nil_r; reflexivity].
        destruct (Hhead wt eq_refl) as [Hhash Hmsg].
        destruct (nonEmpty (wtPath wt)); [|rewrite app_nil_r; reflexivity].
        rewrite map_app. unfold recordedCommit at 2. simpl.
        rewrite Hhash, Hmsg. reflexivity. }
      rewrite Hpushed, <- !app_assoc. f_equal. f_equal.
      destruct (nonEmpty (substringFrom (String.length "worktree ") l)); reflexivity.
    + cbn [orb]. destruct (startsWith l "HEAD ") eqn:Hhd.
      { assert (Hblank : String.eqb l "" = false)
          by (destruct l; [discriminate Hhd|reflexivity]).
        rewrite Hblank.
        destruct current as [wt|]; [|apply (IH done None h); intros wt H; discriminate H].
        destruct (nonEmpty (wtPath wt)) eqn:Hpath.
        - rewrite (IH _ _ (Some (substringFrom (String.length "HEAD ") l))).
          2: { intros wt' Hwt'. injection Hwt' as <-.
               destruct (Hhead wt eq_refl) as [_ Hmsg]. split; [reflexivity|exact Hmsg]. }
          unfold pendingCommit. cbn [wtPath setCommitHash setBranch].
          rewrite Hpath. unfold lastHeadFrom. cbn [fold_left]. rewrite Hhd. reflexivity.
        - rewrite (IH _ _ h Hhead). unfold pendingCommit. rewrite Hpath. reflexivity. }
      assert (Hkept : forall st',
                 fst st' = done ->
                 (snd st' = current
                  \/ exists wt wt', current = Some wt /\ snd st' = Some wt'
                                     /\ wtPath wt' = wtPath wt
                                     /\ commitHash wt' = commitHash wt
                                     /\ commitMessage wt' = commitMessage wt) ->
                 map recordedCommit (pushCurrent (fold_left parseLine rest st'))
                 = map recordedCommit done
                   ++ pendingCommit current h (l :: blockOf rest)
                   ++ map listedCommit
                        (filter (fun b => nonEmpty (fst b)) (blocks rest))).
      { intros [done' current'] Hdone Hcurrent. simpl in Hdone, Hcurrent. subst done'.
        assert (Hhead' : holdsHead current' h).
        { destruct Hcurrent as [->|(wt & wt' & -> & -> & _ & Hh & Hm)]; [exact Hhead|].
          intros w Hw. injection Hw as <-. rewrite Hh, Hm. apply (Hhead wt eq_refl). }
        rewrite (IH done current' h Hhead'). f_equal. f_equal.
        unfold pendingCommit, lastHeadFrom. cbn [fold_left]. rewrite Hhd.
        destruct Hcurrent as [->|(wt & wt' & -> & -> & Hp & _)]; [reflexivity|].
        rewrite Hp. reflexivity. }
      destruct (startsWith l "branch ") eqn:Hbr.
      { assert (Hblank : String.eqb l "" = false)
          by (destruct l; [discriminate Hbr|reflexivity]).
        rewrite Hblank.
        destruct current as [wt|]; [|apply Hkept; [reflexivity|left; reflexivity]].
        destruct (nonEmpty (wtPath wt));
          [|apply Hkept; [reflexivity|left; reflexivity]].
        apply Hkept; [reflexivity|].
        right. eexists. eexists. split; [reflexivity|]. split; [reflexivity|].
        split; [reflexivity|]. split; reflexivity. }
      destruct (String.eqb l "detached") eqn:Hdet.
      { assert (Hblank : String.eqb l "" = false).
        { apply String.eqb_eq in Hdet. subst l. reflexivity. }
        rewrite Hblank.
        destruct current as [wt|]; [|apply Hkept; [reflexivity|left; reflexivity]].
        destruct (nonEmpty (wtPath wt));
          [|apply Hkept; [reflexivity|left; reflexivity]].
        apply Hkept; [reflexivity|].
        right. eexists. eexists. split; [reflexivity|]. split; [reflexivity|].
        split; [reflexivity|]. split; reflexivity. }
      destruct (String.eqb l "") eqn:Hblank.
      * (* the blank line ends the block *)
        destruct (hasPath current) eqn:Hhas.
        -- rewrite (IH _ None None); [|intros wt H; discriminate H].
           unfold pendingCommit at 1. cbn [app].
           assert (Hpushed : map recordedCommit (pushCurrent (done, current))
                             = map recordedCommit done ++ pendingCommit current h []).
           { unfold pushCurrent, pendingCommit. simpl.
             destruct current as [wt|]; [|rewrite app_nil_r; reflexivity].
             destruct (Hhead wt eq_refl) as [Hhash Hmsg].
             destruct (nonEmpty (wtPath wt)); [|rewrite app_nil_r; reflexivity].
             rewrite map_app. unfold recordedCommit at 2. simpl.
             rewrite Hhash, Hmsg. reflexivity. }
           rewrite Hpushed, <- app_assoc. reflexivity.
        -- rewrite (IH done current h Hhead). f_equal.
           unfold pendingCommit. unfold hasPath in Hhas.
           destruct current as [wt|]; [|reflexivity]. rewrite Hhas. reflexivity.
      * apply Hkept; [reflexivity|left; reflexivity].
Qed.

(** The records of a listing, block by block. *)
Lemma parseWorktreeList_commits : forall text,
  map recordedCommit (parseWorktreeList text) = map listedCommit (listedBlocks text).
Proof.
  intro text. unfold parseWorktreeList, listedBlocks.
  assert (Hnone : holdsHead None None) by (intros wt H; discriminate H).
  exact (parse_fold_commits (split newline text) [] None None Hnone).
Qed.

(** C3, as the code has it.  The listing has a block for every line that
    starts with [worktree ]: the lines after it up to the next such line,
    the next empty line or the end.  The output has one record for each
    block that names a path, in the order of the blocks.  When the commit
    lookup of the worktree of a block fails, by [simpleGit] or by [log]
    throwing, its record is in the output at the place of the block, with
    the path of the block; its commit message is unset; and its commit hash
    is what the lines of the block gave it: the first eight characters of
    the value of the last [HEAD] line of the block, and unset only when the
    block has no [HEAD] line. *)
Theorem failed_lookup_keeps_record : forall git repoPath text,
  worktreeListPorcelain git repoPath = Ok text ->
  extractWorktrees git repoPath
  = map (completeWorktree git repoPath) (parseWorktreeList text)
  /\ List.length (extractWorktrees git repoPath) = List.length (listedBlocks text)
  /\ forall i p block,
      nth_error (listedBlocks text) i = Some (p, block) ->
      lookupFails git p ->
      exists wt,
        nth_error (extractWorktrees git repoPath) i = Some wt
        /\ wtPath wt = p
        /\ commitMessage wt = None
        /\ commitHash wt = option_map (substringTo 8) (lastHead block).
Proof.
  intros git repoPath text Hraw.
  assert (Hextract : extractWorktrees git repoPath
                     = map (completeWorktree git repoPath) (parseWorktreeList text)).
  { unfold extractWorktrees. rewrite Hraw. reflexivity. }
  pose proof (parseWorktreeList_commits text) as Hcommits.
  split; [exact Hextract|]. split.
  - rewrite Hextract, length_map.
    rewrite <- (length_map recordedCommit), Hcommits, length_map. reflexivity.
  - intros i p block Hblock Hfail.
    assert (Hnth : nth_error (map recordedCommit (parseWorktreeList text)) i
                   = Some (listedCommit (p, block))).
    { rewrite Hcommits, nth_error_map, Hblock. reflexivity. }
    rewrite nth_error_map in Hnth.
    destruct (nth_error (parseWorktreeList text) i) as [wt0|] eqn:Hwt0; [|discriminate].
    simpl in Hnth. injection Hnth as Hpath Hhash Hmsg.
    rewrite <- Hpath in Hfail.
    destruct (completeWorktree_failed git repoPath wt0 Hfail) as (Hp & Hh & Hm).
    exists (completeWorktree git repoPath wt0).
    split; [rewrite Hextract, nth_error_map, Hwt0; reflexivity|].
    split; [rewrite Hp; exact Hpath|].
    split; [rewrite Hm; exact Hmsg|].
    rewrite Hh. exact Hhash.
Qed.

Lemma failed_lookup_keeps_record_witness :
  exists wt,
    nth_error (extractWorktrees failingLogGit "/r") 1 = Some wt
    /\ wtPath wt = "/r-wt"
    /\ commitMessage wt = None
    /\ commitHash wt = Some "def456".
Proof.
  destruct (failed_lookup_keeps_record failingLogGit "/r" porcelainExample eq_refl)
    as (_ & _ & Hblock).
  apply (Hblock 1 "/r-wt" ["HEAD def456"; "detached"]).
  - reflexivity.
  - right. reflexivity.
Defined.

(** C3, as the specification has it, fails: the lookup throws in both
    worktrees of the example, and both records keep the hash that their
    [HEAD] line gave them. *)
Lemma failed_lookup_keeps_head_hash :
  log failingLogGit "/r" = Throws
  /\ log failingLogGit "/r-wt" = Throws
  /\ map wtPath (extractWorktrees failingLogGit "/r") = ["/r"; "/r-wt"]
  /\ map commitHash (extractWorktrees failingLogGit "/r")
     = [Some "abc123"; Some "def456"]
  /\ map commitMessage (extractWorktrees failingLogGit "/r") = [None; None].
Proof. repeat split; vm_compute; reflexivity. Qed.

(** C7.  Every record that a scan returns is the record of a directory of
    the tree at depth at most 10 that is a repository root, with the path
    that [path.join] gives the directory on the way from the base; a
    repository that lies deeper than 10 levels, alone in its tree, is not
    returned; one that lies at depth at most 10, such as 9, is returned
    when no ignore pattern matches and its extraction succeeds. *)
Theorem scan_depth_ceiling : forall git shouldIgnorePath,
  (forall base basePath r,
      In r (scanPath git shouldIgnorePath base basePath) ->
      exists dir depth,
        Below git base basePath dir (path r) depth /\ depth <= 10 /\ isRepositoryRoot dir)
  /\ (forall depth basePath,
        10 < depth ->
        scanPath git shouldIgnorePath (chain depth repositoryEntries) basePath = [])
  /\ (forall depth basePath,
        depth <= 10 ->
        (forall p, shouldIgnorePath p = false) ->
        simpleGit git (chainPath git basePath depth) = true ->
        map path (scanPath git shouldIgnorePath (chain depth repositoryEntries) basePath)
        = [chainPath git basePath depth]).
Proof.
  intros git shouldIgnorePath. split; [|split].
  - intros base basePath r Hin. unfold scanPath in Hin.
    assert (Hall : Forall (fun r => exists dir depth,
                               Below git base basePath dir (path r) depth
                               /\ depth <= 10 /\ isRepositoryRoot dir)
                     (repositories (scan git shouldIgnorePath base basePath 0
                                         (mkScanState [] [])))).
    { apply (scan_invariant git shouldIgnorePath base basePath
               (fun st => Forall (fun r => exists dir depth,
                                      Below git base basePath dir (path r) depth
                                      /\ depth <= 10 /\ isRepositoryRoot dir)
                            (repositories st))).
      - intros dir dirPath depth gitEntry st Hbelow Hdepth Hfind Hread Hst.
        apply Forall_forall. intros r' Hr'.
        destruct (visitRepository_repositories _ _ _ _ _ Hr') as [Hold|[Hfile Hnew]].
        + rewrite Forall_forall in Hst. apply Hst. exact Hold.
        + apply extractRepositoryInfo_fields in Hnew. destruct Hnew as [Hpath _].
          exists dir, depth. rewrite Hpath.
          split; [exact Hbelow|]. split; [exact Hdepth|].
          unfold isRepositoryRoot.
          destruct (readdir dir) as [entries|]; [|contradiction].
          exists entries, gitEntry.
          split; [reflexivity|]. split; [apply Hfind; reflexivity|exact Hfile].
      - constructor.
      - constructor. }
    rewrite Forall_forall in Hall. apply Hall. exact Hin.
  - intros depth basePath Hdeep. unfold scanPath.
    rewrite scan_chain_too_deep; [reflexivity|]. unfold MAX_DEPTH. lia.
  - intros depth basePath Hwithin Hignore Hgit. unfold scanPath.
    rewrite scan_chain_within; [|unfold MAX_DEPTH; lia|exact Hignore].
    unfold visitRepository, extractRepositoryInfo. simpl. rewrite Hgit. reflexivity.
Qed.

Lemma scan_depth_ceiling_witness :
  scanPath quietGit ignoreNothing (chain 11 repositoryEntries) "/base" = []
  /\ map path (scanPath quietGit ignoreNothing (chain 9 repositoryEntries) "/base")
     = ["/base/d/d/d/d/d/d/d/d/d"].
Proof.
  destruct (scan_depth_ceiling quietGit ignoreNothing) as (_ & Hdeep & Hwithin).
  split.
  - apply Hdeep. lia.
  - apply (Hwithin 9 "/base").
    + lia.
    + intro p. reflexivity.
    + reflexivity.
Defined.

End ScannerFacts.

(** * Properties of the tree *)

Module SortFacts.
Import JS.

Section Sorting.
Context {A : Type} (cmp : A -> A -> Z).

Lemma insertSorted_perm : forall x sorted,
  Permutation (insertSorted cmp x sorted) (x :: sorted).
Proof.
  intros x sorted. induction sorted as [|y rest IH]; simpl.
  - apply Permutation_refl.
  - destruct (cmp y x <=? 0)%Z.
    + apply perm_trans with (y :: x :: rest).
      * apply perm_skip. exact IH.
      * apply perm_swap.
    + apply Permutation_refl.
Qed.

Lemma fold_insert_perm : forall xs acc,
  Permutation (fold_left (fun sorted x => insertSorted cmp x sorted) xs acc) (acc ++ xs).
Proof.
  induction xs as [|x xs IH]; intro acc; simpl.
  - rewrite app_nil_r. apply Permutation_refl.
  - eapply perm_trans; [apply IH|].
    eapply perm_trans; [apply Permutation_app_tail; apply insertSorted_perm|].
    simpl. apply Permutation_middle.
Qed.

Lemma sort_perm : forall xs, Permutation (sort cmp xs) xs.
Proof. intro xs. unfold sort. apply (fold_insert_perm xs []). Qed.

Lemma sort_In : forall xs x, In x (sort cmp xs) <-> In x xs.
Proof.
  intros xs x. split; apply Permutation_in;
    [apply sort_perm|apply Permutation_sym; apply sort_perm].
Qed.

Hypothesis consistent : Consistent cmp.

Lemma insertSorted_sorted : forall x sorted,
  StronglySorted (inOrder cmp) sorted ->
  StronglySorted (inOrder cmp) (insertSorted cmp x sorted).
Proof.
  destruct consistent as [Htotal Htrans].
  intros x sorted Hsorted. induction Hsorted as [|y rest Hrest IH Hy]; simpl.
  - constructor; constructor.
  - destruct (cmp y x <=? 0)%Z eqn:Hyx.
    + apply Z.leb_le in Hyx. constructor; [exact IH|].
      apply Forall_forall. intros z Hz.
      apply (Permutation_in _ (insertSorted_perm x rest)) in Hz.
      destruct Hz as [<-|Hz]; [exact Hyx|].
      rewrite Forall_forall in Hy. apply Hy. exact Hz.
    + apply Z.leb_gt in Hyx.
      assert (Hxy : inOrder cmp x y) by (apply Htotal; exact Hyx).
      constructor; [constructor; assumption|].
      constructor; [exact Hxy|].
      apply Forall_forall. intros z Hz. rewrite Forall_forall in Hy.
      apply (Htrans x y z); [exact Hxy|apply Hy; exact Hz].
Qed.

Lemma sort_sorted : forall xs, StronglySorted (inOrder cmp) (sort cmp xs).
Proof.
  intro xs. unfold sort.
  assert (H : forall acc, StronglySorted (inOrder cmp) acc ->
              StronglySorted (inOrder cmp)
                (fold_left (fun sorted x => insertSorted cmp x sorted) xs acc)).
  { induction xs as [|x xs IH]; intros acc Hacc; simpl; [exact Hacc|].
    apply IH. apply insertSorted_sorted. exact Hacc. }
  apply H. constructor.
Qed.
End Sorting.

(** The comparator of the examples is consistent and ties no two different
    strings. *)
Lemma codeUnitCompare_le : forall a b,
  (Examples.codeUnitCompare a b <= 0)%Z <-> String.compare a b <> Gt.
Proof.
  intros a b. unfold Examples.codeUnitCompare.
  destruct (String.compare a b); split; intro H; try lia; try discriminate;
    try (exfalso; apply H; reflexivity).
Qed.

Lemma codeUnitCompare_consistent : Consistent Examples.codeUnitCompare.
Proof.
  split.
  - intros a b H. apply codeUnitCompare_le.
    unfold Examples.codeUnitCompare in H.
    rewrite String.compare_antisym.
    destruct (String.compare a b); simpl; try lia; discriminate.
  - intros a b c Hab Hbc.
    apply codeUnitCompare_le in Hab. apply codeUnitCompare_le in Hbc.
    apply codeUnitCompare_le.
    destruct (String.compare a b) eqn:Eab; [| |contradiction].
    + apply String.compare_eq_iff in Eab. subst b. exact Hbc.
    + destruct (String.compare b c) eqn:Ebc; [| |contradiction].
      * apply String.compare_eq_iff in Ebc. subst c. rewrite Eab. discriminate.
      * apply String_as_OT.cmp_lt in Eab. apply String_as_OT.cmp_lt in Ebc.
        pose proof (String_as_OT.lt_trans _ _ _ Eab Ebc) as Hac.
        apply String_as_OT.cmp_lt in Hac.
        unfold String_as_OT.cmp in Hac. rewrite Hac. discriminate.
Qed.

Lemma codeUnitCompare_separating : Separating Examples.codeUnitCompare.
Proof.
  intros a b Hab Hba.
  apply codeUnitCompare_le in Hab. apply codeUnitCompare_le in Hba.
  rewrite String.compare_antisym in Hba.
  destruct (String.compare a b) eqn:Eab.
  - apply String.compare_eq_iff. exact Eab.
  - exfalso. apply Hba. reflexivity.
  - contradiction.
Qed.

End SortFacts.

Module NodeFacts.
Import JS Scanner TreeNodes Provider Examples Notions SortFacts.

Lemma some_exists : forall {A : Type} (p : A -> bool) xs,
  some p xs = true <-> exists x, In x xs /\ p x = true.
Proof. intros A p xs. unfold some. apply existsb_exists. Qed.

Lemma nonEmpty_true : forall s, nonEmpty s = true <-> s <> "".
Proof.
  intros [|c s]; simpl; split; intro H; try discriminate; try reflexivity.
  exfalso. apply H. reflexivity.
Qed.

Lemma repositoryIsCurrent_new : forall repo cwp,
  repositoryIsCurrent (newRepositoryNode repo cwp)
  = repositoryIsCurrentlyOpen repo cwp.
Proof.
  intros repo cwp. unfold repositoryIsCurrent, newRepositoryNode. simpl.
  destruct (repositoryIsCurrentlyOpen repo cwp); reflexivity.
Qed.

Lemma worktreeIsCurrent_new : forall wt cwp,
  worktreeIsCurrent (newWorktreeNode wt cwp) = worktreeIsCurrentlyOpen wt cwp.
Proof.
  intros wt cwp. unfold worktreeIsCurrent, newWorktreeNode. simpl.
  destruct (worktreeIsCurrentlyOpen wt cwp); reflexivity.
Qed.

(** C6, as the code has it.  A worktree node is marked current exactly
    when its path is the active path.  A repository node is marked current
    exactly when the active path is a non-empty string that is its root
    path or the path of one of its worktrees.  With the active path
    [/r-wt], the worktree node of [/r-wt] is current, that of [/r] is not,
    and the repository node of [/r] is current too. *)
Theorem current_marks : forall currentWorkspacePath,
  (forall wt,
      worktreeIsCurrent (newWorktreeNode wt currentWorkspacePath) = true
      <-> currentWorkspacePath = Some (wtPath wt))
  /\ (forall repo,
        repositoryIsCurrent (newRepositoryNode repo currentWorkspacePath) = true
        <-> exists p, currentWorkspacePath = Some p /\ p <> ""
                      /\ (p = path repo
                          \/ exists wt, In wt (worktrees repo) /\ wtPath wt = p))
  /\ worktreeIsCurrent (newWorktreeNode secondWorktree (Some "/r-wt")) = true
  /\ worktreeIsCurrent (newWorktreeNode mainWorktree (Some "/r-wt")) = false
  /\ repositoryIsCurrent (newRepositoryNode repositoryR (Some "/r-wt")) = true.
Proof.
  intro cwp. split; [|split; [|split; [|split]]]; try reflexivity.
  - intro wt. rewrite worktreeIsCurrent_new. unfold worktreeIsCurrentlyOpen, strictEq.
    destruct cwp as [p|]; [|split; discriminate].
    rewrite String.eqb_eq. split; intro H; [subst p; reflexivity|].
    injection H as ->. reflexivity.
  - intro repo. rewrite repositoryIsCurrent_new. unfold repositoryIsCurrentlyOpen.
    destruct cwp as [p|].
    + rewrite andb_true_iff, orb_true_iff, nonEmpty_true, String.eqb_eq, some_exists.
      split.
      * intros [Hne [Hpath|[wt [Hin Hwt]]]]; exists p; (split; [reflexivity|split; [exact Hne|]]).
        -- left. exact Hpath.
        -- right. exists wt. split; [exact Hin|]. apply String.eqb_eq. exact Hwt.
      * intros [q [Hq [Hne [Hpath|[wt [Hin Hwt]]]]]]; injection Hq as <-;
          (split; [exact Hne|]).
        -- left. exact Hpath.
        -- right. exists wt. split; [exact Hin|]. apply String.eqb_eq. exact Hwt.
    + split; [discriminate|]. intros [q [Hq _]]. discriminate.
Qed.

Lemma current_marks_witness :
  repositoryIsCurrent (newRepositoryNode repositoryR (Some "/r-wt")) = true.
Proof.
  apply (proj1 (proj2 (current_marks (Some "/r-wt"))) repositoryR).
  exists "/r-wt". split; [reflexivity|]. split; [discriminate|].
  right. exists secondWorktree. split; [right; left; reflexivity|reflexivity].
Defined.

(** C6, as the specification has it, fails: with the active path [/r-wt]
    the repository node of [/r] is marked current although its root path
    is not the active path. *)
Lemma repository_current_through_worktree :
  path repositoryR <> "/r-wt"
  /\ repositoryIsCurrent (newRepositoryNode repositoryR (Some "/r-wt")) = true
  /\ collapsibleState (repositoryItem (newRepositoryNode repositoryR (Some "/r-wt")))
     = Expanded.
Proof. split; [discriminate|split; reflexivity]. Qed.

(** C10.  The children of a repository node are non-empty only when the
    repository has more than one worktree; then they are the nodes of
    exactly the worktrees that are not main, in the order in which
    [localeCompare] sorts their names; no child is a main worktree. *)
Theorem worktree_children :
  forall localeCompare repositories currentWorkspacePath (node : RepositoryNode),
    Consistent localeCompare ->
    let shown := Provider.getChildren localeCompare repositories currentWorkspacePath
                   (Some (Repository node)) in
    (shown <> [] -> 1 < List.length (worktrees (repository node)))
    /\ (1 < List.length (worktrees (repository node)) ->
        exists sorted,
          shown = map (fun wt => Worktree (newWorktreeNode wt currentWorkspacePath)) sorted
          /\ Permutation sorted
               (filter (fun wt => negb (isMain wt)) (worktrees (repository node)))
          /\ StronglySorted (fun a b => (localeCompare (wtName a) (wtName b) <= 0)%Z)
               sorted)
    /\ (forall child, In child shown ->
          exists w, child = Worktree w /\ isMain (worktree w) = false).
Proof.
  intros localeCompare repositories cwp node Hcmp. simpl. unfold worktreeNodes.
  set (byName := fun a b : WorktreeInfo => localeCompare (wtName a) (wtName b)).
  assert (Hby : Consistent byName).
  { destruct Hcmp as [Htotal Htrans]. split.
    - intros a b. apply Htotal.
    - intros a b c. apply Htrans. }
  destruct (1 <? List.length (worktrees (repository node))) eqn:Hmany.
  - apply Nat.ltb_lt in Hmany. split; [intros _; exact Hmany|]. split.
    + intros _.
      exists (sort byName (filter (fun wt => negb (isMain wt)) (worktrees (repository node)))).
      split; [reflexivity|]. split; [apply sort_perm|].
      apply (sort_sorted byName Hby).
    + intros child Hin. apply in_map_iff in Hin. destruct Hin as [wt [<- Hwt]].
      exists (newWorktreeNode wt cwp). split; [reflexivity|].
      apply sort_In in Hwt. apply filter_In in Hwt. destruct Hwt as [_ Hmain].
      simpl. apply negb_true_iff. exact Hmain.
  - apply Nat.ltb_ge in Hmany. split; [intro H; exfalso; apply H; reflexivity|].
    split; [intro H; lia|]. intros child [].
Qed.

Lemma worktree_children_witness :
  exists sorted,
    Provider.getChildren codeUnitCompare [repositoryR] None
      (Some (Repository (newRepositoryNode repositoryR None)))
    = map (fun wt => Worktree (newWorktreeNode wt None)) sorted
    /\ Permutation sorted [secondWorktree]
    /\ StronglySorted (fun a b => (codeUnitCompare (wtName a) (wtName b) <= 0)%Z) sorted.
Proof.
  apply (proj1 (proj2 (worktree_children codeUnitCompare [repositoryR] None
                         (newRepositoryNode repositoryR None)
                         codeUnitCompare_consistent))).
  simpl. lia.
Defined.

Lemma gitlab_owner_tree : forall cwp repo,
  firstFetchUrl repo = Some gitlabUrl ->
  fold_left (addToOwnerTree "gitlab.com" cwp) [repo]
            (newOwnerNode "" "" [] (Some "gitlab.com") cwp)
  = mkOwnerNode "" "" [] (Some "gitlab.com") (collapsedOwnerItem "" "")
      [("org",
        inl (mkOwnerNode "org" "org" [] (Some "gitlab.com")
               (collapsedOwnerItem "org" "org")
               [("team",
                 inl (mkOwnerNode "team" "org/team" [repo] (Some "gitlab.com")
                        (collapsedOwnerItem "team" "org/team") []))]))].
Proof.
  intros cwp repo Hurl. simpl fold_left. unfold addToOwnerTree. rewrite Hurl.
  replace (segmentsOf (extractOwner gitlabUrl)) with ["org"; "team"]
    by (vm_compute; reflexivity).
  assert (Hnew : forall o f,
             newOwnerNode o f [] (Some "gitlab.com") cwp
             = mkOwnerNode o f [] (Some "gitlab.com") (collapsedOwnerItem o f) []).
  { intros o f. unfold newOwnerNode.
    replace (containsCurrentWorkspace [] cwp) with false; [reflexivity|].
    destruct cwp as [p|]; simpl; [destruct (nonEmpty p)|]; reflexivity. }
  cbn [attach]. rewrite !Hnew. reflexivity.
Qed.

(** C8.  For a repository whose first remote has the fetch URL
    [https://gitlab.com/org/team/proj.git], the domain is [gitlab.com], the
    owner path is [org/team] and the last segment of the path, the
    repository, is [proj]; the tree has one domain node, [gitlab.com]; below
    it one owner node [org]; below that one owner node with the full path
    [org/team], which holds the repository; and below that the repository
    leaf. *)
Theorem gitlab_nested_owner :
  forall localeCompare repositories currentWorkspacePath repo,
    firstFetchUrl repo = Some gitlabUrl ->
    extractDomain gitlabUrl = "gitlab.com"
    /\ extractOwner gitlabUrl = "org/team"
    /\ last (segmentsOf (pathPartOf gitlabUrl)) "" = "proj"
    /\ getRemoteViewRootNodes [repo] currentWorkspacePath
       = [Domain (newDomainNode "gitlab.com" [repo] currentWorkspacePath)]
    /\ exists org team,
        Provider.getChildren localeCompare repositories currentWorkspacePath
          (Some (Domain (newDomainNode "gitlab.com" [repo] currentWorkspacePath)))
        = [Owner org]
        /\ owner org = "org" /\ fullPath org = "org"
        /\ Provider.getChildren localeCompare repositories currentWorkspacePath
             (Some (Owner org))
           = [Owner team]
        /\ owner team = "team" /\ fullPath team = "org/team"
        /\ ownerRepositories team = [repo]
        /\ Provider.getChildren localeCompare repositories currentWorkspacePath
             (Some (Owner team))
           = [Repository (newRepositoryNode repo currentWorkspacePath)].
Proof.
  intros lc repos cwp repo Hurl.
  split; [vm_compute; reflexivity|]. split; [vm_compute; reflexivity|].
  split; [vm_compute; reflexivity|]. split.
  { unfold getRemoteViewRootNodes, buildDomainMap, reposWithRemote, reposWithoutRemote.
    simpl filter. rewrite Hurl. simpl fold_left. unfold addToDomainMap. rewrite Hurl.
    replace (extractDomain gitlabUrl) with "gitlab.com" by (vm_compute; reflexivity).
    reflexivity. }
  change (Provider.getChildren lc repos cwp
            (Some (Domain (newDomainNode "gitlab.com" [repo] cwp))))
    with (getOwnerNodes lc cwp "gitlab.com" [repo]).
  unfold getOwnerNodes, ownerTree. rewrite (gitlab_owner_tree cwp repo Hurl).
  unfold updateExpansionState.
  destruct cwp as [p|].
  2: { eexists. eexists. split; [reflexivity|].
       repeat (split; [reflexivity|]). reflexivity. }
  destruct (nonEmpty p) eqn:Hp.
  2: { eexists. eexists. split; [reflexivity|].
       repeat (split; [reflexivity|]). reflexivity. }
  cbn. rewrite Hp. destruct (isOpenIn p repo) eqn:Hopen.
  all: unfold isOpenIn in Hopen; rewrite ?Hopen; cbn.
  all: eexists; eexists; split; [reflexivity|];
    repeat (split; [reflexivity|]); reflexivity.
Qed.

Lemma gitlab_nested_owner_witness :
  extractDomain gitlabUrl = "gitlab.com"
  /\ extractOwner gitlabUrl = "org/team"
  /\ getRemoteViewRootNodes [gitlabRepository] None
     = [Domain (newDomainNode "gitlab.com" [gitlabRepository] None)].
Proof.
  destruct (gitlab_nested_owner codeUnitCompare [gitlabRepository] None gitlabRepository
              eq_refl) as (Hdomain & Howner & _ & Hroot & _).
  split; [exact Hdomain|]. split; [exact Howner|exact Hroot].
Defined.

End NodeFacts.

Module TreeFacts.
Import MoreNotions.
Import JS Scanner TreeNodes Provider Examples Notions SortFacts.

(** ** Induction on owner nodes *)

Lemma OwnerNode_induction (P : OwnerNode -> Prop) :
  (forall o f r d i cs,
      (forall k c, In (k, inl c) cs -> P c) -> P (mkOwnerNode o f r d i cs)) ->
  forall n, P n.
Proof.
  intro Hnode. fix IH 1. intros [o f r d i cs]. apply Hnode.
  induction cs as [|[k [c|x]] rest IHcs]; intros k' c' Hin.
  - destruct Hin.
  - destruct Hin as [Heq|Hin].
    + injection Heq as _ <-. apply IH.
    + apply (IHcs _ _ Hin).
  - destruct Hin as [Heq|Hin]; [discriminate|apply (IHcs _ _ Hin)].
Qed.

(** ** The map of children *)

Section Maps.
Context {V : Type}.

Lemma mapGet_In : forall (m : list (string * V)) k v,
  mapGet k m = Some v -> In (k, v) m.
Proof.
  induction m as [|[k0 v0] rest IH]; intros k v H; simpl in H; [discriminate|].
  destruct (String.eqb k0 k) eqn:Hk.
  - apply String.eqb_eq in Hk. injection H as <-. subst k0. left. reflexivity.
  - right. apply IH. exact H.
Qed.

Lemma mapGet_None : forall (m : list (string * V)) k,
  mapGet k m = None <-> ~ In k (map fst m).
Proof.
  induction m as [|[k0 v0] rest IH]; intro k; simpl.
  - split; [intros _ []|reflexivity].
  - destruct (String.eqb k0 k) eqn:Hk.
    + apply String.eqb_eq in Hk. split; [discriminate|].
      intro H. exfalso. apply H. left. exact Hk.
    + apply String.eqb_neq in Hk. rewrite IH. split.
      * intros H [Heq|Hin]; [exact (Hk Heq)|exact (H Hin)].
      * intros H Hin. apply H. right. exact Hin.
Qed.

Lemma In_mapGet : forall (m : list (string * V)) k v,
  NoDup (map fst m) -> In (k, v) m -> mapGet k m = Some v.
Proof.
  induction m as [|[k0 v0] rest IH]; intros k v Hnodup Hin; [destruct Hin|].
  simpl in Hnodup. inversion Hnodup as [|? ? Hfresh Hrest]; subst.
  simpl. destruct Hin as [Heq|Hin].
  - injection Heq as -> ->. rewrite String.eqb_refl. reflexivity.
  - destruct (String.eqb k0 k) eqn:Hk.
    + apply String.eqb_eq in Hk. subst k0. exfalso. apply Hfresh.
      apply (in_map fst) in Hin. exact Hin.
    + apply IH; assumption.
Qed.

Lemma mapGet_mapSet_same : forall (m : list (string * V)) k v,
  mapGet k (mapSet k v m) = Some v.
Proof.
  induction m as [|[k0 v0] rest IH]; intros k v; simpl.
  - rewrite String.eqb_refl. reflexivity.
  - destruct (String.eqb k0 k) eqn:Hk; simpl; rewrite Hk; [reflexivity|apply IH].
Qed.

Lemma mapGet_mapSet_other : forall (m : list (string * V)) k v k',
  k' <> k -> mapGet k' (mapSet k v m) = mapGet k' m.
Proof.
  induction m as [|[k0 v0] rest IH]; intros k v k' Hne; simpl.
  - replace (String.eqb k k') with false; [reflexivity|].
    symmetry. apply String.eqb_neq. intro H. apply Hne. symmetry. exact H.
  - destruct (String.eqb k0 k) eqn:Hk; simpl.
    + apply String.eqb_eq in Hk. subst k0.
      replace (String.eqb k k') with false; [reflexivity|].
      symmetry. apply String.eqb_neq. intro H. apply Hne. symmetry. exact H.
    + destruct (String.eqb k0 k'); [reflexivity|apply IH; exact Hne].
Qed.

Lemma mapSet_keys_present : forall (m : list (string * V)) k v,
  In k (map fst m) -> map fst (mapSet k v m) = map fst m.
Proof.
  induction m as [|[k0 v0] rest IH]; intros k v Hin; [destruct Hin|].
  simpl. destruct (String.eqb k0 k) eqn:Hk; simpl; [reflexivity|].
  f_equal. apply IH. destruct Hin as [Heq|Hin]; [|exact Hin].
  simpl in Heq. apply String.eqb_neq in Hk. contradiction.
Qed.

Lemma mapSet_keys_absent : forall (m : list (string * V)) k v,
  ~ In k (map fst m) -> map fst (mapSet k v m) = map fst m ++ [k].
Proof.
  induction m as [|[k0 v0] rest IH]; intros k v Hout; [reflexivity|].
  simpl. destruct (String.eqb k0 k) eqn:Hk; simpl.
  - apply String.eqb_eq in Hk. exfalso. apply Hout. left. exact Hk.
  - f_equal. apply IH. intro Hin. apply Hout. right. exact Hin.
Qed.

Lemma mapSet_keys_In : forall (m : list (string * V)) k v k',
  In k' (map fst (mapSet k v m)) <-> k' = k \/ In k' (map fst m).
Proof.
  intros m k v k'.
  destruct (in_dec string_dec k (map fst m)) as [Hin|Hout].
  - rewrite (mapSet_keys_present m k v Hin). split; [auto|].
    intros [->|H]; assumption.
  - rewrite (mapSet_keys_absent m k v Hout). rewrite in_app_iff. simpl.
    split; [intros [H|[H|[]]]; auto|intros [H|H]; auto].
Qed.

Lemma mapSet_NoDup : forall (m : list (string * V)) k v,
  NoDup (map fst m) -> NoDup (map fst (mapSet k v m)).
Proof.
  intros m k v Hnodup.
  destruct (in_dec string_dec k (map fst m)) as [Hin|Hout].
  - rewrite (mapSet_keys_present m k v Hin). exact Hnodup.
  - rewrite (mapSet_keys_absent m k v Hout).
    apply NoDup_app; [exact Hnodup|constructor; [intros []|constructor]|].
    intros a Ha [<-|[]]. exact (Hout Ha).
Qed.

Lemma In_keys : forall (m : list (string * V)) k,
  In k (map fst m) <-> exists v, In (k, v) m.
Proof.
  intros m k. rewrite in_map_iff. split.
  - intros [[k0 v] [Hk Hin]]. simpl in Hk. subst k0. exists v. exact Hin.
  - intros [v Hin]. exists (k, v). split; [reflexivity|exact Hin].
Qed.
End Maps.

(** ** The tree that [getOwnerNodes] grows *)

Lemma newOwnerNode_plain : forall o f D cwp,
  newOwnerNode o f [] (Some D) cwp
  = mkOwnerNode o f [] (Some D) (ownerItemOf D o f) [].
Proof.
  intros o f D cwp. unfold ownerItemOf, newOwnerNode.
  replace (containsCurrentWorkspace [] cwp) with false; [reflexivity|].
  destruct cwp as [p|]; simpl; [destruct (nonEmpty p)|]; reflexivity.
Qed.

Lemma pathName_snoc : forall p k, pathName (p ++ [k]) = extendPath (pathName p) k.
Proof. intros p k. unfold pathName. rewrite fold_left_app. reflexivity. Qed.

Lemma sameSegments_true : forall p x,
  sameSegments p x = true <-> ownerSegments x = p /\ p <> [].
Proof.
  intros p x. unfold sameSegments. destruct p as [|k p].
  - split; [discriminate|]. intros [_ H]. exfalso. apply H. reflexivity.
  - destruct (list_eq_dec string_dec (ownerSegments x) (k :: p)) as [Heq|Hne].
    + split; [|reflexivity]. intros _. split; [exact Heq|discriminate].
    + split; [discriminate|]. intros [H _]. contradiction.
Qed.

Lemma sameSegments_false : forall p x,
  ownerSegments x <> p -> sameSegments p x = false.
Proof.
  intros p x Hne. destruct (sameSegments p x) eqn:H; [|reflexivity].
  apply sameSegments_true in H. destruct H as [H _]. contradiction.
Qed.

Lemma bucketOf_snoc : forall L x p,
  bucketOf (L ++ [x]) p = bucketOf L p ++ (if sameSegments p x then [x] else []).
Proof. intros L x p. unfold bucketOf. rewrite filter_app. reflexivity. Qed.

Lemma In_bucketOf : forall L p x,
  In x (bucketOf L p) <-> In x L /\ ownerSegments x = p /\ p <> [].
Proof.
  intros L p x. unfold bucketOf. rewrite filter_In, sameSegments_true. reflexivity.
Qed.

Lemma app_cons_neq : forall (q : list string) k t, q <> q ++ k :: t.
Proof.
  intros q k t H. apply (f_equal (@List.length string)) in H.
  rewrite length_app in H. simpl in H. lia.
Qed.

Lemma grown_inv : forall D L q n,
  Grown D L q n ->
  exists cs,
    n = mkOwnerNode (last q "") (pathName q) (bucketOf L q) (Some D)
                    (ownerItemOf D (last q "") (pathName q)) cs
    /\ NoDup (map fst cs)
    /\ (forall k v, In (k, v) cs -> exists c, v = inl c /\ Grown D L (q ++ [k]) c)
    /\ (forall x k t, In x L -> ownerSegments x = q ++ k :: t -> In k (map fst cs))
    /\ (forall k, In k (map fst cs) -> exists x t, In x L /\ ownerSegments x = q ++ k :: t).
Proof.
  intros D L q n H. destruct H as [p cs H1 H2 H3 H4].
  exists cs. split; [reflexivity|]. split; [exact H1|]. split; [exact H2|].
  split; [exact H3|exact H4].
Qed.

(** A repository that is filed neither at a node nor below it leaves the
    node as it is. *)
Lemma grown_weaken : forall D x n L q,
  Grown D L q n ->
  sameSegments q x = false ->
  (forall k t, ownerSegments x <> q ++ k :: t) ->
  Grown D (L ++ [x]) q n.
Proof.
  intros D x n. induction n as [o f r d i cs IH] using OwnerNode_induction.
  intros L q Hgrown Hsame Hbelow.
  destruct (grown_inv _ _ _ _ Hgrown) as (cs0 & Heq & Hnodup & Hchildren & Hcover & Hused).
  injection Heq as -> -> -> -> -> <-.
  replace (bucketOf L q) with (bucketOf (L ++ [x]) q)
    by (rewrite bucketOf_snoc, Hsame; apply app_nil_r).
  apply GrownNode.
  - exact Hnodup.
  - intros k v Hin. destruct (Hchildren k v Hin) as [c [-> Hc]].
    exists c. split; [reflexivity|].
    apply (IH k c Hin).
    + exact Hc.
    + apply sameSegments_false. intro H. apply (Hbelow k []). exact H.
    + intros k' t' H. apply (Hbelow k (k' :: t')). rewrite H, <- app_assoc. reflexivity.
  - intros x' k t Hin Hseg. apply in_app_or in Hin. destruct Hin as [Hin|[<-|[]]].
    + apply (Hcover x' k t Hin Hseg).
    + exfalso. exact (Hbelow k t Hseg).
  - intros k Hk. destruct (Hused k Hk) as [x' [t [Hin Hseg]]].
    exists x', t. split; [apply in_or_app; left; exact Hin|exact Hseg].
Qed.

(** Filing a repository along the rest of its segments keeps the tree
    grown, now from one more repository. *)
Lemma attach_grown : forall D cwp x s L q n,
  Grown D L q n ->
  ownerSegments x = q ++ s ->
  q ++ s <> [] ->
  Grown D (L ++ [x]) q (attach D cwp s (pathName q) x n).
Proof.
  intros D cwp x s. induction s as [|k s IH]; intros L q n Hgrown Hseg Hne.
  - rewrite app_nil_r in Hseg, Hne. simpl.
    destruct (grown_inv _ _ _ _ Hgrown) as (cs & -> & Hnodup & Hchildren & Hcover & Hused).
    simpl.
    replace (bucketOf L q ++ [x]) with (bucketOf (L ++ [x]) q).
    2: { rewrite bucketOf_snoc.
         replace (sameSegments q x) with true; [reflexivity|].
         symmetry. apply sameSegments_true. split; assumption. }
    apply GrownNode.
    + exact Hnodup.
    + intros k v Hin. destruct (Hchildren k v Hin) as [c [-> Hc]].
      exists c. split; [reflexivity|]. apply grown_weaken; [exact Hc| |].
      * apply sameSegments_false. rewrite Hseg. apply app_cons_neq.
      * intros k' t'. rewrite Hseg, <- app_assoc. apply app_cons_neq.
    + intros x' k t Hin Hx'. apply in_app_or in Hin. destruct Hin as [Hin|[<-|[]]].
      * apply (Hcover x' k t Hin Hx').
      * exfalso. rewrite Hseg in Hx'. exact (app_cons_neq _ _ _ Hx').
    + intros k Hk. destruct (Hused k Hk) as [x' [t [Hin Hx']]].
      exists x', t. split; [apply in_or_app; left; exact Hin|exact Hx'].
  - destruct (grown_inv _ _ _ _ Hgrown) as (cs & -> & Hnodup & Hchildren & Hcover & Hused).
    assert (Hseg' : ownerSegments x = (q ++ [k]) ++ s)
      by (rewrite Hseg, <- app_assoc; reflexivity).
    assert (Hne' : (q ++ [k]) ++ s <> [])
      by (intro H; apply app_eq_nil in H; destruct H as [H _];
          apply app_eq_nil in H; destruct H as [_ H]; discriminate).
    cbn [attach children].
    change (if nonEmpty (pathName q) then (pathName q ++ "/" ++ k)%string else k)
      with (extendPath (pathName q) k).
    rewrite <- pathName_snoc.
    set (childNode := match mapGet k cs with
                      | Some (inl child) => child
                      | _ => newOwnerNode k (pathName (q ++ [k])) [] (Some D) cwp
                      end).
    assert (Hchild : Grown D L (q ++ [k]) childNode).
    { unfold childNode. destruct (mapGet k cs) as [[c|r]|] eqn:Hget.
      - apply mapGet_In in Hget. destruct (Hchildren k _ Hget) as [c0 [Heq Hc0]].
        injection Heq as ->. exact Hc0.
      - apply mapGet_In in Hget. destruct (Hchildren k _ Hget) as [c0 [Heq _]].
        discriminate.
      - apply mapGet_None in Hget. rewrite newOwnerNode_plain.
        assert (Hnone : forall x' t, In x' L -> ownerSegments x' <> q ++ k :: t).
        { intros x' t Hin Hx'. apply Hget. exact (Hcover x' k t Hin Hx'). }
        assert (Hempty : bucketOf L (q ++ [k]) = []).
        { destruct (bucketOf L (q ++ [k])) as [|x' rest] eqn:Hb; [reflexivity|].
          assert (Hin : In x' (bucketOf L (q ++ [k]))) by (rewrite Hb; left; reflexivity).
          apply In_bucketOf in Hin. destruct Hin as (Hin & Hx' & _).
          exfalso. apply (Hnone x' [] Hin). exact Hx'. }
        assert (G : Grown D L (q ++ [k])
                      (mkOwnerNode (last (q ++ [k]) "") (pathName (q ++ [k]))
                         (bucketOf L (q ++ [k])) (Some D)
                         (ownerItemOf D (last (q ++ [k]) "") (pathName (q ++ [k]))) [])).
        { apply GrownNode.
          + constructor.
          + intros k' v [].
          + intros x' k' t Hin Hx'. exfalso. apply (Hnone x' (k' :: t) Hin).
            rewrite Hx', <- app_assoc. reflexivity.
          + intros k' []. }
        rewrite last_last, Hempty in G. exact G. }
    pose proof (IH L (q ++ [k]) childNode Hchild Hseg' Hne') as Hnew.
    unfold addChild.
    replace (bucketOf L q) with (bucketOf (L ++ [x]) q).
    2: { rewrite bucketOf_snoc.
         replace (sameSegments q x) with false; [apply app_nil_r|].
         symmetry. apply sameSegments_false. rewrite Hseg. intro H.
         symmetry in H. exact (app_cons_neq _ _ _ H). }
    apply GrownNode.
    + apply mapSet_NoDup. exact Hnodup.
    + intros k' v Hin.
      apply In_mapGet in Hin; [|apply mapSet_NoDup; exact Hnodup].
      destruct (string_dec k' k) as [->|Hk].
      * rewrite mapGet_mapSet_same in Hin. injection Hin as <-.
        eexists. split; [reflexivity|exact Hnew].
      * rewrite (mapGet_mapSet_other cs k _ k' Hk) in Hin. apply mapGet_In in Hin.
        destruct (Hchildren k' v Hin) as [c [-> Hc]].
        exists c. split; [reflexivity|]. apply grown_weaken; [exact Hc| |].
        -- apply sameSegments_false. rewrite Hseg. intro H.
           apply app_inv_head in H. injection H as H _. exact (Hk (eq_sym H)).
        -- intros k2 t2. rewrite Hseg, <- app_assoc. intro H.
           apply app_inv_head in H. injection H as H _. exact (Hk (eq_sym H)).
    + intros x' k' t Hin Hx'. apply mapSet_keys_In.
      apply in_app_or in Hin. destruct Hin as [Hin|[<-|[]]].
      * right. exact (Hcover x' k' t Hin Hx').
      * left. rewrite Hseg in Hx'. apply app_inv_head in Hx'.
        injection Hx' as H _. symmetry. exact H.
    + intros k' Hk'. apply mapSet_keys_In in Hk'. destruct Hk' as [->|Hk'].
      * exists x, s. split; [apply in_or_app; right; left; reflexivity|exact Hseg].
      * destruct (Hused k' Hk') as [x' [t [Hin Hx']]].
        exists x', t. split; [apply in_or_app; left; exact Hin|exact Hx'].
Qed.

Lemma ownerSegments_addToOwnerTree : forall D cwp root x,
  addToOwnerTree D cwp root x
  = match ownerSegments x with
    | [] => root
    | segments => attach D cwp segments "" x root
    end.
Proof.
  intros D cwp root x. unfold addToOwnerTree, ownerSegments.
  destruct (firstFetchUrl x); reflexivity.
Qed.

Lemma grown_step : forall D cwp L n x,
  Grown D L [] n -> Grown D (L ++ [x]) [] (addToOwnerTree D cwp n x).
Proof.
  intros D cwp L n x Hgrown. rewrite ownerSegments_addToOwnerTree.
  destruct (ownerSegments x) as [|k s] eqn:Hseg.
  - apply grown_weaken; [exact Hgrown|reflexivity|].
    intros k t. rewrite Hseg. discriminate.
  - apply (attach_grown D cwp x (k :: s) L [] n Hgrown); [exact Hseg|discriminate].
Qed.

Lemma grown_root : forall D cwp, Grown D [] [] (newOwnerNode "" "" [] (Some D) cwp).
Proof.
  intros D cwp. rewrite newOwnerNode_plain.
  apply (GrownNode D [] [] []).
  - constructor.
  - intros k v [].
  - intros x k t [].
  - intros k [].
Qed.

(** The tree of [getOwnerNodes] before [updateExpansionState]. *)
Lemma grown_fold : forall D cwp L,
  Grown D L [] (fold_left (addToOwnerTree D cwp) L (newOwnerNode "" "" [] (Some D) cwp)).
Proof.
  intros D cwp L.
  assert (H : forall todo done n,
             Grown D done [] n ->
             Grown D (done ++ todo) [] (fold_left (addToOwnerTree D cwp) todo n)).
  { induction todo as [|x todo IH]; intros done n Hn; simpl.
    - rewrite app_nil_r. exact Hn.
    - replace (done ++ x :: todo) with ((done ++ [x]) ++ todo)
        by (rewrite <- app_assoc; reflexivity).
      apply IH. apply grown_step. exact Hn. }
  apply (H L [] _ (grown_root D cwp)).
Qed.

(** ** The map of domains *)

Lemma domainGroup_snoc : forall done x D,
  domainGroup (done ++ [x]) D
  = domainGroup done D ++ (if inDomain D x then [x] else []).
Proof. intros done x D. unfold domainGroup. rewrite filter_app. reflexivity. Qed.

Lemma addToDomainMap_spec : forall done M x,
  NoDup (map fst M) ->
  (forall D, mapGet D M = groupEntry done D) ->
  NoDup (map fst (addToDomainMap M x))
  /\ (forall D, mapGet D (addToDomainMap M x) = groupEntry (done ++ [x]) D).
Proof.
  intros done M x Hnodup Hget. unfold addToDomainMap.
  destruct (firstFetchUrl x) as [url|] eqn:Hurl.
  2: { split; [exact Hnodup|]. intro D. rewrite Hget. unfold groupEntry.
       rewrite domainGroup_snoc. unfold inDomain. rewrite Hurl, app_nil_r. reflexivity. }
  set (Dx := extractDomain url).
  assert (Hin : forall D, inDomain D x = String.eqb Dx D)
    by (intro D; unfold inDomain; rewrite Hurl; reflexivity).
  assert (Hstep : forall M' g0,
             NoDup (map fst M') ->
             mapGet Dx M' = Some g0 ->
             g0 = domainGroup done Dx ->
             (forall D, D <> Dx -> mapGet D M' = groupEntry done D) ->
             NoDup (map fst (mapSet Dx (g0 ++ [x]) M'))
             /\ (forall D, mapGet D (mapSet Dx (g0 ++ [x]) M') = groupEntry (done ++ [x]) D)).
  { intros M' g0 Hnd Hg0 Hgroup Hother. split; [apply mapSet_NoDup; exact Hnd|].
    intro D. unfold groupEntry. rewrite domainGroup_snoc, Hin.
    destruct (string_dec D Dx) as [->|Hne].
    - rewrite mapGet_mapSet_same, String.eqb_refl, <- Hgroup.
      destruct g0; reflexivity.
    - rewrite (mapGet_mapSet_other M' Dx _ D Hne).
      replace (String.eqb Dx D) with false
        by (symmetry; apply String.eqb_neq; intro H; apply Hne; symmetry; exact H).
      rewrite app_nil_r. apply Hother. exact Hne. }
  destruct (mapGet Dx M) as [g|] eqn:HgetDx.
  - rewrite HgetDx. apply Hstep; [exact Hnodup|exact HgetDx| |intros D _; apply Hget].
    pose proof (Hget Dx) as H. rewrite HgetDx in H. unfold groupEntry in H.
    destruct (domainGroup done Dx); [discriminate|]. injection H as ->. reflexivity.
  - rewrite mapGet_mapSet_same. apply Hstep.
    + apply mapSet_NoDup. exact Hnodup.
    + apply mapGet_mapSet_same.
    + pose proof (Hget Dx) as H. rewrite HgetDx in H. unfold groupEntry in H.
      destruct (domainGroup done Dx); [reflexivity|discriminate].
    + intros D Hne. rewrite (mapGet_mapSet_other M Dx _ D Hne). apply Hget.
Qed.

Lemma domainGroup_reposWithRemote : forall repos D,
  domainGroup (reposWithRemote repos) D = domainGroup repos D.
Proof.
  intros repos D. unfold domainGroup, reposWithRemote.
  induction repos as [|x repos IH]; [reflexivity|]. simpl.
  unfold inDomain at 2. destruct (firstFetchUrl x) as [url|] eqn:Hurl; simpl.
  - unfold inDomain at 1. rewrite Hurl. rewrite IH. reflexivity.
  - exact IH.
Qed.

(** The map of domains has one entry for each domain that some repository
    has, and the entry holds the group of the domain. *)
Lemma buildDomainMap_spec : forall repos,
  NoDup (map fst (buildDomainMap repos))
  /\ (forall D, mapGet D (buildDomainMap repos) = groupEntry repos D).
Proof.
  intro repos. unfold buildDomainMap.
  assert (H : forall todo done M,
             NoDup (map fst M) ->
             (forall D, mapGet D M = groupEntry done D) ->
             NoDup (map fst (fold_left addToDomainMap todo M))
             /\ (forall D, mapGet D (fold_left addToDomainMap todo M)
                           = groupEntry (done ++ todo) D)).
  { induction todo as [|x todo IH]; intros done M Hnodup Hget; simpl.
    - rewrite app_nil_r. split; assumption.
    - replace (done ++ x :: todo) with ((done ++ [x]) ++ todo)
        by (rewrite <- app_assoc; reflexivity).
      destruct (addToDomainMap_spec done M x Hnodup Hget) as [Hnodup' Hget'].
      apply IH; assumption. }
  destruct (H (reposWithRemote repos) [] [] (NoDup_nil _) (fun D => eq_refl))
    as [Hnodup Hget].
  split; [exact Hnodup|]. intro D. rewrite Hget. simpl. unfold groupEntry.
  rewrite domainGroup_reposWithRemote. reflexivity.
Qed.

Lemma buildDomainMap_entry : forall repos D g,
  In (D, g) (buildDomainMap repos) -> g = domainGroup repos D.
Proof.
  intros repos D g Hin. destruct (buildDomainMap_spec repos) as [Hnodup Hget].
  apply (In_mapGet _ _ _ Hnodup) in Hin. rewrite Hget in Hin. unfold groupEntry in Hin.
  destruct (domainGroup repos D); [discriminate|]. injection Hin as <-. reflexivity.
Qed.

(** ** The expansion state *)

Lemma expandTowards_children : forall a n,
  children (expandTowards a n) = map (updateChild (Some a)) (children n)
  \/ nonEmpty a = false.
Proof.
  intros a n. destruct (nonEmpty a) eqn:Ha; [left|right; reflexivity].
  destruct n as [o f r d i cs]. simpl.
  induction cs as [|[k [c|x]] rest IH]; [reflexivity| |].
  - rewrite IH. cbn [map]. f_equal.
    unfold updateChild, updateExpansionState. simpl. rewrite Ha. reflexivity.
  - rewrite IH. reflexivity.
Qed.

Lemma updateExpansionState_children : forall cwp n,
  children (updateExpansionState cwp n) = map (updateChild cwp) (children n).
Proof.
  intros cwp n.
  assert (Hid : forall cs : list (string * OwnerChild),
             (forall c, updateExpansionState cwp c = c) ->
             cs = map (updateChild cwp) cs).
  { intros cs H. induction cs as [|[k [c|x]] rest IH]; [reflexivity| |].
    - cbn [map]. rewrite <- IH. f_equal. unfold updateChild. simpl.
      rewrite H. reflexivity.
    - cbn [map]. rewrite <- IH. reflexivity. }
  unfold updateExpansionState at 1. destruct cwp as [a|].
  - destruct (nonEmpty a) eqn:Ha.
    + destruct (expandTowards_children a n) as [H|H]; [exact H|].
      rewrite H in Ha. discriminate.
    + apply Hid. intro c. simpl. rewrite Ha. reflexivity.
  - apply Hid. intro c. reflexivity.
Qed.

Lemma updateExpansionState_fields : forall cwp n,
  owner (updateExpansionState cwp n) = owner n
  /\ fullPath (updateExpansionState cwp n) = fullPath n
  /\ ownerRepositories (updateExpansionState cwp n) = ownerRepositories n
  /\ ownerDomain (updateExpansionState cwp n) = ownerDomain n.
Proof.
  intros cwp n. unfold updateExpansionState.
  destruct cwp as [a|]; [|auto]. destruct (nonEmpty a); [|auto].
  destruct n; simpl; auto.
Qed.

(** The children that an owner node of the view answers: the updated child
    nodes when it has any, else the leaves of its own repositories. *)
Lemma getChildren_updated : forall lc cwp D L q o0 v,
  Grown D L q o0 ->
  In v (TreeNodes.getChildren lc (updateExpansionState cwp o0) cwp) ->
  (exists k c0,
      v = inl (updateExpansionState cwp c0)
      /\ In (k, inl c0) (children o0)
      /\ Grown D L (q ++ [k]) c0)
  \/ (children o0 = []
      /\ exists x, In x (bucketOf L q) /\ v = inr (newRepositoryNode x cwp)).
Proof.
  intros lc cwp D L q o0 v Hgrown Hin.
  unfold TreeNodes.getChildren in Hin.
  rewrite updateExpansionState_children, length_map in Hin.
  destruct (grown_inv _ _ _ _ Hgrown) as (cs & Heq & _ & Hchildren & _ & _).
  destruct (0 <? List.length (children o0)) eqn:Hsome.
  - left. apply sort_In in Hin. unfold mapValues in Hin.
    rewrite map_map in Hin. apply in_map_iff in Hin.
    destruct Hin as [[k v0] [Hv Hentry]]. rewrite Heq in Hentry. simpl in Hentry.
    destruct (Hchildren k v0 Hentry) as [c0 [-> Hc0]].
    exists k, c0. split; [symmetry; exact Hv|]. split; [|exact Hc0].
    rewrite Heq. exact Hentry.
  - right. apply Nat.ltb_ge in Hsome. split.
    + destruct (children o0); [reflexivity|simpl in Hsome; lia].
    + destruct (updateExpansionState_fields cwp o0) as (_ & _ & Hrepos & _).
      rewrite Hrepos in Hin. apply in_map_iff in Hin. destruct Hin as [x [Hv Hx]].
      exists x. split; [|symmetry; exact Hv]. rewrite Heq in Hx. exact Hx.
Qed.

(** Every node of the view is built as [Built] says. *)
Lemma shown_built : forall lc repos cwp n,
  Shown lc repos cwp n -> Built repos cwp n.
Proof.
  intros lc repos cwp n Hshown.
  assert (Howner : forall D q o0 v,
             Grown D (domainGroup repos D) q o0 ->
             In v (TreeNodes.getChildren lc (updateExpansionState cwp o0) cwp) ->
             Built repos cwp (ofOwnerChild v)).
  { intros D q o0 v Hgrown Hin.
    destruct (getChildren_updated _ _ _ _ _ _ _ Hgrown Hin)
      as [(k & c0 & -> & _ & Hc0)|(_ & x & _ & ->)].
    - simpl. exists D, (q ++ [k]), c0. split; [exact Hc0|reflexivity].
    - reflexivity. }
  induction Hshown as [n Hroot|parent n Hparent IH Hchild].
  - simpl in Hroot. unfold getRemoteViewRootNodes in Hroot.
    destruct repos as [|x repos]; [destruct Hroot as [<-|[]]; exact I|].
    apply in_app_or in Hroot. destruct Hroot as [Hdomain|Hlocal].
    + apply in_map_iff in Hdomain. destruct Hdomain as [[D g] [<- Hentry]].
      simpl. rewrite (buildDomainMap_entry _ _ _ Hentry). reflexivity.
    + destruct (0 <? List.length (reposWithoutRemote (x :: repos)));
        [|destruct Hlocal].
      destruct Hlocal as [<-|[]]. reflexivity.
  - destruct parent as [|d|o|l|r|w]; simpl in Hchild.
    + destruct Hchild.
    + simpl in IH. rewrite IH in Hchild. simpl in Hchild.
      unfold getOwnerNodes, ownerTree in Hchild.
      apply in_map_iff in Hchild. destruct Hchild as [v [<- Hv]].
      exact (Howner (domain d) [] _ v (grown_fold _ cwp _) Hv).
    + simpl in IH. destruct IH as (D & q & o0 & Hgrown & ->).
      apply in_map_iff in Hchild. destruct Hchild as [v [<- Hv]].
      apply (Howner D q o0 v Hgrown Hv).
    + apply in_map_iff in Hchild. destruct Hchild as [x [<- _]]. reflexivity.
    + unfold worktreeNodes in Hchild.
      destruct (1 <? List.length (worktrees (repository r))); [|destruct Hchild].
      apply in_map_iff in Hchild. destruct Hchild as [wt [<- _]]. reflexivity.
    + destruct Hchild.
Qed.

(** ** The claims about the tree *)

(** C5, as the code has it.  When the active workspace path is undefined,
    every domain node and every owner node of the view is collapsed, every
    repository node is collapsed when it has more than one worktree and
    cannot be expanded otherwise, and no repository node and no worktree
    node is marked current; the node of the local group is expanded. *)
Theorem nothing_open_nodes_at_rest : forall localeCompare repositories n,
  Shown localeCompare repositories None n ->
  match n with
  | LocalGroup l => collapsibleState (localItem l) = Expanded
  | _ => atRest n
  end.
Proof.
  intros lc repos n Hshown. apply shown_built in Hshown.
  destruct n as [|d|o|l|r|w]; simpl in Hshown.
  - reflexivity.
  - rewrite Hshown. reflexivity.
  - destruct Hshown as (D & q & o0 & Hgrown & ->).
    destruct (grown_inv _ _ _ _ Hgrown) as (cs & -> & _). reflexivity.
  - rewrite Hshown. reflexivity.
  - rewrite Hshown. simpl. split; reflexivity.
  - rewrite Hshown. simpl. split; reflexivity.
Qed.

Lemma nothing_open_nodes_at_rest_witness :
  collapsibleState (localItem (newLocalGroupNode [localRepository])) = Expanded
  /\ atRest (Repository (newRepositoryNode localRepository None)).
Proof.
  assert (Hgroup : Shown codeUnitCompare [localRepository] None
                     (LocalGroup (newLocalGroupNode [localRepository]))).
  { apply ShownRoot. left. reflexivity. }
  split.
  - exact (nothing_open_nodes_at_rest codeUnitCompare [localRepository]
             (LocalGroup (newLocalGroupNode [localRepository])) Hgroup).
  - apply (nothing_open_nodes_at_rest codeUnitCompare [localRepository]
             (Repository (newRepositoryNode localRepository None))).
    apply (ShownChild _ _ _ _ _ Hgroup). left. reflexivity.
Defined.

(** C5, as the specification has it, fails: with no active path the view of
    one repository without a remote shows the local group node, and that
    node is expanded, not collapsed. *)
Lemma local_group_is_expanded :
  Shown codeUnitCompare [localRepository] None
    (LocalGroup (newLocalGroupNode [localRepository]))
  /\ ~ atRest (LocalGroup (newLocalGroupNode [localRepository])).
Proof.
  split.
  - apply ShownRoot. left. reflexivity.
  - simpl. discriminate.
Qed.

Lemma compareChildren_consistent : forall lc,
  Consistent lc -> Consistent (compareChildren lc).
Proof.
  intros lc [Htotal Htrans]. split.
  - intros [a|a] [b|b]; simpl; try lia; apply Htotal.
  - intros [a|a] [b|b] [c|c]; simpl; try lia; apply Htrans.
Qed.

(** Where a repository node of the view comes from: the local group, or the
    repositories of an owner node that has no children. *)
Lemma shown_repository : forall lc repos cwp rn,
  Shown lc repos cwp (Repository rn) ->
  In (repository rn) (reposWithoutRemote repos)
  \/ exists D q o0,
      Grown D (domainGroup repos D) q o0
      /\ children o0 = []
      /\ In (repository rn) (bucketOf (domainGroup repos D) q).
Proof.
  intros lc repos cwp rn Hshown.
  assert (Howner : forall D q o0 v,
             Grown D (domainGroup repos D) q o0 ->
             In v (TreeNodes.getChildren lc (updateExpansionState cwp o0) cwp) ->
             ofOwnerChild v = Repository rn ->
             exists D q o0,
               Grown D (domainGroup repos D) q o0
               /\ children o0 = []
               /\ In (repository rn) (bucketOf (domainGroup repos D) q)).
  { intros D q o0 v Hgrown Hin Hv.
    destruct (getChildren_updated _ _ _ _ _ _ _ Hgrown Hin)
      as [(k & c0 & -> & _)|(Hnone & x & Hx & ->)]; [discriminate|].
    simpl in Hv. injection Hv as <-. exists D, q, o0.
    split; [exact Hgrown|]. split; [exact Hnone|exact Hx]. }
  inversion Hshown as [n Hroot Hn|parent n Hparent Hchild Hn]; subst.
  - simpl in Hroot. unfold getRemoteViewRootNodes in Hroot.
    destruct repos as [|x repos]; [destruct Hroot as [H|[]]; discriminate|].
    apply in_app_or in Hroot. destruct Hroot as [Hdomain|Hlocal].
    + apply in_map_iff in Hdomain. destruct Hdomain as [entry [H _]]. discriminate.
    + destruct (0 <? List.length (reposWithoutRemote (x :: repos)));
        [|destruct Hlocal].
      destruct Hlocal as [H|[]]. discriminate.
  - pose proof (shown_built _ _ _ _ Hparent) as Hbuilt.
    destruct parent as [|d|o|l|r|w]; simpl in Hchild, Hbuilt.
    + destruct Hchild.
    + rewrite Hbuilt in Hchild. simpl in Hchild.
      unfold getOwnerNodes, ownerTree in Hchild.
      apply in_map_iff in Hchild. destruct Hchild as [v [Hv Hin]].
      right. exact (Howner (domain d) [] _ v (grown_fold _ cwp _) Hin Hv).
    + destruct Hbuilt as (D & q & o0 & Hgrown & ->).
      apply in_map_iff in Hchild. destruct Hchild as [v [Hv Hin]].
      right. exact (Howner D q o0 v Hgrown Hin Hv).
    + left. rewrite Hbuilt in Hchild. simpl in Hchild.
      apply in_map_iff in Hchild. destruct Hchild as [x [Hx Hin]].
      injection Hx as <-. exact Hin.
    + unfold worktreeNodes in Hchild.
      destruct (1 <? List.length (worktrees (repository r))); [|destruct Hchild].
      apply in_map_iff in Hchild. destruct Hchild as [wt [H _]]. discriminate.
    + destruct Hchild.
Qed.

Lemma StronglySorted_impl : forall {A : Type} (R S : A -> A -> Prop) l,
  (forall a b, R a b -> S a b) -> StronglySorted R l -> StronglySorted S l.
Proof.
  intros A R S l Himpl Hsorted. induction Hsorted as [|a l _ IH Hall]; constructor.
  - exact IH.
  - eapply Forall_impl; [|exact Hall]. intros b Hb. apply Himpl. exact Hb.
Qed.

(** What the comparator of [OwnerNode.getChildren] lets come first is in
    the order of the siblings. *)
Lemma compareChildren_siblingOrder : forall lc a b,
  inOrder (compareChildren lc) a b -> siblingOrder lc a b.
Proof.
  intros lc [a|a] [b|b]; unfold inOrder; simpl; intro H.
  - exact H.
  - exact I.
  - lia.
  - exact H.
Qed.

(** C9.  An owner node that has a child in its map answers, as its
    children, the child nodes of the map and nothing else, sorted: owner
    nodes before repository nodes, owner nodes in the order in which
    [localeCompare] sorts their names and repository nodes in the order in
    which it sorts the names of their repositories; its own repositories
    are not among them as leaves.  So a repository whose owner path is a
    proper prefix of the owner path of another repository of the same
    domain is in no repository node of the view. *)
Theorem shadowed_repositories_are_hidden : forall localeCompare currentWorkspacePath,
  (forall node : OwnerNode,
      children node <> [] ->
      TreeNodes.getChildren localeCompare node currentWorkspacePath
      = sort (compareChildren localeCompare) (mapValues (children node))
      /\ Permutation (TreeNodes.getChildren localeCompare node currentWorkspacePath)
                     (mapValues (children node))
      /\ (Consistent localeCompare ->
          StronglySorted (siblingOrder localeCompare)
            (TreeNodes.getChildren localeCompare node currentWorkspacePath)))
  /\ (forall repositories r r' url url' rest,
        In r repositories -> In r' repositories ->
        firstFetchUrl r = Some url -> firstFetchUrl r' = Some url' ->
        extractDomain url = extractDomain url' ->
        ownerSegments r <> [] -> rest <> [] ->
        ownerSegments r' = ownerSegments r ++ rest ->
        forall node, repository node = r ->
                     ~ Shown localeCompare repositories currentWorkspacePath
                         (Repository node)).
Proof.
  intros lc cwp. split.
  - intros node Hsome. unfold TreeNodes.getChildren.
    replace (0 <? List.length (children node)) with true.
    2: { symmetry. apply Nat.ltb_lt. destruct (children node); [contradiction|simpl; lia]. }
    split; [reflexivity|]. split; [apply sort_perm|].
    intro Hcmp. apply (StronglySorted_impl (inOrder (compareChildren lc))).
    + apply compareChildren_siblingOrder.
    + apply sort_sorted. apply compareChildren_consistent. exact Hcmp.
  - intros repos r r' url url' rest Hr Hr' Hurl Hurl' Hdomain Hsegs Hrest Hprefix
           node Hnode Hshown.
    destruct (shown_repository _ _ _ _ Hshown)
      as [Hlocal|(D & q & o0 & Hgrown & Hnone & Hbucket)]; rewrite Hnode in *.
    + unfold reposWithoutRemote in Hlocal. apply filter_In in Hlocal.
      destruct Hlocal as [_ H]. rewrite Hurl in H. discriminate.
    + apply In_bucketOf in Hbucket. destruct Hbucket as (Hgroup & Hq & _).
      unfold domainGroup in Hgroup. apply filter_In in Hgroup.
      destruct Hgroup as [_ HD]. unfold inDomain in HD. rewrite Hurl in HD.
      apply String.eqb_eq in HD.
      assert (Hgroup' : In r' (domainGroup repos D)).
      { unfold domainGroup. apply filter_In. split; [exact Hr'|].
        unfold inDomain. rewrite Hurl'. apply String.eqb_eq.
        rewrite <- Hdomain. exact HD. }
      destruct rest as [|k t]; [contradiction|].
      destruct (grown_inv _ _ _ _ Hgrown) as (cs & Heq & _ & _ & Hcover & _).
      rewrite Hq in Hprefix. pose proof (Hcover r' k t Hgroup' Hprefix) as Hkey.
      rewrite Heq in Hnone. simpl in Hnone. rewrite Hnone in Hkey. destruct Hkey.
Qed.

Lemma shadowed_repositories_are_hidden_witness :
  (map fst (children zetaAlphaRoot) = ["zeta"; "alpha"]
   /\ Permutation (TreeNodes.getChildren codeUnitCompare zetaAlphaRoot None)
                  (mapValues (children zetaAlphaRoot))
   /\ StronglySorted (siblingOrder codeUnitCompare)
        (TreeNodes.getChildren codeUnitCompare zetaAlphaRoot None)
   /\ map childKey (TreeNodes.getChildren codeUnitCompare zetaAlphaRoot None)
      = ["alpha"; "zeta"])
  /\ ~ Shown codeUnitCompare [directRepository; nestedRepository] None
        (Repository (newRepositoryNode directRepository None)).
Proof.
  destruct (shadowed_repositories_are_hidden codeUnitCompare None) as [Hchildren Hhidden].
  split.
  - destruct (Hchildren zetaAlphaRoot) as (_ & Hperm & Hsorted).
    + vm_compute. discriminate.
    + split; [reflexivity|]. split; [exact Hperm|].
      split; [exact (Hsorted codeUnitCompare_consistent)|reflexivity].
  - apply (Hhidden [directRepository; nestedRepository] directRepository nestedRepository
             "https://github.com/org/direct.git"
             "https://github.com/org/team/project.git" ["team"]).
    + left. reflexivity.
    + right. left. reflexivity.
    + reflexivity.
    + reflexivity.
    + vm_compute. reflexivity.
    + vm_compute. discriminate.
    + discriminate.
    + vm_compute. reflexivity.
    + reflexivity.
Defined.

End TreeFacts.

(** * The tree under a permutation of the input *)

Module PermutationFacts.
Import JS Scanner TreeNodes Provider Examples Notions SortFacts TreeFacts.

(** ** Lists *)

Lemma filter_perm : forall {A : Type} (f : A -> bool) l l',
  Permutation l l' -> Permutation (filter f l) (filter f l').
Proof.
  intros A f l l' H. induction H as [|x l l' H IH|x y l|l l' l'' H1 IH1 H2 IH2]; simpl.
  - constructor.
  - destruct (f x); [apply perm_skip|]; exact IH.
  - destruct (f x), (f y); try apply Permutation_refl. apply perm_swap.
  - eapply perm_trans; eassumption.
Qed.

Lemma existsb_perm : forall {A : Type} (f : A -> bool) l l',
  Permutation l l' -> existsb f l = existsb f l'.
Proof.
  intros A f l l' H.
  destruct (existsb f l) eqn:E; symmetry.
  - apply existsb_exists in E. destruct E as [x [Hin Hx]].
    apply existsb_exists. exists x. split; [|exact Hx].
    apply (Permutation_in _ H). exact Hin.
  - destruct (existsb f l') eqn:E'; [|reflexivity].
    apply existsb_exists in E'. destruct E' as [x [Hin Hx]].
    assert (Ht : existsb f l = true).
    { apply existsb_exists. exists x. split; [|exact Hx].
      apply (Permutation_in _ (Permutation_sym H)). exact Hin. }
    rewrite Ht in E. discriminate.
Qed.

(** A list that is sorted by an order without ties between different
    elements is the only sorted list of its elements. *)
Lemma sorted_unique : forall {A : Type} (R : A -> A -> Prop) l l',
  (forall a b, R a b -> R b a -> a = b) ->
  StronglySorted R l -> StronglySorted R l' -> Permutation l l' -> l = l'.
Proof.
  intros A R l l' Hanti Hl. revert l'.
  induction Hl as [|a t Ht IH Ha]; intros l' Hl' Hperm.
  - apply Permutation_nil in Hperm. symmetry. exact Hperm.
  - destruct Hl' as [|b t' Ht' Hb].
    + apply Permutation_sym, Permutation_nil in Hperm. discriminate.
    + assert (Hab : a = b).
      { assert (Hin1 : In a (b :: t')) by (apply (Permutation_in _ Hperm); left; reflexivity).
        assert (Hin2 : In b (a :: t))
          by (apply (Permutation_in _ (Permutation_sym Hperm)); left; reflexivity).
        destruct Hin1 as [H|Hin1]; [symmetry; exact H|].
        destruct Hin2 as [H|Hin2]; [exact H|].
        rewrite Forall_forall in Ha, Hb.
        apply Hanti; [apply Ha; exact Hin2|apply Hb; exact Hin1]. }
      subst b. f_equal. apply IH; [exact Ht'|].
      apply Permutation_cons_inv with a. exact Hperm.
Qed.

Lemma sorted_map : forall {A B : Type} (f : A -> B) (R : A -> A -> Prop)
                          (S : B -> B -> Prop) l,
  (forall a b, In a l -> In b l -> R a b -> S (f a) (f b)) ->
  StronglySorted R l -> StronglySorted S (map f l).
Proof.
  intros A B f R S l Hmono Hl. induction Hl as [|a t Ht IH Ha]; simpl.
  - constructor.
  - constructor.
    + apply IH. intros x y Hx Hy. apply Hmono; right; assumption.
    + rewrite Forall_forall in Ha. apply Forall_forall. intros y Hy.
      apply in_map_iff in Hy. destruct Hy as [x [<- Hx]].
      apply Hmono; [left; reflexivity|right; exact Hx|apply Ha; exact Hx].
Qed.

Lemma Forall2_of_map_eq : forall {A B C : Type} (f : A -> C) (g : B -> C) l l',
  map f l = map g l' -> Forall2 (fun a b => f a = g b) l l'.
Proof.
  intros A B C f g l. induction l as [|a l IH]; intros [|b l'] H; simpl in H;
    try discriminate.
  - constructor.
  - injection H as Hab H. constructor; [exact Hab|apply IH; exact H].
Qed.

Lemma Forall2_In_impl : forall {A B : Type} (R S : A -> B -> Prop) l l',
  (forall a b, In a l -> In b l' -> R a b -> S a b) ->
  Forall2 R l l' -> Forall2 S l l'.
Proof.
  intros A B R S l l' Himpl H. induction H as [|a b l l' Hab H IH].
  - constructor.
  - constructor.
    + apply Himpl; [left; reflexivity|left; reflexivity|exact Hab].
    + apply IH. intros x y Hx Hy. apply Himpl; right; assumption.
Qed.

Lemma Forall2_map : forall {A B A' B' : Type} (f : A -> A') (g : B -> B')
                           (R : A' -> B' -> Prop) l l',
  Forall2 (fun a b => R (f a) (g b)) l l' -> Forall2 R (map f l) (map g l').
Proof.
  intros A B A' B' f g R l l' H. induction H; simpl; constructor; assumption.
Qed.

(** Two lists with different keys throughout and the same keys are sorted
    into the same order of keys. *)
Lemma sort_keys_unique : forall {A : Type} (lc : string -> string -> Z)
                                (cmp : A -> A -> Z) (key : A -> string) l l',
  Consistent lc -> Separating lc -> Consistent cmp ->
  (forall a b, In a (l ++ l') -> In b (l ++ l') -> cmp a b = lc (key a) (key b)) ->
  Permutation (map key l) (map key l') ->
  map key (sort cmp l) = map key (sort cmp l').
Proof.
  intros A lc cmp key l l' Hlc Hsep Hcmp Hagree Hperm.
  apply (sorted_unique (inOrder lc)).
  - intros a b Hab Hba. apply Hsep; assumption.
  - apply (sorted_map key (inOrder cmp)); [|apply sort_sorted; exact Hcmp].
    intros a b Ha Hb Hab. unfold inOrder in *.
    apply sort_In in Ha. apply sort_In in Hb.
    rewrite <- Hagree; [exact Hab| |]; apply in_or_app; left; assumption.
  - apply (sorted_map key (inOrder cmp)); [|apply sort_sorted; exact Hcmp].
    intros a b Ha Hb Hab. unfold inOrder in *.
    apply sort_In in Ha. apply sort_In in Hb.
    rewrite <- Hagree; [exact Hab| |]; apply in_or_app; right; assumption.
  - eapply perm_trans; [apply Permutation_map; apply sort_perm|].
    eapply perm_trans; [exact Hperm|].
    apply Permutation_map. apply Permutation_sym. apply sort_perm.
Qed.

(** ** The expansion state of a grown tree *)

Lemma containsRecursive_node : forall a o f r d i cs,
  containsCurrentWorkspaceRecursive a (mkOwnerNode o f r d i cs) = true
  <-> containsCurrentWorkspace r (Some a) = true
      \/ (exists k c, In (k, inl c) cs /\ containsCurrentWorkspaceRecursive a c = true)
      \/ (exists k rn, In (k, inr rn) cs /\ isOpenIn a (repository rn) = true).
Proof.
  intros a o f r d i cs. cbn [containsCurrentWorkspaceRecursive].
  destruct (containsCurrentWorkspace r (Some a)); [split; auto|].
  induction cs as [|[k [c|rn]] rest IH].
  - split; [discriminate|]. intros [H|[(k & c & [] & _)|(k & rn & [] & _)]]. discriminate.
  - destruct (containsCurrentWorkspaceRecursive a c) eqn:Hc.
    + split; [|reflexivity]. intros _. right. left. exists k, c.
      split; [left; reflexivity|exact Hc].
    + rewrite IH. split.
      * intros [H|[(k' & c' & Hin & Hc')|(k' & rn & Hin & Hrn)]]; [discriminate| |].
        -- right. left. exists k', c'. split; [right; exact Hin|exact Hc'].
        -- right. right. exists k', rn. split; [right; exact Hin|exact Hrn].
      * intros [H|[(k' & c' & Hin & Hc')|(k' & rn & Hin & Hrn)]]; [discriminate| |].
        -- destruct Hin as [Heq|Hin].
           ++ injection Heq as _ <-. rewrite Hc in Hc'. discriminate.
           ++ right. left. exists k', c'. split; assumption.
        -- destruct Hin as [Heq|Hin]; [discriminate|].
           right. right. exists k', rn. split; assumption.
  - change (String.eqb (path (repository rn)) a
            || some (fun wt => String.eqb (wtPath wt) a) (worktrees (repository rn)))
      with (isOpenIn a (repository rn)).
    destruct (isOpenIn a (repository rn)) eqn:Hrn.
    + split; [|reflexivity]. intros _. right. right. exists k, rn.
      split; [left; reflexivity|exact Hrn].
    + rewrite IH. split.
      * intros [H|[(k' & c' & Hin & Hc')|(k' & rn' & Hin & Hrn')]]; [discriminate| |].
        -- right. left. exists k', c'. split; [right; exact Hin|exact Hc'].
        -- right. right. exists k', rn'. split; [right; exact Hin|exact Hrn'].
      * intros [H|[(k' & c' & Hin & Hc')|(k' & rn' & Hin & Hrn')]]; [discriminate| |].
        -- destruct Hin as [Heq|Hin]; [discriminate|].
           right. left. exists k', c'. split; assumption.
        -- destruct Hin as [Heq|Hin].
           ++ injection Heq as _ <-. rewrite Hrn in Hrn'. discriminate.
           ++ right. right. exists k', rn'. split; assumption.
Qed.

(** An owner node of a grown tree contains the active path exactly when
    some repository filed at it or below it does. *)
Lemma containsRecursive_grown : forall a D n L q,
  nonEmpty a = true ->
  Grown D L q n ->
  containsCurrentWorkspaceRecursive a n = true
  <-> exists x, In x L /\ isOpenIn a x = true /\ ownerSegments x <> []
                /\ exists t, ownerSegments x = q ++ t.
Proof.
  intros a D n. induction n as [o f r d i cs IH] using OwnerNode_induction.
  intros L q Ha Hgrown.
  destruct (grown_inv _ _ _ _ Hgrown) as (cs0 & Heq & _ & Hchildren & Hcover & _).
  injection Heq as -> -> -> -> -> <-.
  rewrite containsRecursive_node. split.
  - intros [Hbucket|[(k & c & Hin & Hc)|(k & rn & Hin & _)]].
    + unfold containsCurrentWorkspace in Hbucket. rewrite Ha in Hbucket.
      apply existsb_exists in Hbucket. destruct Hbucket as [x [Hx Hopen]].
      apply In_bucketOf in Hx. destruct Hx as (Hx & Hseg & Hq).
      exists x. split; [exact Hx|]. split; [exact Hopen|].
      split; [rewrite Hseg; exact Hq|]. exists []. rewrite app_nil_r. exact Hseg.
    + destruct (Hchildren k _ Hin) as [c0 [Hc0 Hgrown0]]. injection Hc0 as <-.
      apply (IH k c Hin L (q ++ [k]) Ha Hgrown0) in Hc.
      destruct Hc as (x & Hx & Hopen & Hne & t & Hseg).
      exists x. split; [exact Hx|]. split; [exact Hopen|]. split; [exact Hne|].
      exists (k :: t). rewrite Hseg, <- app_assoc. reflexivity.
    + destruct (Hchildren k _ Hin) as [c0 [Hc0 _]]. discriminate.
  - intros (x & Hx & Hopen & Hne & t & Hseg). destruct t as [|k t].
    + left. rewrite app_nil_r in Hseg. unfold containsCurrentWorkspace. rewrite Ha.
      apply existsb_exists. exists x. split; [|exact Hopen].
      apply In_bucketOf. split; [exact Hx|]. split; [exact Hseg|].
      rewrite <- Hseg. exact Hne.
    + right. left. pose proof (Hcover x k t Hx Hseg) as Hkey.
      apply In_keys in Hkey. destruct Hkey as [v Hin].
      destruct (Hchildren k v Hin) as [c [-> Hgrown0]].
      exists k, c. split; [exact Hin|].
      apply (IH k c Hin L (q ++ [k]) Ha Hgrown0).
      exists x. split; [exact Hx|]. split; [exact Hopen|]. split; [exact Hne|].
      exists t. rewrite Hseg, <- app_assoc. reflexivity.
Qed.

Lemma containsRecursive_perm : forall a D L L' q n n',
  nonEmpty a = true -> Permutation L L' ->
  Grown D L q n -> Grown D L' q n' ->
  containsCurrentWorkspaceRecursive a n = containsCurrentWorkspaceRecursive a n'.
Proof.
  intros a D L L' q n n' Ha Hperm Hn Hn'.
  apply Bool.eq_true_iff_eq.
  rewrite (containsRecursive_grown a D n L q Ha Hn).
  rewrite (containsRecursive_grown a D n' L' q Ha Hn').
  split; intros (x & Hx & H); exists x; (split; [|exact H]).
  - apply (Permutation_in _ Hperm). exact Hx.
  - apply (Permutation_in _ (Permutation_sym Hperm)). exact Hx.
Qed.

Lemma updated_item : forall cwp n,
  ownerItem (updateExpansionState cwp n)
  = match cwp with
    | Some a =>
        if nonEmpty a && containsCurrentWorkspaceRecursive a n
        then setCollapsibleState Expanded (ownerItem n)
        else ownerItem n
    | None => ownerItem n
    end.
Proof.
  intros cwp n. unfold updateExpansionState. destruct cwp as [a|]; [|reflexivity].
  destruct (nonEmpty a); [|reflexivity]. destruct n as [o f r d i cs]. simpl.
  destruct (containsCurrentWorkspace r (Some a)); reflexivity.
Qed.

Lemma updated_item_perm : forall cwp D L L' q n n',
  Permutation L L' -> Grown D L q n -> Grown D L' q n' ->
  ownerItem (updateExpansionState cwp n) = ownerItem (updateExpansionState cwp n').
Proof.
  intros cwp D L L' q n n' Hperm Hn Hn'. rewrite !updated_item.
  assert (Hitem : ownerItem n = ownerItem n').
  { destruct (grown_inv _ _ _ _ Hn) as (cs & -> & _).
    destruct (grown_inv _ _ _ _ Hn') as (cs' & -> & _). reflexivity. }
  rewrite Hitem. destruct cwp as [a|]; [|reflexivity].
  destruct (nonEmpty a) eqn:Ha; [|reflexivity]. simpl.
  rewrite (containsRecursive_perm a D L L' q n n' Ha Hperm Hn Hn'). reflexivity.
Qed.

(** ** Owner nodes under a permutation *)

Lemma grown_owner : forall D L q n, Grown D L q n -> owner n = last q "".
Proof.
  intros D L q n H. destruct (grown_inv _ _ _ _ H) as (cs & -> & _). reflexivity.
Qed.

(** The values of the map of an updated node of a grown tree. *)
Lemma updated_values : forall cwp D L q n v,
  Grown D L q n ->
  In v (mapValues (map (updateChild cwp) (children n))) ->
  exists k c,
    In (k, inl c) (children n)
    /\ v = inl (updateExpansionState cwp c)
    /\ Grown D L (q ++ [k]) c
    /\ childKey v = k.
Proof.
  intros cwp D L q n v Hgrown Hin.
  destruct (grown_inv _ _ _ _ Hgrown) as (cs & Heq & _ & Hchildren & _ & _).
  rewrite Heq in Hin. simpl in Hin. unfold mapValues in Hin. rewrite map_map in Hin.
  apply in_map_iff in Hin. destruct Hin as [[k v0] [Hv Hentry]].
  destruct (Hchildren k v0 Hentry) as [c [-> Hc]].
  exists k, c. rewrite Heq. simpl. split; [exact Hentry|].
  split; [symmetry; exact Hv|]. split; [exact Hc|].
  rewrite <- Hv. simpl.
  destruct (updateExpansionState_fields cwp c) as (Howner & _).
  rewrite Howner, (grown_owner _ _ _ _ Hc). apply last_last.
Qed.

Lemma updated_keys : forall cwp D L q n,
  Grown D L q n ->
  map childKey (mapValues (map (updateChild cwp) (children n))) = map fst (children n).
Proof.
  intros cwp D L q n Hgrown.
  destruct (grown_inv _ _ _ _ Hgrown) as (cs & Heq & _ & Hchildren & _ & _).
  rewrite Heq. simpl. unfold mapValues. rewrite !map_map.
  apply map_ext_in. intros [k v] Hentry.
  destruct (Hchildren k v Hentry) as [c [-> Hc]]. simpl.
  destruct (updateExpansionState_fields cwp c) as (Howner & _).
  rewrite Howner, (grown_owner _ _ _ _ Hc). apply last_last.
Qed.

(** Two trees grown from two orders of the same repositories have the same
    segments below each path. *)
Lemma grown_keys_perm : forall D L L' q n n',
  Permutation L L' -> Grown D L q n -> Grown D L' q n' ->
  Permutation (map fst (children n)) (map fst (children n')).
Proof.
  intros D L L' q n n' Hperm Hn Hn'.
  destruct (grown_inv _ _ _ _ Hn) as (cs & -> & Hnodup & _ & Hcover & Hused).
  destruct (grown_inv _ _ _ _ Hn') as (cs' & -> & Hnodup' & _ & Hcover' & Hused').
  simpl. apply NoDup_Permutation; [exact Hnodup|exact Hnodup'|].
  intro k. split; intro Hk.
  - destruct (Hused k Hk) as (x & t & Hx & Hseg).
    apply (Hcover' x k t); [|exact Hseg]. apply (Permutation_in _ Hperm). exact Hx.
  - destruct (Hused' k Hk) as (x & t & Hx & Hseg).
    apply (Hcover x k t); [|exact Hseg].
    apply (Permutation_in _ (Permutation_sym Hperm)). exact Hx.
Qed.

(** The heart of the matter: the nodes at one path of two trees grown from
    two orders of the same repositories are alike, and so are their sorted
    children, one by one. *)
Lemma alike_grown : forall lc cwp D,
  Consistent lc -> Separating lc ->
  forall n L L' q n',
    Permutation L L' -> Grown D L q n -> Grown D L' q n' ->
    Alike lc cwp (Owner (updateExpansionState cwp n)) (Owner (updateExpansionState cwp n'))
    /\ Forall2 (Alike lc cwp)
         (map ofOwnerChild
              (sort (compareChildren lc) (mapValues (map (updateChild cwp) (children n)))))
         (map ofOwnerChild
              (sort (compareChildren lc) (mapValues (map (updateChild cwp) (children n'))))).
Proof.
  intros lc cwp D Hlc Hsep n.
  induction n as [o f r d i cs IH] using OwnerNode_induction.
  intros L L' q n' Hperm Hn Hn'.
  pose proof (grown_keys_perm D L L' q _ n' Hperm Hn Hn') as Hkeys.
  set (n := mkOwnerNode o f r d i cs) in *.
  set (vs := mapValues (map (updateChild cwp) (children n))).
  set (vs' := mapValues (map (updateChild cwp) (children n'))).
  assert (Hsorted : Forall2 (Alike lc cwp)
                      (map ofOwnerChild (sort (compareChildren lc) vs))
                      (map ofOwnerChild (sort (compareChildren lc) vs'))).
  { apply Forall2_map.
    apply (Forall2_In_impl (fun a b => childKey a = childKey b)).
    - intros a b Ha Hb Hab. apply sort_In in Ha. apply sort_In in Hb.
      destruct (updated_values cwp D L q n a Hn Ha) as (k & c & Hin & -> & Hc & Hk).
      destruct (updated_values cwp D L' q n' b Hn' Hb) as (k' & c' & Hin' & -> & Hc' & Hk').
      rewrite Hk, Hk' in Hab. subst k'. simpl.
      exact (proj1 (IH k c Hin L L' (q ++ [k]) c' Hperm Hc Hc')).
    - apply Forall2_of_map_eq.
      apply (sort_keys_unique lc (compareChildren lc) childKey vs vs' Hlc Hsep).
      + apply compareChildren_consistent. exact Hlc.
      + assert (Hinl : forall a, In a (vs ++ vs') -> exists m, a = inl m).
        { intros a Ha. apply in_app_or in Ha. destruct Ha as [Ha|Ha].
          - destruct (updated_values cwp D L q n a Hn Ha) as (k & c & _ & -> & _).
            eexists. reflexivity.
          - destruct (updated_values cwp D L' q n' a Hn' Ha) as (k & c & _ & -> & _).
            eexists. reflexivity. }
        intros a b Ha Hb. destruct (Hinl a Ha) as [m ->]. destruct (Hinl b Hb) as [m' ->].
        reflexivity.
      + unfold vs, vs'. rewrite (updated_keys cwp D L q n Hn).
        rewrite (updated_keys cwp D L' q n' Hn'). exact Hkeys. }
  split; [|exact Hsorted].
  destruct (updateExpansionState_fields cwp n) as (Ho & Hf & Hr & Hd).
  destruct (updateExpansionState_fields cwp n') as (Ho' & Hf' & Hr' & Hd').
  assert (Hfields : owner n = owner n' /\ fullPath n = fullPath n'
                    /\ ownerDomain n = ownerDomain n'
                    /\ Permutation (ownerRepositories n) (ownerRepositories n')).
  { destruct (grown_inv _ _ _ _ Hn) as (cs0 & -> & _).
    destruct (grown_inv _ _ _ _ Hn') as (cs0' & -> & _). simpl.
    repeat (split; [reflexivity|]). apply filter_perm. exact Hperm. }
  destruct Hfields as (Eo & Ef & Ed & Er).
  assert (Hcases : children n = [] \/ children n <> []).
  { destruct (children n); [left; reflexivity|right; discriminate]. }
  destruct Hcases as [Hcs|Hcs].
  - assert (Hcs' : children n' = []).
    { rewrite Hcs in Hkeys. apply Permutation_nil in Hkeys.
      destruct (children n'); [reflexivity|discriminate]. }
    apply AlikeOwnerOfLeaves.
    + rewrite Ho, Ho'. exact Eo.
    + rewrite Hf, Hf'. exact Ef.
    + rewrite Hd, Hd'. exact Ed.
    + apply (updated_item_perm cwp D L L' q n n' Hperm Hn Hn').
    + rewrite Hr, Hr'. exact Er.
    + rewrite updateExpansionState_children, Hcs. reflexivity.
    + rewrite updateExpansionState_children, Hcs'. reflexivity.
  - assert (Hsome' : children n' <> []).
    { intro H. rewrite H in Hkeys. apply Permutation_sym, Permutation_nil in Hkeys.
      destruct (children n); [contradiction|discriminate]. }
    assert (Hget : forall m, children m <> [] ->
               TreeNodes.getChildren lc (updateExpansionState cwp m) cwp
               = sort (compareChildren lc) (mapValues (map (updateChild cwp) (children m)))).
    { intros m Hm. unfold TreeNodes.getChildren.
      rewrite updateExpansionState_children, length_map.
      destruct (children m); [contradiction|reflexivity]. }
    apply AlikeOwner.
    + rewrite Ho, Ho'. exact Eo.
    + rewrite Hf, Hf'. exact Ef.
    + rewrite Hd, Hd'. exact Ed.
    + apply (updated_item_perm cwp D L L' q n n' Hperm Hn Hn').
    + rewrite Hr, Hr'. exact Er.
    + rewrite updateExpansionState_children.
      destruct (children n); [contradiction|discriminate].
    + rewrite updateExpansionState_children.
      destruct (children n'); [contradiction|discriminate].
    + rewrite (Hget n Hcs), (Hget n' Hsome'). exact Hsorted.
Qed.

Lemma bucketOf_root : forall L, bucketOf L [] = [].
Proof. induction L as [|x L IH]; [reflexivity|exact IH]. Qed.

(** The owner nodes below a domain node, from two orders of the same
    repositories. *)
Lemma getOwnerNodes_perm : forall lc cwp D g g',
  Consistent lc -> Separating lc -> Permutation g g' ->
  Forall2 (Alike lc cwp) (getOwnerNodes lc cwp D g) (getOwnerNodes lc cwp D g').
Proof.
  intros lc cwp D g g' Hlc Hsep Hperm. unfold getOwnerNodes, ownerTree.
  pose proof (grown_fold D cwp g) as Hn. pose proof (grown_fold D cwp g') as Hn'.
  set (n := fold_left (addToOwnerTree D cwp) g (newOwnerNode "" "" [] (Some D) cwp)) in *.
  set (n' := fold_left (addToOwnerTree D cwp) g' (newOwnerNode "" "" [] (Some D) cwp)) in *.
  pose proof (grown_keys_perm D g g' [] n n' Hperm Hn Hn') as Hkeys.
  destruct (alike_grown lc cwp D Hlc Hsep n g g' [] n' Hperm Hn Hn') as [_ Hsorted].
  assert (Hget : forall L m, Grown D L [] m ->
             TreeNodes.getChildren lc (updateExpansionState cwp m) cwp
             = sort (compareChildren lc) (mapValues (map (updateChild cwp) (children m)))).
  { intros L m Hm. unfold TreeNodes.getChildren.
    rewrite updateExpansionState_children, length_map.
    destruct (children m) as [|entry rest] eqn:Hcs; [|reflexivity]. simpl.
    destruct (updateExpansionState_fields cwp m) as (_ & _ & Hr & _). rewrite Hr.
    destruct (grown_inv _ _ _ _ Hm) as (cs & -> & _). simpl.
    rewrite bucketOf_root. reflexivity. }
  rewrite (Hget g n Hn), (Hget g' n' Hn'). exact Hsorted.
Qed.

Lemma domain_key : forall repos D,
  In D (map fst (buildDomainMap repos)) <-> domainGroup repos D <> [].
Proof.
  intros repos D. destruct (buildDomainMap_spec repos) as [_ Hget].
  pose proof (mapGet_None (buildDomainMap repos) D) as Hnone.
  rewrite Hget in Hnone. unfold groupEntry in Hnone.
  destruct (domainGroup repos D) as [|x g].
  - split; [|intro H; exfalso; apply H; reflexivity].
    intro Hin. exfalso. apply (proj1 Hnone); [reflexivity|exact Hin].
  - split; [intros _; discriminate|]. intros _.
    destruct (in_dec string_dec D (map fst (buildDomainMap repos))) as [Hin|Hout];
      [exact Hin|].
    apply Hnone in Hout. discriminate.
Qed.

Lemma domain_keys_perm : forall repos repos',
  Permutation repos repos' ->
  Permutation (map fst (buildDomainMap repos)) (map fst (buildDomainMap repos')).
Proof.
  intros repos repos' Hperm.
  apply NoDup_Permutation;
    [apply (proj1 (buildDomainMap_spec repos))|apply (proj1 (buildDomainMap_spec repos'))|].
  assert (Hsame : forall l l' D, Permutation l l' ->
             domainGroup l D <> [] -> domainGroup l' D <> []).
  { intros l l' D Hp Hne Hnil. apply Hne.
    pose proof (filter_perm (inDomain D) l l' Hp) as Hg.
    unfold domainGroup in *. rewrite Hnil in Hg.
    apply Permutation_sym, Permutation_nil in Hg. exact Hg. }
  intro D. rewrite !domain_key. split.
  - apply Hsame. exact Hperm.
  - apply Hsame. apply Permutation_sym. exact Hperm.
Qed.

Lemma containsCurrentWorkspace_perm : forall g g' cwp,
  Permutation g g' -> containsCurrentWorkspace g cwp = containsCurrentWorkspace g' cwp.
Proof.
  intros g g' cwp Hperm. unfold containsCurrentWorkspace.
  destruct cwp as [a|]; [|reflexivity]. destruct (nonEmpty a); [|reflexivity].
  apply existsb_perm. exact Hperm.
Qed.

Lemma includes_In : forall xs x, includes xs x = true <-> In x xs.
Proof.
  intros xs x. unfold includes. rewrite existsb_exists. split.
  - intros [y [Hy Heq]]. apply String.eqb_eq in Heq. subst y. exact Hy.
  - intro Hin. exists x. split; [exact Hin|apply String.eqb_refl].
Qed.

Lemma addToDomainMap_keys : forall M x,
  map fst (addToDomainMap M x) = addDomain (map fst M) x.
Proof.
  intros M x. unfold addToDomainMap, addDomain.
  destruct (firstFetchUrl x) as [url|]; [|reflexivity].
  set (D := extractDomain url).
  destruct (mapGet D M) as [g|] eqn:Hget.
  - assert (Hin : In D (map fst M)).
    { apply In_keys. exists g. apply mapGet_In. exact Hget. }
    rewrite Hget, (mapSet_keys_present M D _ Hin).
    replace (includes (map fst M) D) with true; [reflexivity|].
    symmetry. apply includes_In. exact Hin.
  - pose proof (proj1 (mapGet_None M D) Hget) as Hout.
    rewrite mapGet_mapSet_same.
    rewrite mapSet_keys_present
      by (apply mapSet_keys_In; left; reflexivity).
    rewrite (mapSet_keys_absent M D _ Hout).
    replace (includes (map fst M) D) with false; [reflexivity|].
    symmetry. destruct (includes (map fst M) D) eqn:E; [|reflexivity].
    apply includes_In in E. contradiction.
Qed.

Lemma buildDomainMap_keys : forall repos,
  map fst (buildDomainMap repos) = domainsInOrder repos.
Proof.
  intro repos. unfold buildDomainMap, domainsInOrder.
  assert (Hfold : forall todo M,
             map fst (fold_left addToDomainMap todo M)
             = fold_left addDomain todo (map fst M)).
  { induction todo as [|x todo IH]; intro M; simpl; [reflexivity|].
    rewrite IH, addToDomainMap_keys. reflexivity. }
  rewrite Hfold. simpl.
  generalize (@nil string) as seen.
  induction repos as [|x repos IH]; intro seen; [reflexivity|].
  unfold reposWithRemote in *. simpl.
  destruct (firstFetchUrl x) as [url|] eqn:Hurl; simpl.
  - rewrite IH. reflexivity.
  - rewrite IH. replace (addDomain seen x) with seen; [reflexivity|].
    unfold addDomain. rewrite Hurl. reflexivity.
Qed.

(** The root nodes in closed form. *)
Lemma root_nodes : forall repos cwp,
  repos <> [] ->
  getRemoteViewRootNodes repos cwp
  = map (fun D => Domain (newDomainNode D (domainGroup repos D) cwp))
        (domainsInOrder repos)
    ++ (if 0 <? List.length (reposWithoutRemote repos)
        then [LocalGroup (newLocalGroupNode (reposWithoutRemote repos))]
        else []).
Proof.
  intros repos cwp Hne. unfold getRemoteViewRootNodes.
  destruct repos as [|x repos]; [contradiction|].
  f_equal. rewrite <- buildDomainMap_keys, map_map.
  apply map_ext_in. intros [D g] Hentry. simpl.
  rewrite (buildDomainMap_entry _ _ _ Hentry). reflexivity.
Qed.

(** C4, as the code has it.  The root nodes of the view of a non-empty list
    of repository records are one domain node for each domain, in the order
    in which the domains first occur in the list, each with the
    repositories of its domain, and after them the local group when some
    repository has no remote.  Take a permutation of the list, and a
    [localeCompare] that is consistent and ties no two different strings.
    The two views have the same number of root nodes, and every root node
    of the one has a node of the other that is like it: a domain node of
    the same domain and state, a local group, or the empty state.  Below
    two such domain nodes the owner nodes are the same, in the same order,
    at every level, with the same state; the repositories that a domain
    node, an owner node or the local group holds are the same up to their
    order.  Nothing is said of the order of the repository leaves. *)
Theorem grouping_tree_under_permutation : forall localeCompare currentWorkspacePath repos repos',
  Consistent localeCompare -> Separating localeCompare ->
  Permutation repos repos' ->
  (repos <> [] ->
   getRemoteViewRootNodes repos currentWorkspacePath
   = map (fun D => Domain (newDomainNode D (domainGroup repos D) currentWorkspacePath))
         (domainsInOrder repos)
     ++ (if 0 <? List.length (reposWithoutRemote repos)
         then [LocalGroup (newLocalGroupNode (reposWithoutRemote repos))]
         else []))
  /\ List.length (getRemoteViewRootNodes repos currentWorkspacePath)
     = List.length (getRemoteViewRootNodes repos' currentWorkspacePath)
  /\ forall n,
      In n (getRemoteViewRootNodes repos currentWorkspacePath) ->
      exists n',
        In n' (getRemoteViewRootNodes repos' currentWorkspacePath)
        /\ Alike localeCompare currentWorkspacePath n n'.
Proof.
  intros lc cwp repos repos' Hlc Hsep Hperm.
  split; [apply root_nodes|].
  destruct repos as [|x repos].
  { apply Permutation_nil in Hperm. subst repos'. split; [reflexivity|].
    intros n [<-|[]]. exists EmptyState. split; [left; reflexivity|constructor]. }
  destruct repos' as [|x' repos'].
  { apply Permutation_sym, Permutation_nil in Hperm. discriminate. }
  unfold getRemoteViewRootNodes.
  set (all := x :: repos) in *. set (all' := x' :: repos') in *.
  pose proof (domain_keys_perm all all' Hperm) as Hkeys.
  pose proof (filter_perm
                (fun repo => match firstFetchUrl repo with Some _ => false | None => true end)
                all all' Hperm) as Hlocal.
  fold (reposWithoutRemote all) in Hlocal. fold (reposWithoutRemote all') in Hlocal.
  split.
  - rewrite !length_app, !length_map.
    rewrite <- (length_map fst (buildDomainMap all)).
    rewrite <- (length_map fst (buildDomainMap all')).
    rewrite (Permutation_length Hkeys), (Permutation_length Hlocal).
    destruct (0 <? List.length (reposWithoutRemote all')); reflexivity.
  - intros n Hin. apply in_app_or in Hin. destruct Hin as [Hdomain|Hgroup].
    + apply in_map_iff in Hdomain. destruct Hdomain as [[D g] [<- Hentry]].
      pose proof (buildDomainMap_entry _ _ _ Hentry) as Hg.
      assert (Hkey : In D (map fst (buildDomainMap all'))).
      { apply (Permutation_in _ Hkeys). apply In_keys. exists g. exact Hentry. }
      apply In_keys in Hkey. destruct Hkey as [g' Hentry'].
      pose proof (buildDomainMap_entry _ _ _ Hentry') as Hg'.
      assert (Hgroups : Permutation g g').
      { rewrite Hg, Hg'. apply filter_perm. exact Hperm. }
      exists (Domain (newDomainNode D g' cwp)). split.
      * apply in_or_app. left.
        apply (in_map (fun entry => Domain (newDomainNode (fst entry) (snd entry) cwp))
                      _ (D, g') Hentry').
      * simpl. apply AlikeDomain.
        -- reflexivity.
        -- simpl. rewrite (containsCurrentWorkspace_perm g g' cwp Hgroups). reflexivity.
        -- exact Hgroups.
        -- simpl. apply getOwnerNodes_perm; assumption.
    + destruct (0 <? List.length (reposWithoutRemote all)) eqn:Hsome; [|destruct Hgroup].
      destruct Hgroup as [<-|[]].
      exists (LocalGroup (newLocalGroupNode (reposWithoutRemote all'))). split.
      * apply in_or_app. right.
        rewrite <- (Permutation_length Hlocal), Hsome. left. reflexivity.
      * apply AlikeLocalGroup; [reflexivity|exact Hlocal].
Qed.

Lemma grouping_tree_under_permutation_witness :
  List.length (getRemoteViewRootNodes [githubRepository; gitlabRepository] None)
  = List.length (getRemoteViewRootNodes [gitlabRepository; githubRepository] None)
  /\ exists n',
      In n' (getRemoteViewRootNodes [gitlabRepository; githubRepository] None)
      /\ Alike codeUnitCompare None
           (Domain (newDomainNode "github.com" [githubRepository] None)) n'.
Proof.
  destruct (grouping_tree_under_permutation codeUnitCompare None
              [githubRepository; gitlabRepository] [gitlabRepository; githubRepository]
              codeUnitCompare_consistent codeUnitCompare_separating
              (perm_swap gitlabRepository githubRepository []))
    as (_ & Hlength & Halike).
  split; [exact Hlength|].
  apply Halike. left. reflexivity.
Defined.

(** C4, as the specification has it, fails: the domain nodes at the root
    come in the order in which their domains first occur in the input, and
    the repository leaves of an owner node in the order of the input. *)
Lemma tree_follows_input_order :
  Permutation [githubRepository; gitlabRepository] [gitlabRepository; githubRepository]
  /\ getRemoteViewRootNodes [githubRepository; gitlabRepository] None
     <> getRemoteViewRootNodes [gitlabRepository; githubRepository] None
  /\ labels (getRemoteViewRootNodes [githubRepository; gitlabRepository] None)
     = ["github.com"; "gitlab.com"]
  /\ labels (getRemoteViewRootNodes [gitlabRepository; githubRepository] None)
     = ["gitlab.com"; "github.com"]
  /\ flat_map (fun n => labels (Provider.getChildren codeUnitCompare [] None (Some n)))
       (getOwnerNodes codeUnitCompare None "github.com"
                      [githubRepository; gadgetsRepository])
     = ["widgets"; "gadgets"]
  /\ flat_map (fun n => labels (Provider.getChildren codeUnitCompare [] None (Some n)))
       (getOwnerNodes codeUnitCompare None "github.com"
                      [gadgetsRepository; githubRepository])
     = ["gadgets"; "widgets"].
Proof.
  split; [apply perm_swap|]. split.
  - intro H. apply (f_equal labels) in H. vm_compute in H. discriminate.
  - split; [vm_compute; reflexivity|]. split; [vm_compute; reflexivity|].
    split; vm_compute; reflexivity.
Qed.

End PermutationFacts.

(** * More properties of the scanner *)

Module WalkFacts.
Import JS Scanner Configured Examples Notions MoreNotions ScannerFacts.

(** ** Induction on directories *)

Lemma Dirent_induction (P : Dirent -> Prop) :
  (forall n k, P (mkDirent n k None)) ->
  (forall n k entries, Forall P entries -> P (mkDirent n k (Some entries))) ->
  forall d, P d.
Proof.
  intros Hleaf Hdir. fix IH 1. intros [n k [entries|]]; [|apply Hleaf].
  apply Hdir. induction entries as [|e rest IHrest]; constructor.
  - apply IH.
  - exact IHrest.
Qed.

Lemma scan_unfold : forall git ig dir dirPath depth st,
  scan git ig dir dirPath depth st
  = if MAX_DEPTH <? depth then st
    else if ig dirPath then st
         else match readdir dir with
              | None => st
              | Some entries =>
                  match find (fun e => String.eqb (direntName e) ".git") entries with
                  | Some gitEntry => visitRepository git dirPath gitEntry st
                  | None => scanEntries git ig dirPath depth entries st
                  end
              end.
Proof.
  intros git ig [n k [entries|]] dirPath depth st; reflexivity.
Qed.

Lemma scanEntries_cons : forall git ig dirPath depth entry rest st,
  scanEntries git ig dirPath depth (entry :: rest) st
  = if isDirectory entry && negb (isSymbolicLink entry) then
      if includes SKIP_DIRECTORIES (direntName entry)
      then scanEntries git ig dirPath depth rest st
      else scanEntries git ig dirPath depth rest
             (scan git ig entry (pathJoin git dirPath (direntName entry)) (depth + 1) st)
    else scanEntries git ig dirPath depth rest st.
Proof. reflexivity. Qed.

(** What every visit of a repository root keeps, the whole walk keeps. *)
Lemma scan_preserves : forall git ig (P : ScanState -> Prop),
  (forall dirPath gitEntry st, P st -> P (visitRepository git dirPath gitEntry st)) ->
  forall dir dirPath depth st, P st -> P (scan git ig dir dirPath depth st).
Proof.
  intros git ig P Hvisit dir.
  induction dir as [n k|n k entries IH] using Dirent_induction;
    intros dirPath depth st Hst; rewrite scan_unfold; simpl.
  - destruct (MAX_DEPTH <? depth); [exact Hst|]. destruct (ig dirPath); exact Hst.
  - destruct (MAX_DEPTH <? depth); [exact Hst|]. destruct (ig dirPath); [exact Hst|].
    destruct (find (fun e => String.eqb (direntName e) ".git") entries) as [g|].
    + apply Hvisit. exact Hst.
    + clear Hvisit. revert st Hst.
      induction IH as [|entry rest Hentry Hrest IHrest]; intros st Hst; [exact Hst|].
      rewrite scanEntries_cons.
      destruct (isDirectory entry && negb (isSymbolicLink entry)); [|apply IHrest; exact Hst].
      destruct (includes SKIP_DIRECTORIES (direntName entry)); apply IHrest; [exact Hst|].
      apply Hentry. exact Hst.
Qed.

Lemma scanEntries_preserves : forall git ig (P : ScanState -> Prop),
  (forall dirPath gitEntry st, P st -> P (visitRepository git dirPath gitEntry st)) ->
  forall dirPath depth es st, P st -> P (scanEntries git ig dirPath depth es st).
Proof.
  intros git ig P Hvisit dirPath depth es.
  induction es as [|entry rest IH]; intros st Hst; [exact Hst|].
  rewrite scanEntries_cons.
  destruct (isDirectory entry && negb (isSymbolicLink entry)); [|apply IH; exact Hst].
  destruct (includes SKIP_DIRECTORIES (direntName entry)); apply IH; [exact Hst|].
  apply scan_preserves; assumption.
Qed.

Lemma includes_iff : forall xs x, includes xs x = true <-> In x xs.
Proof.
  intros xs x. unfold includes. rewrite existsb_exists. split.
  - intros [y [Hy Heq]]. apply String.eqb_eq in Heq. subst y. exact Hy.
  - intro Hin. exists x. split; [exact Hin|apply String.eqb_refl].
Qed.

Lemma includes_false : forall xs x, includes xs x = false <-> ~ In x xs.
Proof.
  intros xs x. rewrite <- includes_iff. destruct (includes xs x); split; intro H.
  - discriminate.
  - exfalso. apply H. reflexivity.
  - intro. discriminate.
  - reflexivity.
Qed.

Lemma visitRepository_distinct : forall git dirPath gitEntry st,
  distinctRecords git st -> distinctRecords git (visitRepository git dirPath gitEntry st).
Proof.
  intros git dirPath gitEntry st [Hnodup Hseen]. unfold visitRepository.
  destruct (isFile gitEntry); [split; assumption|].
  destruct (includes (seenPaths st) (normalize git dirPath)) eqn:Hinc; [split; assumption|].
  apply includes_false in Hinc.
  destruct (extractRepositoryInfo git dirPath false) as [info|] eqn:Hinfo.
  - apply extractRepositoryInfo_fields in Hinfo. destruct Hinfo as [Hpath _].
    split; simpl.
    + rewrite map_app. simpl. apply NoDup_app; [exact Hnodup|constructor; [intros []|constructor]|].
      intros p Hp [ <- | [] ]. unfold normalizedPath in Hp at 1. 
      apply in_map_iff in Hp. destruct Hp as [r [Hr Hin]].
      apply Hinc. unfold normalizedPath in Hr. rewrite Hpath in Hr. rewrite <- Hr.
      apply (Hseen r Hin).
    + intros r Hr. apply in_app_or in Hr. apply in_or_app.
      destruct Hr as [Hr|[ <- | [] ]]; [left; apply Hseen; exact Hr|].
      right. left. unfold normalizedPath. rewrite Hpath. reflexivity.
  - split; simpl; [exact Hnodup|].
    intros r Hr. apply in_or_app. left. apply Hseen. exact Hr.
Qed.

(** X1.  No two records of a scan have the same normalized path. *)
Theorem scanPath_paths_differ : forall git shouldIgnorePath base basePath,
  NoDup (map (normalizedPath git) (scanPath git shouldIgnorePath base basePath)).
Proof.
  intros git ig base basePath. unfold scanPath.
  apply (scan_preserves git ig (distinctRecords git)).
  - intros dirPath gitEntry st. apply visitRepository_distinct.
  - split; [constructor|intros r []].
Qed.

(** An invariant of the accumulators holds after a walk when every visit
    of a repository root that the walk enters keeps it. *)
Lemma scan_walked_invariant : forall git ig base basePath (P : ScanState -> Prop),
  (forall dir dirPath depth entries gitEntry st,
      Walked git ig base basePath dir dirPath depth ->
      depth <= MAX_DEPTH -> ig dirPath = false ->
      readdir dir = Some entries ->
      find (fun e => String.eqb (direntName e) ".git") entries = Some gitEntry ->
      P st -> P (visitRepository git dirPath gitEntry st)) ->
  forall dir dirPath depth st,
    Walked git ig base basePath dir dirPath depth -> P st ->
    P (scan git ig dir dirPath depth st).
Proof.
  intros git ig base basePath P Hvisit dir.
  induction dir as [n k|n k entries IH] using Dirent_induction;
    intros dirPath depth st Hwalked Hst; rewrite scan_unfold; simpl.
  - destruct (MAX_DEPTH <? depth); [exact Hst|]. destruct (ig dirPath); exact Hst.
  - destruct (MAX_DEPTH <? depth) eqn:Hdepth; [exact Hst|]. apply Nat.ltb_ge in Hdepth.
    destruct (ig dirPath) eqn:Hig; [exact Hst|].
    destruct (find (fun e => String.eqb (direntName e) ".git") entries) as [g|] eqn:Hfind.
    + apply (Hvisit _ _ _ entries g st Hwalked Hdepth Hig eq_refl Hfind Hst).
    + assert (Hchild : forall e, In e entries ->
                isDirectory e = true -> isSymbolicLink e = false ->
                includes SKIP_DIRECTORIES (direntName e) = false ->
                Walked git ig base basePath e (pathJoin git dirPath (direntName e)) (S depth)).
      { intros e He Hd Hs Hk.
        apply (WalkedEntry git ig base basePath _ dirPath depth entries e Hwalked Hdepth Hig
                 eq_refl Hfind He Hd Hs Hk). }
      clear Hwalked Hfind. revert st Hst Hchild.
      induction IH as [|entry rest Hentry Hrest IHrest]; intros st Hst Hchild; [exact Hst|].
      rewrite scanEntries_cons.
      destruct (isDirectory entry) eqn:Hd; cbn [andb negb];
        [|apply IHrest; [exact Hst|intros e He; apply Hchild; right; exact He]].
      destruct (isSymbolicLink entry) eqn:Hs; cbn [andb negb];
        [apply IHrest; [exact Hst|intros e He; apply Hchild; right; exact He]|].
      destruct (includes SKIP_DIRECTORIES (direntName entry)) eqn:Hk;
        (apply IHrest; [|intros e He; apply Hchild; right; exact He]); [exact Hst|].
      apply Hentry; [|exact Hst]. replace (depth + 1) with (S depth) by lia.
      apply Hchild; [left; reflexivity|exact Hd|exact Hs|exact Hk].
Qed.

(** X2.  Every record of a scan is the record of a directory that the walk
    enters: each directory on the way from the base to it is a directory and
    no symbolic link, is not named in [SKIP_DIRECTORIES], and lies in a
    directory that is within the ceiling, readable, not ignored and without
    a [.git] entry.  The directory itself is within the ceiling, not ignored,
    and a repository root.  The paths are those that [path.join] gives on
    the way from the base. *)
Theorem scanPath_records_are_walked : forall git shouldIgnorePath base basePath r,
  In r (scanPath git shouldIgnorePath base basePath) ->
  exists dir depth,
    Walked git shouldIgnorePath base basePath dir (path r) depth
    /\ depth <= MAX_DEPTH
    /\ shouldIgnorePath (path r) = false
    /\ isRepositoryRoot dir.
Proof.
  intros git ig base basePath r Hin. unfold scanPath in Hin.
  set (Q := fun r => exists dir depth,
                Walked git ig base basePath dir (path r) depth
                /\ depth <= MAX_DEPTH /\ ig (path r) = false /\ isRepositoryRoot dir).
  assert (Hall : Forall Q (repositories (scan git ig base basePath 0 (mkScanState [] [])))).
  { apply (scan_walked_invariant git ig base basePath
             (fun st => Forall Q (repositories st))).
    - intros dir dirPath depth entries gitEntry st Hwalked Hdepth Hig Hread Hfind Hst.
      apply Forall_forall. intros r' Hr'.
      destruct (visitRepository_repositories _ _ _ _ _ Hr') as [Hold|[Hfile Hnew]].
      + rewrite Forall_forall in Hst. apply Hst. exact Hold.
      + apply extractRepositoryInfo_fields in Hnew. destruct Hnew as [Hpath _].
        exists dir, depth. rewrite Hpath.
        split; [exact Hwalked|]. split; [exact Hdepth|]. split; [exact Hig|].
        exists entries, gitEntry. split; [exact Hread|]. split; [exact Hfind|exact Hfile].
    - constructor.
    - constructor. }
  rewrite Forall_forall in Hall. apply Hall. exact Hin.
Qed.

Lemma scanPath_records_are_walked_witness :
  exists dir depth,
    Walked quietGit ignoreNothing (chain 2 repositoryEntries) "/base" dir "/base/d/d" depth
    /\ depth <= MAX_DEPTH
    /\ ignoreNothing "/base/d/d" = false
    /\ isRepositoryRoot dir.
Proof.
  apply (scanPath_records_are_walked quietGit ignoreNothing (chain 2 repositoryEntries)
           "/base"
           (mkRepositoryInfo "/base/d/d" "d" [] (Some "main") false []
                             "2024-01-01T00:00:00.000Z")).
  vm_compute. left. reflexivity.
Defined.

(** ** What the walk finds *)

Lemma visitRepository_seen_grows : forall git dirPath gitEntry st,
  incl (seenPaths st) (seenPaths (visitRepository git dirPath gitEntry st)).
Proof.
  intros git dirPath gitEntry st. unfold visitRepository.
  destruct (isFile gitEntry); [apply incl_refl|].
  destruct (includes (seenPaths st) (normalize git dirPath)); [apply incl_refl|].
  destruct (extractRepositoryInfo git dirPath false); simpl; apply incl_appl, incl_refl.
Qed.

Lemma scan_seen_grows : forall git ig dir dirPath depth st,
  incl (seenPaths st) (seenPaths (scan git ig dir dirPath depth st)).
Proof.
  intros git ig dir dirPath depth st.
  apply (scan_preserves git ig (fun st' => incl (seenPaths st) (seenPaths st'))).
  - intros p g st' H. eapply incl_tran; [exact H|apply visitRepository_seen_grows].
  - apply incl_refl.
Qed.

Lemma scanEntries_seen_grows : forall git ig dirPath depth es st,
  incl (seenPaths st) (seenPaths (scanEntries git ig dirPath depth es st)).
Proof.
  intros git ig dirPath depth es st.
  apply (scanEntries_preserves git ig (fun st' => incl (seenPaths st) (seenPaths st'))).
  - intros p g st' H. eapply incl_tran; [exact H|apply visitRepository_seen_grows].
  - apply incl_refl.
Qed.

(** The loop over the entries scans every entry that it may enter. *)
Lemma scanEntries_reaches : forall git ig dirPath depth es entry st,
  In entry es ->
  isDirectory entry = true -> isSymbolicLink entry = false ->
  includes SKIP_DIRECTORIES (direntName entry) = false ->
  exists st', incl (seenPaths (scan git ig entry (pathJoin git dirPath (direntName entry))
                                    (depth + 1) st'))
                   (seenPaths (scanEntries git ig dirPath depth es st)).
Proof.
  intros git ig dirPath depth es entry.
  induction es as [|e rest IH]; intros st Hin Hd Hs Hk; [destruct Hin|].
  rewrite scanEntries_cons. destruct Hin as [->|Hin].
  - rewrite Hd, Hs, Hk. cbn [andb negb]. exists st. apply scanEntries_seen_grows.
  - destruct (isDirectory e && negb (isSymbolicLink e)); [|apply IH; assumption].
    destruct (includes SKIP_DIRECTORIES (direntName e)); apply IH; assumption.
Qed.

(** The scan of the base scans every directory that the walk enters. *)
Lemma walked_reaches : forall git ig base basePath dir dirPath depth,
  Walked git ig base basePath dir dirPath depth ->
  forall st, exists st',
    incl (seenPaths (scan git ig dir dirPath depth st'))
         (seenPaths (scan git ig base basePath 0 st)).
Proof.
  intros git ig base basePath dir dirPath depth Hwalked.
  induction Hwalked as [|dir dirPath depth entries entry Hparent IH Hdepth Hig Hread Hfind
                          Hin Hd Hs Hk]; intro st.
  - exists st. apply incl_refl.
  - destruct (IH st) as [st1 H1].
    rewrite scan_unfold in H1.
    replace (MAX_DEPTH <? depth) with false in H1 by (symmetry; apply Nat.ltb_ge; exact Hdepth).
    rewrite Hig, Hread, Hfind in H1.
    destruct (scanEntries_reaches git ig dirPath depth entries entry st1 Hin Hd Hs Hk)
      as [st2 H2].
    exists st2. replace (S depth) with (depth + 1) by lia.
    eapply incl_tran; [exact H2|exact H1].
Qed.

Lemma visitRepository_seenHaveRecords : forall git dirPath gitEntry st,
  seenHaveRecords git st -> seenHaveRecords git (visitRepository git dirPath gitEntry st).
Proof.
  intros git dirPath gitEntry st Hst. unfold visitRepository.
  destruct (isFile gitEntry); [exact Hst|].
  destruct (includes (seenPaths st) (normalize git dirPath)); [exact Hst|].
  unfold extractRepositoryInfo.
  destruct (simpleGit git dirPath) eqn:Hopen; intros p Hp Hgit; simpl in *.
  - apply in_app_or in Hp. destruct Hp as [Hp|[ <- | [] ]].
    + destruct (Hst p Hp Hgit) as [r [Hr Hnp]]. exists r.
      split; [apply in_or_app; left; exact Hr|exact Hnp].
    + eexists. split; [apply in_or_app; right; left; reflexivity|reflexivity].
  - apply in_app_or in Hp. destruct Hp as [Hp|[ <- | [] ]].
    + apply (Hst p Hp Hgit).
    + rewrite (Hgit dirPath eq_refl) in Hopen. discriminate.
Qed.

(** X3.  A repository root that the walk enters, within the ceiling and not
    ignored at the path that [path.join] gives it, is found: when
    [simpleGit] opens every directory with its normalized path, the scan
    returns a record with that normalized path. *)
Theorem scanPath_finds_walked_roots : forall git shouldIgnorePath base basePath dir dirPath depth,
  Walked git shouldIgnorePath base basePath dir dirPath depth ->
  depth <= MAX_DEPTH ->
  shouldIgnorePath dirPath = false ->
  isRepositoryRoot dir ->
  (forall q, normalize git q = normalize git dirPath -> simpleGit git q = true) ->
  exists r, In r (scanPath git shouldIgnorePath base basePath)
            /\ normalizedPath git r = normalize git dirPath.
Proof.
  intros git ig base basePath dir dirPath depth Hwalked Hdepth Hig Hroot Hgit.
  destruct Hroot as (entries & gitEntry & Hread & Hfind & Hfile).
  destruct (walked_reaches git ig base basePath dir dirPath depth Hwalked (mkScanState [] []))
    as [st1 Hreach].
  assert (Hseen : In (normalize git dirPath)
                     (seenPaths (scan git ig base basePath 0 (mkScanState [] [])))).
  { apply Hreach. rewrite scan_unfold.
    replace (MAX_DEPTH <? depth) with false by (symmetry; apply Nat.ltb_ge; exact Hdepth).
    rewrite Hig, Hread, Hfind. unfold visitRepository. rewrite Hfile.
    destruct (includes (seenPaths st1) (normalize git dirPath)) eqn:Hinc.
    - apply includes_iff. exact Hinc.
    - destruct (extractRepositoryInfo git dirPath false); simpl;
        apply in_or_app; right; left; reflexivity. }
  assert (Hrecords : seenHaveRecords git (scan git ig base basePath 0 (mkScanState [] []))).
  { apply (scan_preserves git ig (seenHaveRecords git)).
    - intros p g st. apply visitRepository_seenHaveRecords.
    - intros p []. }
  exact (Hrecords _ Hseen Hgit).
Qed.

Lemma scanPath_finds_walked_roots_witness :
  exists r, In r (scanPath quietGit ignoreNothing (chain 1 repositoryEntries) "/base")
            /\ normalizedPath quietGit r = "/base/d".
Proof.
  apply (scanPath_finds_walked_roots quietGit ignoreNothing (chain 1 repositoryEntries)
           "/base" (chain 0 repositoryEntries) "/base/d" 1).
  - apply (WalkedEntry quietGit ignoreNothing (chain 1 repositoryEntries) "/base"
             (chain 1 repositoryEntries) "/base" 0 [chain 0 repositoryEntries]
             (chain 0 repositoryEntries)).
    + apply WalkedBase.
    + unfold MAX_DEPTH. lia.
    + reflexivity.
    + reflexivity.
    + reflexivity.
    + left. reflexivity.
    + reflexivity.
    + reflexivity.
    + reflexivity.
  - unfold MAX_DEPTH. lia.
  - reflexivity.
  - exists repositoryEntries, (mkDirent ".git" KDirectory (Some [])).
    split; [reflexivity|]. split; reflexivity.
  - intros q Hq'. reflexivity.
Defined.

(** ** The scan of all configured paths *)

Lemma addScanned_merged : forall git st r,
  merged git st -> merged git (addScanned git st r).
Proof.
  intros git st r (Hnodup & Hin & Hhas). unfold addScanned.
  fold (normalizedPath git r).
  destruct (includes (mergedPaths st) (normalizedPath git r)) eqn:Hinc;
    [repeat split; assumption|].
  apply includes_false in Hinc. split; [|split]; simpl.
  - rewrite map_app. simpl.
    apply NoDup_app; [exact Hnodup|constructor; [intros []|constructor]|].
    intros p Hp [ <- | [] ]. apply in_map_iff in Hp. destruct Hp as [r' [Hr' Hin']].
    apply Hinc. rewrite <- Hr'. apply Hin. exact Hin'.
  - intros r' Hr'. apply in_app_or in Hr'. apply in_or_app.
    destruct Hr' as [Hr'|[ <- | [] ]]; [left; apply Hin; exact Hr'|right; left; reflexivity].
  - intros p Hp. apply in_app_or in Hp. destruct Hp as [Hp|[ <- | [] ]].
    + destruct (Hhas p Hp) as [r' [Hr' Hnp]]. exists r'.
      split; [apply in_or_app; left; exact Hr'|exact Hnp].
    + exists r. split; [apply in_or_app; right; left; reflexivity|reflexivity].
Qed.

Lemma addScanned_grows : forall git st r,
  incl (mergedPaths st) (mergedPaths (addScanned git st r))
  /\ In (normalizedPath git r) (mergedPaths (addScanned git st r))
  /\ (forall r', In r' (allRepositories (addScanned git st r)) ->
                 In r' (allRepositories st) \/ r' = r).
Proof.
  intros git st r. unfold addScanned. fold (normalizedPath git r).
  destruct (includes (mergedPaths st) (normalizedPath git r)) eqn:Hinc; simpl.
  - split; [apply incl_refl|]. split; [apply includes_iff; exact Hinc|]. auto.
  - split; [apply incl_appl, incl_refl|].
    split; [apply in_or_app; right; left; reflexivity|].
    intros r' Hr'. apply in_app_or in Hr'. destruct Hr' as [H|[H|[]]]; auto.
Qed.

Lemma fold_addScanned : forall git rs st,
  merged git st ->
  merged git (fold_left (addScanned git) rs st)
  /\ incl (mergedPaths st) (mergedPaths (fold_left (addScanned git) rs st))
  /\ (forall r, In r rs ->
         In (normalizedPath git r) (mergedPaths (fold_left (addScanned git) rs st)))
  /\ (forall r, In r (allRepositories (fold_left (addScanned git) rs st)) ->
         In r (allRepositories st) \/ In r rs).
Proof.
  intros git rs. induction rs as [|x rs IH]; intros st Hst; simpl.
  - split; [exact Hst|]. split; [apply incl_refl|]. split; [intros r []|auto].
  - destruct (addScanned_grows git st x) as (Hgrow & Hx & Hfrom).
    destruct (IH (addScanned git st x) (addScanned_merged git st x Hst))
      as (Hm & Hincl & Hall & Hsource).
    split; [exact Hm|]. split; [eapply incl_tran; eassumption|]. split.
    + intros r [ <- | Hr]; [apply Hincl; exact Hx|apply Hall; exact Hr].
    + intros r Hr. destruct (Hsource r Hr) as [H|H]; [|right; right; exact H].
      destruct (Hfrom r H) as [H' | -> ]; [left; exact H'|right; left; reflexivity].
Qed.

(** X4.  The scan of all configured paths merges the scans of the roots
    without duplicates: no two of its records have the same normalized path,
    each of its records is a record of the scan of some configured root, and
    each record of the scan of a configured root has a record with its
    normalized path in the result. *)
Theorem scanAllConfiguredPaths_merges : forall git shouldIgnorePath directoryAt configuredPaths,
  let result := scanAllConfiguredPaths git shouldIgnorePath directoryAt configuredPaths in
  NoDup (map (normalizedPath git) result)
  /\ (forall r, In r result ->
         exists root, In root configuredPaths
                      /\ In r (scanPath git shouldIgnorePath (directoryAt root) root))
  /\ (forall root r,
         In root configuredPaths ->
         In r (scanPath git shouldIgnorePath (directoryAt root) root) ->
         exists r', In r' result /\ normalizedPath git r' = normalizedPath git r).
Proof.
  intros git ig directoryAt roots. cbv zeta. unfold scanAllConfiguredPaths.
  assert (H : forall todo st,
             merged git st ->
             let final := fold_left (addConfigured git ig directoryAt) todo st in
             merged git final
             /\ incl (mergedPaths st) (mergedPaths final)
             /\ (forall r, In r (allRepositories final) ->
                    In r (allRepositories st)
                    \/ exists root, In root todo
                                    /\ In r (scanPath git ig (directoryAt root) root))
             /\ (forall root r, In root todo ->
                    In r (scanPath git ig (directoryAt root) root) ->
                    In (normalizedPath git r) (mergedPaths final))).
  { induction todo as [|root todo IH]; intros st Hst; cbv zeta; simpl.
    - split; [exact Hst|]. split; [apply incl_refl|]. split; [auto|intros root r []].
    - unfold addConfigured at 2 4 6 8.
      destruct (fold_addScanned git (scanPath git ig (directoryAt root) root) st Hst)
        as (Hm & Hincl & Hall & Hsource).
      destruct (IH _ Hm) as (Hm' & Hincl' & Hsource' & Hall').
      split; [exact Hm'|]. split; [eapply incl_tran; eassumption|]. split.
      + intros r Hr. destruct (Hsource' r Hr) as [H|[root' [Hroot' H]]].
        * destruct (Hsource r H) as [H'|H']; [left; exact H'|].
          right. exists root. split; [left; reflexivity|exact H'].
        * right. exists root'. split; [right; exact Hroot'|exact H].
      + intros root' r [ <- | Hroot'] Hr.
        * apply Hincl'. apply Hall. exact Hr.
        * apply (Hall' root' r Hroot' Hr). }
  assert (Hempty : merged git (mkMergeState [] [])).
  { split; [constructor|]. split; [intros r []|intros p []]. }
  destruct (H roots (mkMergeState [] []) Hempty) as (Hm & _ & Hsource & Hall).
  destruct Hm as (Hnodup & _ & Hhas).
  split; [exact Hnodup|]. split.
  - intros r Hr. destruct (Hsource r Hr) as [[]|Hfrom]. exact Hfrom.
  - intros root r Hroot Hr. apply Hhas. apply (Hall root r Hroot Hr).
Qed.

End WalkFacts.

(** * More properties of the worktree listing *)

Module ParseFacts.
Import JS Scanner Examples Notions MoreNotions.
#[local] Open Scope string_scope.
#[local] Open Scope list_scope.

Lemma pushCurrent_same_path : forall (done : list WorktreeInfo) wt wt',
  wtPath wt' = wtPath wt ->
  map wtPath (pushCurrent (done, Some wt')) = map wtPath (pushCurrent (done, Some wt)).
Proof.
  intros done wt wt' Hpath. unfold pushCurrent. simpl. rewrite Hpath.
  destruct (nonEmpty (wtPath wt)); [|reflexivity].
  rewrite !map_app. simpl. rewrite Hpath. reflexivity.
Qed.

(** What one line adds to the paths of the records that the loop will have
    pushed. *)
Lemma parseLine_paths : forall st line,
  map wtPath (pushCurrent (parseLine st line))
  = map wtPath (pushCurrent st) ++ worktreeLinePaths [line].
Proof.
  intros [done current] line. unfold parseLine, worktreeLinePaths.
  cbn [filter map snd fst].
  destruct (startsWith line "worktree ") eqn:Hwt.
  - cbn [filter map]. unfold pushCurrent at 1. cbn [snd fst wtPath].
    destruct (nonEmpty (substringFrom (String.length "worktree ") line)).
    + rewrite map_app. reflexivity.
    + rewrite app_nil_r. reflexivity.
  - cbn [filter map]. rewrite app_nil_r.
    destruct (startsWith line "HEAD ").
    { destruct current as [wt|]; [|reflexivity].
      destruct (nonEmpty (wtPath wt)); [|reflexivity].
      apply pushCurrent_same_path. reflexivity. }
    destruct (startsWith line "branch ").
    { destruct current as [wt|]; [|reflexivity].
      destruct (nonEmpty (wtPath wt)); [|reflexivity].
      apply pushCurrent_same_path. reflexivity. }
    destruct (String.eqb line "detached").
    { destruct current as [wt|]; [|reflexivity].
      destruct (nonEmpty (wtPath wt)); [|reflexivity].
      apply pushCurrent_same_path. reflexivity. }
    destruct (String.eqb line ""); [|reflexivity].
    destruct (hasPath current); reflexivity.
Qed.

Lemma worktreeLinePaths_app : forall l l',
  worktreeLinePaths (l ++ l') = worktreeLinePaths l ++ worktreeLinePaths l'.
Proof.
  intros l l'. unfold worktreeLinePaths. rewrite filter_app, map_app, filter_app. reflexivity.
Qed.

Lemma parse_fold_paths : forall lines st,
  map wtPath (pushCurrent (fold_left parseLine lines st))
  = map wtPath (pushCurrent st) ++ worktreeLinePaths lines.
Proof.
  induction lines as [|line lines IH]; intro st; simpl.
  - rewrite app_nil_r. reflexivity.
  - rewrite IH, parseLine_paths, <- app_assoc.
    rewrite <- (worktreeLinePaths_app [line] lines). reflexivity.
Qed.

Lemma completeWorktree_fields : forall git repoPath wt,
  wtPath (completeWorktree git repoPath wt) = wtPath wt
  /\ wtName (completeWorktree git repoPath wt) = basename git (wtPath wt)
  /\ isMain (completeWorktree git repoPath wt)
     = String.eqb (normalize git (wtPath wt)) (normalize git repoPath)
  /\ branch (completeWorktree git repoPath wt) = branch wt
  /\ isDetached (completeWorktree git repoPath wt) = isDetached wt.
Proof.
  intros git repoPath wt. unfold completeWorktree.
  destruct (simpleGit git (wtPath wt)); [|simpl; tauto].
  destruct (log git (wtPath wt)) as [[latest|]|]; simpl; tauto.
Qed.

(** X5.  The worktrees of an extracted record follow the listing: their
    paths are the non-empty paths of the [worktree] lines, one worktree for
    each such line and in the order of the lines, whatever else the listing
    holds and wherever its blank lines are; none when the listing fails.
    Each has the base name of its path as its name and is the main one
    exactly when its normalized path is that of the repository. *)
Theorem extracted_worktrees_follow_listing : forall git repoPath isGitFile r,
  extractRepositoryInfo git repoPath isGitFile = Some r ->
  map wtPath (worktrees r)
  = match worktreeListPorcelain git repoPath with
    | Ok worktreeList => worktreeLinePaths (split newline worktreeList)
    | Throws => []
    end
  /\ (forall wt, In wt (worktrees r) ->
        wtName wt = basename git (wtPath wt)
        /\ isMain wt = String.eqb (normalize git (wtPath wt)) (normalize git repoPath)).
Proof.
  intros git repoPath isGitFile r Hr. unfold extractRepositoryInfo in Hr.
  destruct (simpleGit git repoPath); [|discriminate].
  injection Hr as <-. cbn [worktrees]. unfold extractWorktrees.
  destruct (worktreeListPorcelain git repoPath) as [text|].
  - split.
    + rewrite map_map.
      rewrite (map_ext _ wtPath
                 (fun wt => proj1 (completeWorktree_fields git repoPath wt))).
      unfold parseWorktreeList. rewrite parse_fold_paths. reflexivity.
    + intros wt Hwt. apply in_map_iff in Hwt. destruct Hwt as [wt0 [<- _]].
      destruct (completeWorktree_fields git repoPath wt0) as (Hp & Hn & Hm & _).
      rewrite Hp. split; assumption.
  - split; [reflexivity|intros wt []].
Qed.

Lemma extracted_worktrees_follow_listing_witness :
  map wtPath (extractWorktrees quietGit "/r") = ["/r"; "/r-wt"].
Proof.
  assert (Hr : extractRepositoryInfo quietGit "/r" false
               = Some (mkRepositoryInfo "/r" "r" [] (Some "main") false
                         (extractWorktrees quietGit "/r") (now quietGit)))
    by reflexivity.
  exact (proj1 (extracted_worktrees_follow_listing quietGit "/r" false _ Hr)).
Defined.

End ParseFacts.

(** * Properties of the two URL functions *)

Module UrlFacts.
Import JS Scanner TreeNodes Provider Examples Notions MoreNotions.
#[local] Open Scope string_scope.
#[local] Open Scope list_scope.

Lemma split_nonempty : forall sep s, split sep s <> [].
Proof.
  intros sep s. destruct s as [|c s]; simpl; [discriminate|].
  destruct (Ascii.eqb c sep); [discriminate|].
  destruct (split sep s); discriminate.
Qed.

(** No piece of a split holds the separator. *)
Lemma split_pieces : forall sep s piece,
  In piece (split sep s) -> allChars (fun c => negb (Ascii.eqb c sep)) piece = true.
Proof.
  intros sep s. induction s as [|c s IH]; intros piece Hin; simpl in Hin.
  - destruct Hin as [ <- | [] ]. reflexivity.
  - destruct (Ascii.eqb c sep) eqn:Hc.
    + destruct Hin as [ <- | Hin]; [reflexivity|apply IH; exact Hin].
    + destruct (split sep s) as [|p ps] eqn:Hsplit.
      * destruct Hin as [ <- | [] ]. simpl. rewrite Hc. reflexivity.
      * destruct Hin as [ <- | Hin].
        -- simpl. rewrite Hc. simpl. apply IH. left. reflexivity.
        -- apply IH. right. exact Hin.
Qed.

Lemma split_piece : forall sep piece,
  allChars (fun c => negb (Ascii.eqb c sep)) piece = true -> split sep piece = [piece].
Proof.
  intros sep piece. induction piece as [|c s IH]; intro H; simpl in *; [reflexivity|].
  apply andb_prop in H. destruct H as [Hc Hs].
  apply negb_true_iff in Hc. rewrite Hc, (IH Hs). reflexivity.
Qed.

Lemma split_append : forall sep piece rest,
  allChars (fun c => negb (Ascii.eqb c sep)) piece = true ->
  split sep (piece ++ String sep rest)%string = piece :: split sep rest.
Proof.
  intros sep piece rest. induction piece as [|c s IH]; intro H; simpl in *.
  - rewrite Ascii.eqb_refl. reflexivity.
  - apply andb_prop in H. destruct H as [Hc Hs].
    apply negb_true_iff in Hc. rewrite Hc, (IH Hs). reflexivity.
Qed.

(** Splitting what [join] has joined gives the pieces back. *)
Lemma split_join : forall pieces,
  pieces <> [] ->
  Forall (fun piece => allChars (fun c => negb (Ascii.eqb c slash)) piece = true) pieces ->
  split slash (join "/" pieces) = pieces.
Proof.
  induction pieces as [|piece rest IH]; intros Hne Hall; [contradiction|].
  inversion Hall as [|? ? Hpiece Hrest]; subst.
  destruct rest as [|next rest'].
  - simpl. apply split_piece. exact Hpiece.
  - change (join "/" (piece :: next :: rest'))
      with (piece ++ String slash (join "/" (next :: rest')))%string.
    rewrite split_append by exact Hpiece.
    rewrite IH; [reflexivity|discriminate|exact Hrest].
Qed.

Lemma filter_all : forall {A : Type} (f : A -> bool) l,
  Forall (fun x => f x = true) l -> filter f l = l.
Proof.
  intros A f l H. induction H as [|x l Hx _ IH]; simpl; [reflexivity|].
  rewrite Hx, IH. reflexivity.
Qed.

Lemma segmentsOf_pieces : forall s,
  Forall (fun piece => allChars (fun c => negb (Ascii.eqb c slash)) piece = true)
         (segmentsOf s)
  /\ Forall (fun piece => nonEmpty piece = true) (segmentsOf s).
Proof.
  intro s. unfold segmentsOf. split; apply Forall_forall; intros piece Hin;
    apply filter_In in Hin; destruct Hin as [Hin Hne].
  - apply (split_pieces slash s). exact Hin.
  - exact Hne.
Qed.

(** The segments of joined segments are the segments. *)
Lemma segmentsOf_join : forall pieces,
  pieces <> [] ->
  Forall (fun piece => allChars (fun c => negb (Ascii.eqb c slash)) piece = true) pieces ->
  Forall (fun piece => nonEmpty piece = true) pieces ->
  segmentsOf (join "/" pieces) = pieces.
Proof.
  intros pieces Hne Hfree Hfull. unfold segmentsOf.
  rewrite (split_join pieces Hne Hfree). apply filter_all. exact Hfull.
Qed.

Lemma Forall_removelast : forall {A : Type} (P : A -> Prop) l,
  Forall P l -> Forall P (removelast l).
Proof.
  intros A P l H. induction H as [|x l Hx Hl IH]; [constructor|].
  simpl. destruct l; [constructor|]. constructor; assumption.
Qed.

Lemma extractOwner_segments : forall remoteUrl,
  segmentsOf (extractOwner remoteUrl)
  = match segmentsOf (pathPartOf remoteUrl) with
    | [] => ["unknown"]
    | [segment] => [segment]
    | segments => removelast segments
    end.
Proof.
  intro remoteUrl. unfold extractOwner. cbv zeta.
  destruct (segmentsOf_pieces (pathPartOf remoteUrl)) as [Hfree Hfull].
  destruct (nonEmpty (pathPartOf remoteUrl)) eqn:Hpart; cbn [negb].
  - destruct (segmentsOf (pathPartOf remoteUrl)) as [|s1 [|s2 rest]] eqn:Hsegs.
    + reflexivity.
    + inversion Hfree; inversion Hfull; subst.
      apply (segmentsOf_join [s1]); [discriminate| |]; constructor; auto.
    + apply segmentsOf_join.
      * simpl. discriminate.
      * apply Forall_removelast. exact Hfree.
      * apply Forall_removelast. exact Hfull.
  - destruct (pathPartOf remoteUrl); [reflexivity|discriminate].
Qed.

Lemma extractOwner_has_segments : forall remoteUrl,
  segmentsOf (extractOwner remoteUrl) <> [].
Proof.
  intro remoteUrl. rewrite extractOwner_segments.
  destruct (segmentsOf (pathPartOf remoteUrl)) as [|s1 [|s2 rest]]; simpl; discriminate.
Qed.

(** X6.  The owner path of a URL always has segments, so that
    [getOwnerNodes] files every repository that has a fetch URL: they are
    the segments of the path part of the URL without the last one, the
    one segment when the path part has only one, and [unknown] when it has
    none. *)
Theorem owner_path_segments : forall remoteUrl,
  segmentsOf (extractOwner remoteUrl)
  = match segmentsOf (pathPartOf remoteUrl) with
    | [] => ["unknown"]
    | [segment] => [segment]
    | segments => removelast segments
    end
  /\ segmentsOf (extractOwner remoteUrl) <> []
  /\ (forall domain currentWorkspacePath root repo,
        firstFetchUrl repo = Some remoteUrl ->
        addToOwnerTree domain currentWorkspacePath root repo
        = attach domain currentWorkspacePath (segmentsOf (extractOwner remoteUrl)) ""
                 repo root).
Proof.
  intro remoteUrl. split; [apply extractOwner_segments|].
  split; [apply extractOwner_has_segments|].
  intros domain cwp root repo Hurl. unfold addToOwnerTree. rewrite Hurl.
  pose proof (extractOwner_has_segments remoteUrl) as Hne.
  destruct (segmentsOf (extractOwner remoteUrl)); [contradiction|reflexivity].
Qed.

(** ** The forms of a remote URL *)

Lemma longestFirst_at : forall {A : Type} (f : nat -> option A) n m a,
  0 < m -> m <= n -> f m = Some a ->
  (forall k, m < k -> k <= n -> f k = None) ->
  longestFirst n f = Some a.
Proof.
  intros A f n m a Hpos. induction n as [|n IH]; intros Hle Hm Hnone; [lia|].
  simpl. destruct (Nat.eq_dec m (S n)) as [ <- | Hneq].
  - rewrite Hm. reflexivity.
  - rewrite (Hnone (S n)) by lia. apply IH; [lia|exact Hm|].
    intros k Hk Hkn. apply Hnone; lia.
Qed.

Lemma length_append : forall a b,
  String.length (a ++ b)%string = String.length a + String.length b.
Proof. induction a as [|c a IH]; intro b; simpl; [reflexivity|rewrite IH; reflexivity]. Qed.

Lemma substringTo_append : forall a b, substringTo (String.length a) (a ++ b)%string = a.
Proof. induction a as [|c a IH]; intro b; simpl; [reflexivity|rewrite IH; reflexivity]. Qed.

Lemma substringFrom_append : forall a b, substringFrom (String.length a) (a ++ b)%string = b.
Proof. induction a as [|c a IH]; intro b; simpl; [reflexivity|apply IH]. Qed.

(** A prefix that reaches past [a] holds the character after [a]. *)
Lemma allChars_past : forall p a c b k,
  p c = false -> String.length a < k ->
  allChars p (substringTo k (a ++ String c b)%string) = false.
Proof.
  intros p a c b. induction a as [|x a IH]; intros k Hc Hk; simpl in *.
  - destruct k; [lia|]. simpl. rewrite Hc. reflexivity.
  - destruct k; [lia|]. simpl. rewrite (IH k Hc) by lia. apply andb_false_r.
Qed.

(** The greedy run at the start of a string stops before the first
    character that is not of the run. *)
Lemma captureRun_stops : forall p a c b,
  nonEmpty a = true -> allChars p a = true -> p c = false ->
  captureRun p (a ++ String c b)%string = Some a.
Proof.
  intros p a c b Hne Ha Hc. unfold captureRun.
  apply (longestFirst_at _ _ (String.length a)).
  - destruct a; [discriminate|simpl; lia].
  - rewrite length_append. lia.
  - rewrite substringTo_append, Ha. reflexivity.
  - intros k Hk _. rewrite (allChars_past p a c b k Hc Hk). reflexivity.
Qed.

Lemma captureAfterHost_stops : forall host sep a c b q,
  nonEmpty a = true -> allChars host a = true -> host c = false -> sep c = true ->
  capturePath b = Some q ->
  captureAfterHost host sep (a ++ String c b)%string = Some q.
Proof.
  intros host sep a c b q Hne Ha Hc Hsep Hq. unfold captureAfterHost.
  apply (longestFirst_at _ _ (String.length a)).
  - destruct a; [discriminate|simpl; lia].
  - rewrite length_append. lia.
  - rewrite substringTo_append, Ha, substringFrom_append, Hsep. exact Hq.
  - intros k Hk _. rewrite (allChars_past host a c b k Hc Hk). reflexivity.
Qed.

(** The lazy path with [.git] after it: the suffix is left out. *)
Lemma capturePath_git : forall p,
  nonEmpty p = true -> allChars (fun c => negb (isLineTerminator c)) p = true ->
  capturePath (p ++ ".git")%string = Some p.
Proof.
  induction p as [|c p IH]; intros Hne Hp; [discriminate|].
  simpl in Hp. apply andb_prop in Hp. destruct Hp as [Hc Hp].
  apply negb_true_iff in Hc.
  change (capturePath (String c (p ++ ".git")%string) = Some (String c p)).
  cbn [capturePath]. rewrite Hc.
  destruct p as [|c' p'].
  - reflexivity.
  - replace (String.eqb (String c' p' ++ ".git")%string "") with false by reflexivity.
    replace (String.eqb (String c' p' ++ ".git")%string ".git") with false.
    + cbn [orb]. rewrite IH; [reflexivity|reflexivity|exact Hp].
    + symmetry. apply String.eqb_neq. intro Heq.
      apply (f_equal String.length) in Heq. rewrite length_append in Heq.
      simpl in Heq. lia.
Qed.

Lemma allChars_append : forall p a b,
  allChars p (a ++ b)%string = allChars p a && allChars p b.
Proof.
  intros p a b. induction a as [|c a IH]; simpl; [reflexivity|].
  rewrite IH, andb_assoc. reflexivity.
Qed.

Lemma join_plain : forall pieces,
  pieces <> [] -> Forall plainSegment pieces ->
  nonEmpty (join "/" pieces) = true
  /\ allChars (fun c => negb (isLineTerminator c)) (join "/" pieces) = true.
Proof.
  induction pieces as [|piece rest IH]; intros Hne Hall; [contradiction|].
  inversion Hall as [|? ? (Hfull & _ & Hline) Hrest]; subst.
  destruct rest as [|next rest'].
  - simpl. split; assumption.
  - change (join "/" (piece :: next :: rest'))
      with (piece ++ String slash (join "/" (next :: rest')))%string.
    destruct (IH ltac:(discriminate) Hrest) as [_ Hl]. split.
    + destruct piece; [discriminate|reflexivity].
    + rewrite allChars_append, Hline. cbn [allChars andb]. rewrite Hl. reflexivity.
Qed.

Lemma host_without_slash : forall h,
  allChars notColonSlash h = true -> allChars notSlash h = true.
Proof.
  induction h as [|c h IH]; intro Hhost; [reflexivity|].
  simpl in *. apply andb_prop in Hhost. destruct Hhost as [Hc Hh].
  rewrite (IH Hh), andb_true_r. unfold notColonSlash in Hc. unfold notSlash.
  destruct (isSlash c); [rewrite orb_true_r in Hc; discriminate|reflexivity].
Qed.

(** What is left of a URL of each form after the prefixes. *)
Lemma after_https : forall x,
  afterSshPrefix ("https://" ++ x) = [] /\ afterHttpPrefix ("https://" ++ x) = [x].
Proof. intros [|c x]; split; reflexivity. Qed.

Lemma after_http : forall x,
  afterSshPrefix ("http://" ++ x) = [] /\ afterHttpPrefix ("http://" ++ x) = [x].
Proof. intros [|c x]; split; reflexivity. Qed.

Lemma after_git : forall x, afterSshPrefix ("git@" ++ x) = [x].
Proof. intros [|c x]; reflexivity. Qed.

Lemma after_ssh_git : forall x,
  afterSshPrefix ("ssh://git@" ++ x) = [x; ("git@" ++ x)%string].
Proof. intros [|c x]; reflexivity. Qed.

(** X7.  A remote URL in one of its usual forms, with or without [git@],
    over [https], [http] or [ssh] and ending in [.git], has its host as
    domain and the path without the repository name as owner path; a
    repository directly below the host has its own name as owner. *)
Theorem usual_url_forms : forall h owners name remoteUrl,
  plainHost h ->
  Forall plainSegment (owners ++ [name]) ->
  In remoteUrl (remoteUrlForms h owners name) ->
  extractDomain remoteUrl = h
  /\ extractOwner remoteUrl = match owners with
                              | [] => name
                              | _ => join "/" owners
                              end.
Proof.
  intros h owners name remoteUrl [Hne Hhost] Hsegs Hin.
  assert (Hnil : owners ++ [name] <> []) by (destruct owners; discriminate).
  destruct (join_plain _ Hnil Hsegs) as [Hpne Hpline].
  assert (Hslash : allChars notSlash h = true) by (apply host_without_slash; exact Hhost).
  assert (Hsegments : segmentsOf (join "/" (owners ++ [name])) = owners ++ [name]).
  { apply segmentsOf_join; [exact Hnil| |].
    - eapply Forall_impl; [|exact Hsegs]. intros s (_ & Hs & _). exact Hs.
    - eapply Forall_impl; [|exact Hsegs]. intros s (Hs & _). exact Hs. }
  assert (Howner : forall url,
             pathPartOf url = join "/" (owners ++ [name]) ->
             extractOwner url = match owners with [] => name | _ => join "/" owners end).
  { intros url Hpart. unfold extractOwner. cbv zeta. rewrite Hpart, Hpne, Hsegments.
    cbn [negb]. destruct owners as [|o os]; [reflexivity|].
    destruct os as [|o' os']; [reflexivity|].
    rewrite <- (removelast_last (o :: o' :: os') name) at 2. reflexivity. }
  set (p := join "/" (owners ++ [name])) in *.
  assert (Hpath : capturePath (p ++ ".git")%string = Some p)
    by (apply capturePath_git; assumption).
  unfold remoteUrlForms in Hin. cbv zeta in Hin. fold p in Hin.
  destruct Hin as [ <- | [ <- | [ <- | [ <- | [] ] ] ] ];
    (split; [unfold extractDomain|apply Howner; unfold pathPartOf]).
  - rewrite (proj1 (after_https _)), (proj2 (after_https _)). cbn [firstMatch].
    change ("/" ++ p ++ ".git")%string with (String slash (p ++ ".git")%string).
    rewrite (captureRun_stops notSlash h slash _ Hne Hslash eq_refl). reflexivity.
  - rewrite (proj1 (after_https _)), (proj2 (after_https _)). cbn [firstMatch].
    change ("/" ++ p ++ ".git")%string with (String slash (p ++ ".git")%string).
    rewrite (captureAfterHost_stops notSlash isSlash h slash _ p
               Hne Hslash eq_refl eq_refl Hpath).
    reflexivity.
  - rewrite (proj1 (after_http _)), (proj2 (after_http _)). cbn [firstMatch].
    change ("/" ++ p ++ ".git")%string with (String slash (p ++ ".git")%string).
    rewrite (captureRun_stops notSlash h slash _ Hne Hslash eq_refl). reflexivity.
  - rewrite (proj1 (after_http _)), (proj2 (after_http _)). cbn [firstMatch].
    change ("/" ++ p ++ ".git")%string with (String slash (p ++ ".git")%string).
    rewrite (captureAfterHost_stops notSlash isSlash h slash _ p
               Hne Hslash eq_refl eq_refl Hpath).
    reflexivity.
  - rewrite after_git. cbn [firstMatch].
    change (":" ++ p ++ ".git")%string with (String ":"%char (p ++ ".git")%string).
    rewrite (captureRun_stops notColonSlash h ":"%char _ Hne Hhost eq_refl). reflexivity.
  - rewrite after_git. cbn [firstMatch].
    change (":" ++ p ++ ".git")%string with (String ":"%char (p ++ ".git")%string).
    rewrite (captureAfterHost_stops notColonSlash colonSlashSpace h ":"%char _ p
               Hne Hhost eq_refl eq_refl Hpath).
    reflexivity.
  - rewrite after_ssh_git. cbn [firstMatch].
    change ("/" ++ p ++ ".git")%string with (String slash (p ++ ".git")%string).
    rewrite (captureRun_stops notColonSlash h slash _ Hne Hhost eq_refl). reflexivity.
  - rewrite after_ssh_git. cbn [firstMatch].
    change ("/" ++ p ++ ".git")%string with (String slash (p ++ ".git")%string).
    rewrite (captureAfterHost_stops notColonSlash colonSlashSpace h slash _ p
               Hne Hhost eq_refl eq_refl Hpath).
    reflexivity.
Qed.

Lemma usual_url_forms_witness :
  extractDomain "git@github.com:acme/tools/widgets.git" = "github.com"
  /\ extractOwner "git@github.com:acme/tools/widgets.git" = "acme/tools".
Proof.
  apply (usual_url_forms "github.com" ["acme"; "tools"] "widgets").
  - split; reflexivity.
  - repeat constructor.
  - right. right. left. reflexivity.
Defined.

End UrlFacts.

(** * More properties of the view *)

Module ViewFacts.
Import DecorationNotions.
Import JS Scanner TreeNodes Provider Examples Notions MoreNotions.
Import SortFacts NodeFacts TreeFacts PermutationFacts UrlFacts.
#[local] Open Scope string_scope.
#[local] Open Scope list_scope.
#[local] Open Scope nat_scope.

Lemma ownerSegments_nonempty : forall x url,
  firstFetchUrl x = Some url -> ownerSegments x <> [].
Proof.
  intros x url Hurl. unfold ownerSegments. rewrite Hurl. apply extractOwner_has_segments.
Qed.

Lemma In_domainGroup : forall repos D x,
  In x (domainGroup repos D) <-> In x repos /\ inDomain D x = true.
Proof. intros repos D x. unfold domainGroup. apply filter_In. Qed.

(** The domain node of a repository with a fetch URL is a root of the view. *)
Lemma domain_node_shown : forall lc repos cwp x url,
  In x repos -> firstFetchUrl x = Some url ->
  Shown lc repos cwp
    (Domain (newDomainNode (extractDomain url)
                           (domainGroup repos (extractDomain url)) cwp)).
Proof.
  intros lc repos cwp x url Hin Hurl. apply ShownRoot. simpl.
  unfold getRemoteViewRootNodes. destruct repos as [|y repos]; [destruct Hin|].
  apply in_or_app. left.
  assert (Hkey : In (extractDomain url) (map fst (buildDomainMap (y :: repos)))).
  { apply domain_key. intro Hempty.
    assert (Hx : In x (domainGroup (y :: repos) (extractDomain url))).
    { apply In_domainGroup. split; [exact Hin|].
      unfold inDomain. rewrite Hurl. apply String.eqb_refl. }
    rewrite Hempty in Hx. destruct Hx. }
  apply in_map_iff in Hkey. destruct Hkey as [[D g] [HD Hentry]]. simpl in HD. subst D.
  apply in_map_iff. exists (extractDomain url, g). split; [|exact Hentry].
  simpl. rewrite (buildDomainMap_entry _ _ _ Hentry). reflexivity.
Qed.

(** The children that an owner node with children answers are its child
    nodes, each with its expansion state updated. *)
Lemma child_is_answered : forall lc cwp D L q o0 k c,
  Grown D L q o0 ->
  In (k, inl c) (children o0) ->
  In (inl (updateExpansionState cwp c))
     (TreeNodes.getChildren lc (updateExpansionState cwp o0) cwp).
Proof.
  intros lc cwp D L q o0 k c Hgrown Hin. unfold TreeNodes.getChildren.
  rewrite updateExpansionState_children.
  assert (Hv : In (inl (updateExpansionState cwp c))
                  (mapValues (map (updateChild cwp) (children o0)))).
  { unfold mapValues. rewrite map_map. apply in_map_iff.
    exists (k, inl c). split; [reflexivity|exact Hin]. }
  destruct (map (updateChild cwp) (children o0)) as [|e es] eqn:Hcs; [destruct Hv|].
  cbn [List.length Nat.ltb Nat.leb]. apply sort_In. exact Hv.
Qed.

(** The leaves that an owner node without children answers are the
    repositories filed at it. *)
Lemma leaf_is_answered : forall lc cwp D L q o0 x,
  Grown D L q o0 ->
  children o0 = [] ->
  In x (bucketOf L q) ->
  In (inr (newRepositoryNode x cwp))
     (TreeNodes.getChildren lc (updateExpansionState cwp o0) cwp).
Proof.
  intros lc cwp D L q o0 x Hgrown Hnone Hx. unfold TreeNodes.getChildren.
  rewrite updateExpansionState_children, Hnone. cbn [map List.length Nat.ltb Nat.leb].
  destruct (updateExpansionState_fields cwp o0) as (_ & _ & -> & _).
  destruct (grown_inv _ _ _ _ Hgrown) as (cs & -> & _). simpl.
  apply in_map_iff. exists x. split; [reflexivity|exact Hx].
Qed.

(** From a node whose answers are shown down to the repository. *)
Lemma descend_to_repository : forall lc repos cwp D x rest q o0,
  In x (domainGroup repos D) ->
  (forall x' k t, In x' (domainGroup repos D) ->
                  ownerSegments x' <> ownerSegments x ++ k :: t) ->
  ownerSegments x <> [] ->
  ownerSegments x = q ++ rest ->
  Grown D (domainGroup repos D) q o0 ->
  (forall v, In v (TreeNodes.getChildren lc (updateExpansionState cwp o0) cwp) ->
             Shown lc repos cwp (ofOwnerChild v)) ->
  Shown lc repos cwp (Repository (newRepositoryNode x cwp)).
Proof.
  intros lc repos cwp D x rest. induction rest as [|k rest IH];
    intros q o0 Hx Hlast Hne Hsegs Hgrown Hshown.
  - rewrite app_nil_r in Hsegs.
    assert (Hnone : children o0 = []).
    { destruct (grown_inv _ _ _ _ Hgrown) as (cs & -> & _ & _ & _ & Hkeys). simpl.
      destruct cs as [|[k v] cs]; [reflexivity|].
      destruct (Hkeys k (or_introl eq_refl)) as (x' & t & Hx' & Hseg').
      exfalso. apply (Hlast x' k t Hx'). rewrite Hsegs. exact Hseg'. }
    apply (Hshown (inr (newRepositoryNode x cwp))).
    apply (leaf_is_answered lc cwp D _ q o0 x Hgrown Hnone).
    apply In_bucketOf. split; [exact Hx|]. split; [exact Hsegs|].
    rewrite <- Hsegs. exact Hne.
  - destruct (grown_inv _ _ _ _ Hgrown) as (cs & Ho0 & _ & Hchildren & Hcover & _).
    destruct (proj1 (in_map_iff _ _ _) (Hcover x k rest Hx Hsegs)) as [[k' v] [Hk Hin]].
    simpl in Hk. subst k'.
    destruct (Hchildren k v Hin) as [c [-> Hc]].
    assert (Hinc : In (k, inl c) (children o0)) by (rewrite Ho0; exact Hin).
    pose proof (child_is_answered lc cwp D _ q o0 k c Hgrown Hinc) as Hanswer.
    apply (IH (q ++ [k]) c Hx Hlast Hne).
    + rewrite <- app_assoc. exact Hsegs.
    + exact Hc.
    + intros v Hv.
      apply (ShownChild lc repos cwp (Owner (updateExpansionState cwp c))).
      * exact (Hshown _ Hanswer).
      * simpl. apply in_map. exact Hv.
Qed.

(** X8.  A repository is a leaf of the view unless another repository of
    its domain has an owner path that continues its own: a repository
    without a remote is below the local group, and one with a fetch URL is
    below the owner node of its owner path. *)
Theorem unshadowed_repositories_are_shown :
  forall localeCompare currentWorkspacePath repositories r,
  In r repositories ->
  (forall url r' k t,
      firstFetchUrl r = Some url ->
      In r' repositories -> inDomain (extractDomain url) r' = true ->
      ownerSegments r' <> ownerSegments r ++ k :: t) ->
  Shown localeCompare repositories currentWorkspacePath
        (Repository (newRepositoryNode r currentWorkspacePath)).
Proof.
  intros lc cwp repos r Hin Hlast.
  destruct (firstFetchUrl r) as [url|] eqn:Hurl.
  - set (D := extractDomain url).
    assert (Hr : In r (domainGroup repos D)).
    { apply In_domainGroup. split; [exact Hin|].
      unfold inDomain. rewrite Hurl. apply String.eqb_refl. }
    apply (descend_to_repository lc repos cwp D r (ownerSegments r) []
             (fold_left (addToOwnerTree D cwp) (domainGroup repos D)
                        (newOwnerNode "" "" [] (Some D) cwp)) Hr).
    + intros x' k t Hx'. apply In_domainGroup in Hx'. destruct Hx' as [Hx' HD].
      apply (Hlast url x' k t eq_refl Hx' HD).
    + apply (ownerSegments_nonempty r url Hurl).
    + reflexivity.
    + apply grown_fold.
    + intros v Hv.
      apply (ShownChild lc repos cwp (Domain (newDomainNode D (domainGroup repos D) cwp))).
      * apply (domain_node_shown lc repos cwp r url Hin Hurl).
      * simpl. unfold getOwnerNodes, ownerTree. apply in_map. exact Hv.
  - assert (Hlocal : In r (reposWithoutRemote repos)).
    { unfold reposWithoutRemote. apply filter_In. split; [exact Hin|].
      rewrite Hurl. reflexivity. }
    apply (ShownChild lc repos cwp (LocalGroup (newLocalGroupNode (reposWithoutRemote repos)))).
    + apply ShownRoot. simpl. unfold getRemoteViewRootNodes.
      destruct repos as [|y repos]; [destruct Hin|].
      apply in_or_app. right.
      destruct (reposWithoutRemote (y :: repos)) as [|z zs]; [destruct Hlocal|].
      left. reflexivity.
    + simpl. apply in_map_iff. exists r. split; [reflexivity|exact Hlocal].
Qed.

Lemma unshadowed_repositories_are_shown_witness :
  Shown codeUnitCompare [directRepository; nestedRepository] None
        (Repository (newRepositoryNode nestedRepository None)).
Proof.
  apply (unshadowed_repositories_are_shown codeUnitCompare None
           [directRepository; nestedRepository] nestedRepository).
  - right. left. reflexivity.
  - intros url r' k t Hurl [ <- | [ <- | [] ] ] _; vm_compute; intro Heq.
    + destruct t; discriminate.
    + destruct t; discriminate.
Defined.

(** ** The expansion state *)





(** ** The counts of [updateDescriptions] *)

Lemma updateDescriptions_node : forall o f r d i cs,
  updateDescriptions (mkOwnerNode o f r d i cs) = List.length r + sumCounts cs.
Proof. intros. reflexivity. Qed.

Lemma firstn_prefix : forall (p t : list string), firstn (List.length p) (p ++ t) = p.
Proof. induction p as [|a p IH]; intro t; simpl; [reflexivity|rewrite IH; reflexivity]. Qed.

Lemma filedBelow_iff : forall p x,
  filedBelow p x = true
  <-> ownerSegments x <> [] /\ exists t, ownerSegments x = p ++ t.
Proof.
  intros p x. unfold filedBelow.
  destruct (ownerSegments x) as [|s0 segs] eqn:Hsegs.
  - split; [discriminate|]. intros [H _]. contradiction.
  - destruct (list_eq_dec string_dec (firstn (List.length p) (s0 :: segs)) p) as [Heq|Hneq].
    + split; [intros _|reflexivity]. split; [discriminate|].
      exists (skipn (List.length p) (s0 :: segs)).
      rewrite <- Heq at 1. symmetry. apply firstn_skipn.
    + split; [discriminate|]. intros [_ [t Ht]]. exfalso. apply Hneq.
      rewrite Ht. apply firstn_prefix.
Qed.

Lemma count_cons : forall (f : RepositoryInfo -> bool) x L,
  List.length (filter f (x :: L)) = indicator (f x) + List.length (filter f L).
Proof. intros f x L. simpl. destruct (f x); reflexivity. Qed.

Lemma list_sum_add : forall {A : Type} (f g : A -> nat) l,
  list_sum (map (fun k => f k + g k) l) = list_sum (map f l) + list_sum (map g l).
Proof.
  intros A f g l. induction l as [|a l IH]; simpl; [reflexivity|]. rewrite IH. lia.
Qed.

Lemma list_sum_zero : forall {A : Type} (f : A -> nat) l,
  (forall k, In k l -> f k = 0) -> list_sum (map f l) = 0.
Proof.
  intros A f l H. induction l as [|a l IH]; simpl; [reflexivity|].
  rewrite (H a (or_introl eq_refl)), IH; [reflexivity|].
  intros k Hk. apply H. right. exact Hk.
Qed.

Lemma list_sum_one : forall (f : string -> nat) l k0,
  NoDup l -> In k0 l -> f k0 = 1 -> (forall k, In k l -> k <> k0 -> f k = 0) ->
  list_sum (map f l) = 1.
Proof.
  intros f l k0 Hnodup. induction Hnodup as [|a l Ha Hnodup IH]; intros Hin H1 H0.
  - destruct Hin.
  - simpl. destruct Hin as [ -> | Hin].
    + rewrite H1, list_sum_zero; [reflexivity|].
      intros k Hk. apply H0; [right; exact Hk|]. intros ->. contradiction.
    + rewrite (H0 a (or_introl eq_refl)); [|intros ->; contradiction].
      rewrite IH; [reflexivity|exact Hin|exact H1|].
      intros k Hk. apply H0. right. exact Hk.
Qed.

(** A repository at or below a path is at the path, or below exactly one of
    the segments that continue it. *)
Lemma filedBelow_split : forall q keys x,
  NoDup keys ->
  (forall k t, ownerSegments x = q ++ k :: t -> In k keys) ->
  indicator (filedBelow q x)
  = indicator (sameSegments q x)
    + list_sum (map (fun k => indicator (filedBelow (q ++ [k]) x)) keys).
Proof.
  intros q keys x Hnodup Hcover.
  destruct (filedBelow q x) eqn:Hbelow.
  - apply filedBelow_iff in Hbelow. destruct Hbelow as [Hne [t Ht]].
    destruct t as [|k0 t].
    + rewrite app_nil_r in Ht.
      assert (Hsame : sameSegments q x = true).
      { apply sameSegments_true. split; [exact Ht|]. rewrite <- Ht. exact Hne. }
      rewrite Hsame, list_sum_zero; [reflexivity|].
      intros k _. destruct (filedBelow (q ++ [k]) x) eqn:Hk; [|reflexivity].
      apply filedBelow_iff in Hk. destruct Hk as [_ [t' Ht']].
      rewrite Ht, <- app_assoc in Ht'. exfalso. exact (app_cons_neq q k t' Ht').
    + assert (Hsame : sameSegments q x = false).
      { apply sameSegments_false. rewrite Ht. intro Heq.
        exact (app_cons_neq q k0 t (eq_sym Heq)). }
      rewrite Hsame. simpl. symmetry.
      apply (list_sum_one _ keys k0 Hnodup (Hcover k0 t Ht)).
      * assert (H : filedBelow (q ++ [k0]) x = true); [|rewrite H; reflexivity].
        apply filedBelow_iff. split; [exact Hne|]. exists t.
        rewrite Ht, <- app_assoc. reflexivity.
      * intros k _ Hneq. destruct (filedBelow (q ++ [k]) x) eqn:Hk; [|reflexivity].
        apply filedBelow_iff in Hk. destruct Hk as [_ [t' Ht']].
        rewrite Ht, <- app_assoc in Ht'. apply app_inv_head in Ht'.
        injection Ht' as Hk0 _. exfalso. apply Hneq. symmetry. exact Hk0.
  - assert (Hsame : sameSegments q x = false).
    { destruct (sameSegments q x) eqn:Hs; [|reflexivity].
      apply sameSegments_true in Hs. destruct Hs as [Hseg Hq].
      assert (H : filedBelow q x = true); [|rewrite H in Hbelow; discriminate].
      apply filedBelow_iff. split; [rewrite Hseg; exact Hq|].
      exists []. rewrite app_nil_r. exact Hseg. }
    rewrite Hsame, list_sum_zero; [reflexivity|].
    intros k _. destruct (filedBelow (q ++ [k]) x) eqn:Hk; [|reflexivity].
    apply filedBelow_iff in Hk. destruct Hk as [Hne [t' Ht']].
    assert (H : filedBelow q x = true); [|rewrite H in Hbelow; discriminate].
    apply filedBelow_iff. split; [exact Hne|]. exists (k :: t').
    rewrite Ht', <- app_assoc. reflexivity.
Qed.

Lemma count_split : forall q keys L,
  NoDup keys ->
  (forall x k t, In x L -> ownerSegments x = q ++ k :: t -> In k keys) ->
  List.length (filter (filedBelow q) L)
  = List.length (bucketOf L q)
    + list_sum (map (fun k => List.length (filter (filedBelow (q ++ [k])) L)) keys).
Proof.
  intros q keys L Hnodup. induction L as [|x L IH]; intro Hcover.
  - simpl. rewrite list_sum_zero; [reflexivity|]. intros; reflexivity.
  - unfold bucketOf. rewrite !count_cons.
    rewrite (map_ext _ (fun k => indicator (filedBelow (q ++ [k]) x)
                                 + List.length (filter (filedBelow (q ++ [k])) L))
               (fun k => count_cons (filedBelow (q ++ [k])) x L)).
    rewrite list_sum_add.
    rewrite (filedBelow_split q keys x Hnodup
               (fun k t => Hcover x k t (or_introl eq_refl))).
    unfold bucketOf in IH. rewrite IH; [lia|].
    intros x' k t Hx'. apply Hcover. right. exact Hx'.
Qed.

Lemma sumCounts_grown : forall (f : string -> nat) cs,
  (forall k v, In (k, v) cs -> exists c, v = inl c /\ updateDescriptions c = f k) ->
  sumCounts cs = list_sum (map f (map fst cs)).
Proof.
  intros f cs. induction cs as [|[k v] cs IH]; intro Hcs; [reflexivity|].
  destruct (Hcs k v (or_introl eq_refl)) as [c [-> Hc]].
  simpl. rewrite Hc, IH; [reflexivity|].
  intros k' v' Hin. apply Hcs. right. exact Hin.
Qed.

Lemma grown_count : forall D n L q,
  Grown D L q n ->
  updateDescriptions n = List.length (filter (filedBelow q) L).
Proof.
  intros D n. induction n as [o f r d i cs IH] using OwnerNode_induction.
  intros L q Hgrown.
  destruct (grown_inv _ _ _ _ Hgrown) as (cs0 & Heq & Hnodup & Hchildren & Hcover & _).
  injection Heq as -> -> -> -> -> <-.
  rewrite updateDescriptions_node, (count_split q (map fst cs) L Hnodup Hcover).
  f_equal.
  apply (sumCounts_grown (fun k => List.length (filter (filedBelow (q ++ [k])) L))).
  intros k v Hin. destruct (Hchildren k v Hin) as [c [-> Hc]].
  exists c. split; [reflexivity|]. apply (IH k c Hin L (q ++ [k]) Hc).
Qed.

Lemma count_positive : forall (f : RepositoryInfo -> bool) L x,
  In x L -> f x = true -> 0 < List.length (filter f L).
Proof.
  intros f L x Hin Hx.
  assert (Hf : In x (filter f L)) by (apply filter_In; split; assumption).
  destruct (filter f L); [destruct Hf|simpl; lia].
Qed.

(** X10.  The number that [updateDescriptions] computes for an owner node
    of the tree of [getOwnerNodes] is the number of repositories filed at
    the path of the node or below it, the ones that the view does not show
    included; it is positive for every node below the root, and for the
    root it is the number of repositories that have a fetch URL. *)
Theorem owner_counts : forall domain currentWorkspacePath repositories,
  updateDescriptions
    (fold_left (addToOwnerTree domain currentWorkspacePath) repositories
               (newOwnerNode "" "" [] (Some domain) currentWorkspacePath))
  = List.length (reposWithRemote repositories)
  /\ (forall p node,
        Grown domain repositories p node ->
        updateDescriptions node = List.length (filter (filedBelow p) repositories)
        /\ (forall k child, In (k, inl child) (children node) ->
                            0 < updateDescriptions child)).
Proof.
  intros D cwp L. split.
  - rewrite (grown_count D _ L [] (grown_fold D cwp L)). unfold reposWithRemote.
    f_equal. apply filter_ext. intro x. unfold filedBelow, ownerSegments.
    destruct (firstFetchUrl x) as [url|] eqn:Hurl; [|reflexivity].
    pose proof (extractOwner_has_segments url) as Hne.
    destruct (segmentsOf (extractOwner url)); [contradiction|reflexivity].
  - intros q n Hgrown. split; [apply (grown_count D n L q Hgrown)|].
    intros k c Hin.
    destruct (grown_inv _ _ _ _ Hgrown) as (cs & Hn & _ & Hchildren & _ & Hkeys).
    rewrite Hn in Hin. simpl in Hin.
    destruct (Hchildren k _ Hin) as [c0 [Hc0 Hc]]. injection Hc0 as <-.
    rewrite (grown_count D c L (q ++ [k]) Hc).
    destruct (Hkeys k) as (x & t & Hx & Hseg).
    { apply in_map_iff. exists (k, inl c). split; [reflexivity|exact Hin]. }
    apply (count_positive _ L x Hx). apply filedBelow_iff.
    split; [rewrite Hseg; destruct q; discriminate|].
    exists t. rewrite Hseg, <- app_assoc. reflexivity.
Qed.

End ViewFacts.

(** * Properties of the quick pick *)

Module QuickPickFacts.
Import JS Scanner TreeNodes Provider Examples Notions MoreNotions QuickPick.
Import TreeFacts PermutationFacts ViewFacts.
#[local] Open Scope string_scope.
#[local] Open Scope list_scope.
#[local] Open Scope nat_scope.

Lemma addToGroups_step : forall st repo,
  addToGroups st repo
  = (addToDomainMap (fst st) repo,
     snd st ++ (match firstFetchUrl repo with Some _ => [] | None => [repo] end)).
Proof.
  intros [M loc] repo. unfold addToGroups, addToDomainMap. simpl.
  destruct (firstFetchUrl repo); [rewrite app_nil_r|]; reflexivity.
Qed.

Lemma fold_addToDomainMap_filter : forall L M,
  fold_left addToDomainMap (reposWithRemote L) M = fold_left addToDomainMap L M.
Proof.
  induction L as [|x L IH]; intro M; [reflexivity|].
  unfold reposWithRemote in *. simpl.
  destruct (firstFetchUrl x) as [url|] eqn:Hurl; simpl.
  - apply IH.
  - rewrite IH. f_equal. unfold addToDomainMap. rewrite Hurl. reflexivity.
Qed.

(** The one loop of the quick pick builds the groups of the tree view. *)
Lemma groups_of_quick_pick : forall L M loc,
  fold_left addToGroups L (M, loc)
  = (fold_left addToDomainMap L M, loc ++ reposWithoutRemote L).
Proof.
  induction L as [|x L IH]; intros M loc; simpl.
  - rewrite app_nil_r. reflexivity.
  - rewrite addToGroups_step, IH. simpl. f_equal.
    unfold reposWithoutRemote. simpl.
    destruct (firstFetchUrl x); [rewrite app_nil_r; reflexivity|].
    rewrite <- app_assoc. reflexivity.
Qed.

Lemma repositoryItems_paths : forall prefix x,
  separatorLabels (repositoryItems prefix x) = []
  /\ openedPaths (repositoryItems prefix x) = offeredPaths x.
Proof.
  intros prefix x. unfold repositoryItems, offeredPaths.
  destruct (1 <? List.length (worktrees x)); [|split; reflexivity].
  unfold separatorLabels, openedPaths.
  induction (worktrees x) as [|w ws [IHs IHp]]; [split; reflexivity|].
  cbn [map flat_map pathToOpen app]. rewrite IHs, IHp. split; reflexivity.
Qed.

Lemma separatorLabels_app : forall a b,
  separatorLabels (a ++ b) = separatorLabels a ++ separatorLabels b.
Proof. intros a b. unfold separatorLabels. apply flat_map_app. Qed.

Lemma openedPaths_app : forall a b, openedPaths (a ++ b) = openedPaths a ++ openedPaths b.
Proof. intros a b. unfold openedPaths. apply flat_map_app. Qed.

Lemma domainItems_total : forall g,
  (forall x, In x g -> firstFetchUrl x <> None) ->
  exists items,
    domainItems g = Some items
    /\ separatorLabels items = []
    /\ openedPaths items = flat_map offeredPaths g.
Proof.
  induction g as [|x g IH]; intro Hurl.
  - exists []. auto.
  - destruct IH as (items & Hitems & Hseps & Hpaths).
    { intros y Hy. apply Hurl. right. exact Hy. }
    simpl. rewrite Hitems.
    destruct (firstFetchUrl x) as [url|] eqn:Hx;
      [|exfalso; apply (Hurl x (or_introl eq_refl)); exact Hx].
    eexists. split; [reflexivity|].
    destruct (repositoryItems_paths (extractOwnerAndRepo url) x) as [Hs Hp].
    rewrite separatorLabels_app, openedPaths_app, Hs, Hp, Hseps, Hpaths.
    split; reflexivity.
Qed.

Lemma groupItems_total : forall groups,
  (forall D g x, In (D, g) groups -> In x g -> firstFetchUrl x <> None) ->
  exists items,
    groupItems groups = Some items
    /\ separatorLabels items = map fst groups
    /\ openedPaths items = flat_map offeredPaths (flat_map snd groups).
Proof.
  induction groups as [|[D g] groups IH]; intro Hurl.
  - exists []. auto.
  - destruct IH as (items' & Hitems' & Hseps' & Hpaths').
    { intros D' g' x Hin. apply (Hurl D' g' x). right. exact Hin. }
    destruct (domainItems_total g) as (items & Hitems & Hseps & Hpaths).
    { intros x Hx. apply (Hurl D g x (or_introl eq_refl) Hx). }
    simpl. rewrite Hitems, Hitems'. eexists. split; [reflexivity|].
    change (Separator D :: items ++ items') with ([Separator D] ++ items ++ items').
    rewrite !separatorLabels_app, !openedPaths_app, Hseps, Hseps', Hpaths, Hpaths'.
    rewrite flat_map_app. split; reflexivity.
Qed.

Lemma localItems_paths : forall loc,
  separatorLabels (localItems loc)
  = (if 0 <? List.length loc then ["quickPick.separator.local"] else [])
  /\ openedPaths (localItems loc) = flat_map offeredPaths loc.
Proof.
  intro loc. unfold localItems.
  assert (Hall : forall l,
             separatorLabels (flat_map (fun repo => repositoryItems (name repo) repo) l) = []
             /\ openedPaths (flat_map (fun repo => repositoryItems (name repo) repo) l)
                = flat_map offeredPaths l).
  { induction l as [|y l [IHs IHp]]; [split; reflexivity|].
    destruct (repositoryItems_paths (name y) y) as [Hs Hp].
    cbn [flat_map]. rewrite separatorLabels_app, openedPaths_app, Hs, Hp, IHs, IHp.
    split; reflexivity. }
  destruct (0 <? List.length loc) eqn:Hloc.
  - destruct (Hall loc) as [Hs Hp].
    change (Separator "quickPick.separator.local"
            :: flat_map (fun repo => repositoryItems (name repo) repo) loc)
      with ([Separator "quickPick.separator.local"]
            ++ flat_map (fun repo => repositoryItems (name repo) repo) loc).
    rewrite separatorLabels_app, openedPaths_app, Hs, Hp. split; reflexivity.
  - destruct loc; [split; reflexivity|discriminate].
Qed.

Lemma grouped_have_url : forall repos D g x,
  In (D, g) (buildDomainMap repos) -> In x g -> firstFetchUrl x <> None.
Proof.
  intros repos D g x Hentry Hx. rewrite (buildDomainMap_entry _ _ _ Hentry) in Hx.
  apply In_domainGroup in Hx. destruct Hx as [_ HD]. unfold inDomain in HD.
  destruct (firstFetchUrl x); [discriminate|discriminate].
Qed.

Lemma quickPickItems_spec : forall repos,
  exists items,
    quickPickItems repos = Some items
    /\ separatorLabels items
       = map fst (buildDomainMap repos)
         ++ (if 0 <? List.length (reposWithoutRemote repos)
             then ["quickPick.separator.local"] else [])
    /\ openedPaths items
       = flat_map offeredPaths
           (flat_map snd (buildDomainMap repos) ++ reposWithoutRemote repos).
Proof.
  intro repos. unfold quickPickItems. rewrite groups_of_quick_pick. cbv zeta. simpl.
  rewrite <- fold_addToDomainMap_filter. fold (buildDomainMap repos).
  destruct (groupItems_total (buildDomainMap repos) (grouped_have_url repos))
    as (items & Hitems & Hseps & Hpaths).
  rewrite Hitems. eexists. split; [reflexivity|].
  destruct (localItems_paths (reposWithoutRemote repos)) as [Hls Hlp].
  rewrite separatorLabels_app, openedPaths_app, Hseps, Hpaths, Hls, Hlp.
  rewrite flat_map_app. split; reflexivity.
Qed.

(** X11.  Building the items of the quick pick never throws, and the quick
    pick groups the repositories as the tree view does: its separators
    are, in order, the domains of the domain nodes at the root of the tree
    and then the separator of the local repositories exactly when the tree
    has the local group. *)
Theorem quick_pick_groups_as_the_tree : forall repositories currentWorkspacePath,
  repositories <> [] ->
  exists items,
    quickPickItems repositories = Some items
    /\ separatorLabels items
       = flat_map separatorOf (getRemoteViewRootNodes repositories currentWorkspacePath).
Proof.
  intros repos cwp Hne.
  destruct (quickPickItems_spec repos) as (items & Hitems & Hseps & _).
  exists items. split; [exact Hitems|]. rewrite Hseps. clear Hseps Hitems.
  unfold getRemoteViewRootNodes. destruct repos as [|x repos]; [contradiction|].
  rewrite flat_map_app. f_equal.
  - induction (buildDomainMap (x :: repos)) as [|[D g] m IH]; [reflexivity|].
    simpl. rewrite IH. reflexivity.
  - destruct (0 <? List.length (reposWithoutRemote (x :: repos))); reflexivity.
Qed.

Lemma quick_pick_groups_as_the_tree_witness :
  exists items,
    quickPickItems [githubRepository; localRepository; gitlabRepository] = Some items
    /\ separatorLabels items
       = flat_map separatorOf
           (getRemoteViewRootNodes [githubRepository; localRepository; gitlabRepository]
                                   None).
Proof.
  apply (quick_pick_groups_as_the_tree
           [githubRepository; localRepository; gitlabRepository] None).
  discriminate.
Defined.

(** Every repository is in a group of its domain or among the local ones. *)
Lemma grouped_or_local : forall repos x,
  In x (flat_map snd (buildDomainMap repos) ++ reposWithoutRemote repos) <-> In x repos.
Proof.
  intros repos x. rewrite in_app_iff, in_flat_map. split.
  - intros [[[D g] [Hentry Hx]]|Hlocal].
    + simpl in Hx. rewrite (buildDomainMap_entry _ _ _ Hentry) in Hx.
      apply In_domainGroup in Hx. exact (proj1 Hx).
    + unfold reposWithoutRemote in Hlocal. apply filter_In in Hlocal. exact (proj1 Hlocal).
  - intro Hin. destruct (firstFetchUrl x) as [url|] eqn:Hurl.
    + left.
      assert (Hx : In x (domainGroup repos (extractDomain url))).
      { apply In_domainGroup. split; [exact Hin|].
        unfold inDomain. rewrite Hurl. apply String.eqb_refl. }
      assert (Hkey : In (extractDomain url) (map fst (buildDomainMap repos))).
      { apply domain_key. intro Hempty. rewrite Hempty in Hx. destruct Hx. }
      apply in_map_iff in Hkey. destruct Hkey as [[D g] [HD Hentry]].
      simpl in HD. subst D. exists (extractDomain url, g). split; [exact Hentry|].
      simpl. rewrite (buildDomainMap_entry _ _ _ Hentry). exact Hx.
    + right. unfold reposWithoutRemote. apply filter_In. split; [exact Hin|].
      rewrite Hurl. reflexivity.
Qed.

(** X12.  The quick pick offers every repository, the ones that the tree
    view hides included: the paths that its entries open are the path of
    each repository that has at most one worktree, and for a repository
    with more worktrees the paths of all its worktrees, the main one
    included, and no other path. *)
Theorem quick_pick_offers_every_repository : forall repositories items p,
  quickPickItems repositories = Some items ->
  (exists item, In item items /\ pathToOpen item = Some p)
  <-> (exists repo, In repo repositories /\ In p (offeredPaths repo)).
Proof.
  intros repos items p Hitems.
  destruct (quickPickItems_spec repos) as (items' & Hitems' & _ & Hpaths).
  rewrite Hitems in Hitems'. injection Hitems' as <-.
  assert (Hopened : (exists item, In item items /\ pathToOpen item = Some p)
                    <-> In p (openedPaths items)).
  { unfold openedPaths. rewrite in_flat_map. split.
    - intros (item & Hin & Hp). exists item. split; [exact Hin|].
      rewrite Hp. left. reflexivity.
    - intros (item & Hin & Hp). exists item. split; [exact Hin|].
      destruct (pathToOpen item); [|destruct Hp].
      destruct Hp as [ -> | [] ]. reflexivity. }
  rewrite Hopened, Hpaths, in_flat_map. split.
  - intros (repo & Hrepo & Hp). exists repo. split; [|exact Hp].
    apply grouped_or_local. exact Hrepo.
  - intros (repo & Hrepo & Hp). exists repo. split; [|exact Hp].
    apply grouped_or_local. exact Hrepo.
Qed.

Lemma quick_pick_offers_every_repository_witness :
  (exists item,
      In item [Separator "github.com";
               Entry "$(repo) org/direct" "main" "/home/dev/direct" directRepository None;
               Entry "$(repo) org/team/project" "main" "/home/dev/project"
                     nestedRepository None]
      /\ pathToOpen item = Some "/home/dev/direct")
  <-> (exists repo, In repo [directRepository; nestedRepository]
                    /\ In "/home/dev/direct" (offeredPaths repo)).
Proof.
  apply (quick_pick_offers_every_repository [directRepository; nestedRepository]).
  reflexivity.
Defined.

End QuickPickFacts.

(** * Properties of the configured paths *)

Module ConfigFacts.
Import JS Config.
#[local] Open Scope list_scope.
#[local] Open Scope nat_scope.
#[local] Open Scope string_scope.

Lemma braceName_shorter : forall s varName rest,
  braceName s = Some (varName, rest) -> String.length rest < String.length s.
Proof.
  induction s as [|c s IH]; intros varName rest H; simpl in H; [discriminate|].
  destruct (isCloseBrace c).
  - injection H as _ <-. simpl. lia.
  - destruct (braceName s) as [[n r]|]; [|discriminate].
    injection H as _ <-. simpl. specialize (IH n r eq_refl). lia.
Qed.

Lemma matchBraces_shorter : forall s varName rest,
  matchBraces s = Some (varName, rest) -> String.length rest < String.length s.
Proof.
  intros [|c [|c' s]] varName rest H; simpl in H; try discriminate.
  destruct (isDollar c && isOpenBrace c'); [|discriminate].
  destruct (braceName s) as [[[|a n] r]|] eqn:Hname; try discriminate.
  injection H as _ <-. apply braceName_shorter in Hname. simpl. lia.
Qed.

Lemma nameRun_shorter : forall s, String.length (snd (nameRun s)) <= String.length s.
Proof.
  induction s as [|c s IH]; simpl; [lia|].
  destruct (isNameChar c); simpl; lia.
Qed.

Lemma matchName_shorter : forall s varName rest,
  matchName s = Some (varName, rest) -> String.length rest < String.length s.
Proof.
  intros [|c [|c' s]] varName rest H; simpl in H; try discriminate.
  destruct (isDollar c && isNameStart c'); [|discriminate].
  injection H as _ <-. pose proof (nameRun_shorter s). simpl. lia.
Qed.

(** More fuel than the length of the string changes nothing. *)
Lemma replaceFrom_fuel : forall host matchAt,
  (forall s varName rest,
      matchAt s = Some (varName, rest) -> String.length rest < String.length s) ->
  forall fuel fuel' s,
    String.length s <= fuel -> String.length s <= fuel' ->
    replaceFrom host matchAt fuel s = replaceFrom host matchAt fuel' s.
Proof.
  intros host matchAt Hshorter. induction fuel as [|fuel IH]; intros fuel' s Hs Hs'.
  - destruct s; [|simpl in Hs; lia]. destruct fuel'; simpl; [reflexivity|].
    destruct (matchAt "") as [[n r]|] eqn:Hm; [|reflexivity].
    apply Hshorter in Hm. simpl in Hm. lia.
  - destruct fuel' as [|fuel'].
    + destruct s; [|simpl in Hs'; lia]. simpl.
      destruct (matchAt "") as [[n r]|] eqn:Hm; [|reflexivity].
      apply Hshorter in Hm. simpl in Hm. lia.
    + simpl. destruct (matchAt s) as [[n r]|] eqn:Hm.
      * apply Hshorter in Hm. rewrite (IH fuel' r); [reflexivity|lia|lia].
      * destruct s as [|c s]; [reflexivity|]. simpl in Hs, Hs'.
        rewrite (IH fuel' s); [reflexivity|lia|lia].
Qed.

(** A string without a dollar sign has no match. *)
Lemma replaceFrom_plain : forall host matchAt,
  matchAt "" = None ->
  (forall c s, isDollar c = false -> matchAt (String c s) = None) ->
  forall fuel s, dollarFree s = true -> replaceFrom host matchAt fuel s = s.
Proof.
  intros host matchAt Hempty Hother. induction fuel as [|fuel IH]; intros s Hs;
    [reflexivity|].
  destruct s as [|c s]; simpl.
  - rewrite Hempty. reflexivity.
  - simpl in Hs. apply andb_prop in Hs. destruct Hs as [Hc Hs].
    apply negb_true_iff in Hc. rewrite (Hother c s Hc), (IH s Hs). reflexivity.
Qed.

Lemma matchBraces_other : forall c s, isDollar c = false -> matchBraces (String c s) = None.
Proof. intros c [|c' s] Hc; simpl; [reflexivity|rewrite Hc; reflexivity]. Qed.

Lemma matchName_other : forall c s, isDollar c = false -> matchName (String c s) = None.
Proof. intros c [|c' s] Hc; simpl; [reflexivity|rewrite Hc; reflexivity]. Qed.

Lemma replaceAll_plain : forall host s,
  dollarFree s = true ->
  replaceAll host matchBraces s = s /\ replaceAll host matchName s = s.
Proof.
  intros host s Hs. unfold replaceAll. split.
  - apply replaceFrom_plain; [reflexivity|apply matchBraces_other|exact Hs].
  - apply replaceFrom_plain; [reflexivity|apply matchName_other|exact Hs].
Qed.

(** X13.  A configured path without a dollar sign is taken as it is, but
    for a tilde at its start, which becomes the home directory. *)
Theorem plain_path_is_kept : forall host path,
  dollarFree path = true ->
  expandEnvironmentVariables host path
  = if startsWith path "~" then (homedir host ++ substringFrom 1 path)%string else path.
Proof.
  intros host path Hplain. unfold expandEnvironmentVariables. cbv zeta.
  destruct (replaceAll_plain host path Hplain) as [-> ->]. reflexivity.
Qed.

Lemma plain_path_is_kept_witness :
  expandEnvironmentVariables (mkHost (fun _ => None) (fun _ => None) "/home/dev") "~/src"
  = "/home/dev/src".
Proof.
  apply (plain_path_is_kept (mkHost (fun _ => None) (fun _ => None) "/home/dev") "~/src"). reflexivity.
Defined.

Lemma braceName_found : forall varName rest,
  braceFree varName = true ->
  braceName (varName ++ String "}" rest) = Some (varName, rest).
Proof.
  induction varName as [|c n IH]; intros rest Hfree; simpl in *; [reflexivity|].
  apply andb_prop in Hfree. destruct Hfree as [Hc Hn].
  apply negb_true_iff in Hc. rewrite Hc, (IH rest Hn). reflexivity.
Qed.

Lemma nameRun_found : forall varName rest,
  allNameChars varName = true -> endsName rest = true ->
  nameRun (varName ++ rest) = (varName, rest).
Proof.
  induction varName as [|c n IH]; intros rest Hname Hend; simpl in *.
  - destruct rest as [|c rest]; [reflexivity|]. simpl in *.
    apply negb_true_iff in Hend. rewrite Hend. reflexivity.
  - apply andb_prop in Hname. destruct Hname as [Hc Hn].
    rewrite Hc, (IH rest Hn Hend). reflexivity.
Qed.

Lemma dollarFree_append : forall a b,
  dollarFree (a ++ b) = dollarFree a && dollarFree b.
Proof.
  induction a as [|c a IH]; intro b; simpl; [reflexivity|].
  rewrite IH, andb_assoc. reflexivity.
Qed.

Lemma nameStart_not_brace : forall c, isNameStart c = true -> isOpenBrace c = false.
Proof.
  intros c Hc. unfold isOpenBrace. destruct (Ascii.eqb c "{") eqn:Heq; [|reflexivity].
  apply Ascii.eqb_eq in Heq. subst c. discriminate.
Qed.

Lemma nameChars_dollarFree : forall s, allNameChars s = true -> dollarFree s = true.
Proof.
  induction s as [|c s IH]; intro H; simpl in *; [reflexivity|].
  apply andb_prop in H. destruct H as [Hc Hs]. rewrite (IH Hs), andb_true_r.
  unfold isDollar. destruct (Ascii.eqb c "$") eqn:Heq; [|reflexivity].
  apply Ascii.eqb_eq in Heq. subst c. discriminate.
Qed.

Lemma replaceFrom_match : forall host matchAt fuel s varName rest,
  matchAt s = Some (varName, rest) ->
  replaceFrom host matchAt (S fuel) s
  = envValue host varName ++ replaceFrom host matchAt fuel rest.
Proof. intros host matchAt fuel s varName rest H. simpl. rewrite H. reflexivity. Qed.

Lemma replaceFrom_keep : forall host matchAt fuel c s,
  matchAt (String c s) = None ->
  replaceFrom host matchAt (S fuel) (String c s)
  = String c (replaceFrom host matchAt fuel s).
Proof. intros host matchAt fuel c s H. simpl. rewrite H. reflexivity. Qed.

(** X14.  The two forms of a variable at the start of a configured path
    whose rest has no dollar sign.  [${NAME}], for any name that is not
    empty and has no closing brace, stands for what [process.env[NAME]]
    gives: the value of the variable when it is set, else the text of the
    member that [process.env] inherits under that name, and the empty
    string only when there is neither; this text is searched again for
    variables of the second form, so it is taken as it is when it has no
    dollar sign.  [$NAME], for a name of letters, digits and underscores
    that does not start with a digit and is not continued by such a
    character, stands for the same text, which is not searched again.  The
    tilde is looked for after the texts are in place. *)
Theorem variables_are_expanded : forall host varName rest,
  nonEmpty varName = true ->
  dollarFree rest = true ->
  (braceFree varName = true ->
   dollarFree (envValue host varName) = true ->
   expandEnvironmentVariables host ("${" ++ varName ++ "}" ++ rest)
   = expandTilde host (envValue host varName ++ rest))
  /\ (isIdentifier varName = true ->
      endsName rest = true ->
      expandEnvironmentVariables host ("$" ++ varName ++ rest)
      = expandTilde host (envValue host varName ++ rest)).
Proof.
  intros host varName rest Hne Hrest. split.
  - intros Hfree Hvalue. unfold expandEnvironmentVariables. cbv zeta.
    fold (expandTilde host
            (replaceAll host matchName
               (replaceAll host matchBraces ("${" ++ varName ++ "}" ++ rest)))).
    f_equal.
    assert (Hmatch : matchBraces ("${" ++ varName ++ "}" ++ rest)
                     = Some (varName, rest)).
    { change ("${" ++ varName ++ "}" ++ rest)
        with (String "$" (String "{" (varName ++ String "}" rest))).
      cbn [matchBraces isDollar isOpenBrace Ascii.eqb Bool.eqb andb].
      rewrite (braceName_found varName rest Hfree).
      destruct varName; [discriminate|reflexivity]. }
    assert (Hfirst : replaceAll host matchBraces ("${" ++ varName ++ "}" ++ rest)
                     = envValue host varName ++ rest).
    { unfold replaceAll.
      change (String.length ("${" ++ varName ++ "}" ++ rest))
        with (S (S (String.length (varName ++ "}" ++ rest)))).
      rewrite (replaceFrom_match host matchBraces _ _ varName rest Hmatch). f_equal.
      apply replaceFrom_plain; [reflexivity|apply matchBraces_other|exact Hrest]. }
    rewrite Hfirst. apply (replaceAll_plain host).
    rewrite dollarFree_append, Hvalue, Hrest. reflexivity.
  - intros Hid Hend. unfold expandEnvironmentVariables. cbv zeta.
    fold (expandTilde host
            (replaceAll host matchName
               (replaceAll host matchBraces ("$" ++ varName ++ rest)))).
    f_equal. destruct varName as [|c n]; [discriminate|].
    simpl in Hid. apply andb_prop in Hid. destruct Hid as [Hc Hn].
    assert (Hplain : dollarFree (String c (n ++ rest)) = true).
    { change (String c (n ++ rest)) with (String c n ++ rest).
      rewrite dollarFree_append, Hrest, andb_true_r.
      apply (nameChars_dollarFree (String c n)). simpl.
      unfold isNameChar. rewrite Hc, Hn. reflexivity. }
    change ("$" ++ String c n ++ rest) with (String "$" (String c (n ++ rest))).
    assert (Hfirst : replaceAll host matchBraces (String "$" (String c (n ++ rest)))
                     = String "$" (String c (n ++ rest))).
    { unfold replaceAll.
      change (String.length (String "$" (String c (n ++ rest))))
        with (S (String.length (String c (n ++ rest)))).
      rewrite replaceFrom_keep.
      - f_equal.
        apply replaceFrom_plain; [reflexivity|apply matchBraces_other|exact Hplain].
      - cbn [matchBraces isDollar Ascii.eqb Bool.eqb andb].
        rewrite (nameStart_not_brace c Hc). reflexivity. }
    rewrite Hfirst. unfold replaceAll.
    change (String.length (String "$" (String c (n ++ rest))))
      with (S (String.length (String c (n ++ rest)))).
    rewrite (replaceFrom_match host matchName _ _ (String c n) rest).
    + f_equal.
      apply replaceFrom_plain; [reflexivity|apply matchName_other|exact Hrest].
    + cbn [matchName isDollar Ascii.eqb Bool.eqb andb].
      rewrite Hc, (nameRun_found n rest Hn Hend). reflexivity.
Qed.

Lemma variables_are_expanded_witness :
  expandEnvironmentVariables exampleHost "${toString}/x"
  = "function toString() { [native code] }/x"
  /\ expandEnvironmentVariables exampleHost "$HOME/src" = "/home/dev/src".
Proof.
  split.
  - apply (proj1 (variables_are_expanded exampleHost "toString" "/x" eq_refl eq_refl));
      reflexivity.
  - apply (proj2 (variables_are_expanded exampleHost "HOME" "/src" eq_refl eq_refl));
      reflexivity.
Defined.

End ConfigFacts.

(** * Properties of the decorations *)

Module DecorationFacts.
Import JS Scanner TreeNodes Provider Examples Notions MoreNotions Decorations.
Import DecorationNotions.
Import TreeFacts PermutationFacts UrlFacts ViewFacts.
#[local] Open Scope string_scope.
#[local] Open Scope list_scope.
#[local] Open Scope nat_scope.

Lemma mapGet_mapDelete_same : forall {V : Type} (m : list (string * V)) k,
  mapGet k (mapDelete k m) = None.
Proof.
  intros V m k. induction m as [|[k' v] m IH]; [reflexivity|].
  unfold mapDelete in *. simpl. destruct (String.eqb k' k) eqn:Hk; simpl; [exact IH|].
  rewrite Hk. exact IH.
Qed.

Lemma mapGet_mapDelete_other : forall {V : Type} (m : list (string * V)) k k',
  k' <> k -> mapGet k' (mapDelete k m) = mapGet k' m.
Proof.
  intros V m k k' Hneq. induction m as [|[k0 v] m IH]; [reflexivity|].
  unfold mapDelete in *. simpl. destruct (String.eqb k0 k) eqn:Hk; simpl.
  - apply String.eqb_eq in Hk. subst k0.
    destruct (String.eqb k k') eqn:Hk'; [|exact IH].
    apply String.eqb_eq in Hk'. subst k'. contradiction.
  - rewrite IH. reflexivity.
Qed.

(** X15.  The decoration provider answers for a URI of its scheme what was
    last set for the text of the URI: a count that is set is the count
    provided, a count that is cleared is provided no more, setting or
    clearing the count of one URI leaves what is provided for a URI of
    another text, nothing is provided after [clear], and nothing at all for
    a URI of another scheme. *)
Theorem decoration_round_trip :
  forall (Uri : Type) (parse : string -> Uri) (toString : Uri -> string)
         (scheme : Uri -> string) decorations id count,
  scheme (parse ("git-repositories:" ++ id)%string) = "git-repositories" ->
  provideFileDecoration toString scheme (setCount parse toString id count decorations)
                        (parse ("git-repositories:" ++ id)%string)
  = Some (mkFileDecoration count)
  /\ provideFileDecoration toString scheme
       (clearCount parse toString id (setCount parse toString id count decorations))
       (parse ("git-repositories:" ++ id)%string)
     = None
  /\ (forall uri,
        toString uri <> toString (parse ("git-repositories:" ++ id)%string) ->
        provideFileDecoration toString scheme
          (setCount parse toString id count decorations) uri
        = provideFileDecoration toString scheme decorations uri
        /\ provideFileDecoration toString scheme
             (clearCount parse toString id decorations) uri
           = provideFileDecoration toString scheme decorations uri)
  /\ (forall uri,
        provideFileDecoration toString scheme (clear decorations) uri = None)
  /\ (forall uri,
        scheme uri <> "git-repositories" ->
        provideFileDecoration toString scheme decorations uri = None).
Proof.
  intros Uri parse toString scheme decs id count Hscheme.
  unfold provideFileDecoration, setCount, clearCount. cbv zeta.
  rewrite Hscheme. cbn [String.eqb Ascii.eqb Bool.eqb negb].
  split; [apply mapGet_mapSet_same|].
  split; [apply mapGet_mapDelete_same|].
  split; [|split].
  - intros uri Hother.
    destruct (negb (String.eqb (scheme uri) "git-repositories")); [split; reflexivity|].
    split; [apply mapGet_mapSet_other|apply mapGet_mapDelete_other]; exact Hother.
  - intro uri. destruct (negb (String.eqb (scheme uri) "git-repositories")); reflexivity.
  - intros uri Hother. apply String.eqb_neq in Hother. rewrite Hother. reflexivity.
Qed.

Lemma decoration_round_trip_witness :
  provideFileDecoration (fun u => u) textScheme
    (setCount (fun s => s) (fun u => u) "domain:github.com" 2 [])
    "git-repositories:domain:github.com"
  = Some (mkFileDecoration 2).
Proof.
  exact (proj1 (decoration_round_trip string (fun s => s) (fun u => u) textScheme
                  [] "domain:github.com" 2 eq_refl)).
Defined.

(** ** The counts at the root *)

Section RootCounts.
Variable Uri : Type.
Variable parse : string -> Uri.
Variable toString : Uri -> string.
Variable scheme : Uri -> string.
Hypothesis key_injective : forall a b, toString (parse a) = toString (parse b) -> a = b.

Lemma domain_counts_keep : forall m decorations key,
  (forall D g, In (D, g) m ->
               toString (parse ("git-repositories:domain:" ++ D)%string) <> key) ->
  mapGet key (fold_left (setDomainCount parse toString true) m decorations)
  = mapGet key decorations.
Proof.
  induction m as [|[D g] m IH]; intros decs key Hother; [reflexivity|].
  simpl. rewrite IH.
  - unfold setDomainCount, setCount. cbv zeta. apply mapGet_mapSet_other.
    intro Heq. apply (Hother D g (or_introl eq_refl)). symmetry. exact Heq.
  - intros D' g' Hin. apply (Hother D' g'). right. exact Hin.
Qed.

Lemma domain_counts_set : forall m decorations D g,
  NoDup (map fst m) ->
  In (D, g) m ->
  mapGet (toString (parse ("git-repositories:domain:" ++ D)%string))
         (fold_left (setDomainCount parse toString true) m decorations)
  = Some (mkFileDecoration (List.length g)).
Proof.
  induction m as [|[D0 g0] m IH]; intros decs D g Hnodup Hin; [destruct Hin|].
  inversion Hnodup as [|? ? Hfresh Hnodup']; subst. simpl.
  destruct Hin as [Heq|Hin].
  - injection Heq as -> ->. rewrite domain_counts_keep.
    + unfold setDomainCount, setCount. cbv zeta. apply mapGet_mapSet_same.
    + intros D' g' Hin' Hkey. apply key_injective in Hkey.
      injection Hkey as Hkey. apply Hfresh.
      assert (HD : D' = D).
      { revert Hkey. clear. intro H.
        repeat (injection H as H). exact H. }
      subst D'. apply in_map_iff. exists (D, g'). split; [reflexivity|exact Hin'].
  - apply (IH _ D g Hnodup' Hin).
Qed.

End RootCounts.

(** X16.  With the setting on, the counts that [getRemoteViewRootNodes]
    sets reach the root nodes: the decoration provided for the resource
    URI of a domain node is the number of repositories of its domain, and
    the one for the local group is the number of repositories without a
    remote.  The URIs are taken to have the scheme they are parsed with and
    a text of their own. *)
Theorem root_counts_reach_the_nodes :
  forall (Uri : Type) (parse : string -> Uri) (toString : Uri -> string)
         (scheme : Uri -> string) repositories currentWorkspacePath decorations n,
  (forall id, scheme (parse ("git-repositories:" ++ id)%string) = "git-repositories") ->
  (forall a b, toString (parse a) = toString (parse b) -> a = b) ->
  In n (getRemoteViewRootNodes repositories currentWorkspacePath) ->
  match n with
  | Domain d =>
      provideFileDecoration toString scheme
        (decorateRoots parse toString true repositories decorations)
        (domainResourceUri parse d)
      = Some (mkFileDecoration (List.length (domainRepositories d)))
  | LocalGroup l =>
      provideFileDecoration toString scheme
        (decorateRoots parse toString true repositories decorations)
        (localGroupResourceUri parse)
      = Some (mkFileDecoration (List.length (localRepositories l)))
  | _ => True
  end.
Proof.
  intros Uri parse toString scheme repos cwp decs n Hscheme Hinj Hin.
  unfold getRemoteViewRootNodes in Hin. unfold decorateRoots.
  destruct repos as [|x repos]; [destruct Hin as [ <- | [] ]; exact I|].
  cbv zeta. apply in_app_or in Hin. destruct Hin as [Hdomain|Hlocal].
  - apply in_map_iff in Hdomain. destruct Hdomain as [[D g] [<- Hentry]].
    unfold provideFileDecoration, domainResourceUri. cbn [domain domainRepositories
      newDomainNode fst snd].
    replace (scheme (parse ("git-repositories:domain:" ++ D)%string))
      with "git-repositories" by (symmetry; exact (Hscheme ("domain:" ++ D)%string)).
    cbn [String.eqb Ascii.eqb Bool.eqb negb].
    destruct (buildDomainMap_spec (x :: repos)) as [Hnodup _].
    destruct (0 <? List.length (reposWithoutRemote (x :: repos))).
    + unfold setCount. cbv zeta. rewrite mapGet_mapSet_other.
      * apply (domain_counts_set Uri parse toString Hinj _ decs D g Hnodup Hentry).
      * intro Hkey. apply Hinj in Hkey. discriminate Hkey.
    + apply (domain_counts_set Uri parse toString Hinj _ decs D g Hnodup Hentry).
  - destruct (0 <? List.length (reposWithoutRemote (x :: repos))); [|destruct Hlocal].
    destruct Hlocal as [ <- | [] ].
    unfold provideFileDecoration, localGroupResourceUri.
    replace (scheme (parse "git-repositories:local-group"))
      with "git-repositories" by (symmetry; exact (Hscheme "local-group")).
    cbn [String.eqb Ascii.eqb Bool.eqb negb].
    unfold setCount. cbv zeta. apply mapGet_mapSet_same.
Qed.

Lemma root_counts_reach_the_nodes_witness :
  provideFileDecoration (fun u => u) textScheme
    (decorateRoots (fun s => s) (fun u => u) true
                   [githubRepository; localRepository; gadgetsRepository] [])
    (domainResourceUri (fun s => s)
       (newDomainNode "github.com" [githubRepository; gadgetsRepository] None))
  = Some (mkFileDecoration 2).
Proof.
  apply (root_counts_reach_the_nodes string (fun s => s) (fun u => u) textScheme
           [githubRepository; localRepository; gadgetsRepository] None []
           (Domain (newDomainNode "github.com" [githubRepository; gadgetsRepository] None))).
  - intro id. reflexivity.
  - intros a b Heq. exact Heq.
  - left. reflexivity.
Defined.

(** ** The counts of the owner nodes *)

Lemma append_assoc : forall a b c : string,
  ((a ++ b) ++ c)%string = (a ++ b ++ c)%string.
Proof. induction a as [|x a IH]; intros b c; simpl; [reflexivity|rewrite IH; reflexivity]. Qed.

Lemma join_snoc : forall p k,
  p <> [] -> join "/" (p ++ [k]) = (join "/" p ++ "/" ++ k)%string.
Proof.
  induction p as [|a p IH]; intros k Hne; [contradiction|].
  destruct p as [|b p]; [reflexivity|].
  change (join "/" ((a :: b :: p) ++ [k]))
    with (a ++ "/" ++ join "/" ((b :: p) ++ [k]))%string.
  rewrite IH by discriminate.
  change (join "/" (a :: b :: p)) with (a ++ "/" ++ join "/" (b :: p))%string.
  rewrite !append_assoc. reflexivity.
Qed.

(** The full path of a path of segments that are not empty is the
    segments joined. *)
Lemma pathName_join : forall p,
  Forall (fun s => nonEmpty s = true) p ->
  pathName p = join "/" p /\ (p <> [] -> nonEmpty (pathName p) = true).
Proof.
  induction p as [|k p IH] using rev_ind; intro Hall.
  - split; [reflexivity|intro H; contradiction].
  - apply Forall_app in Hall. destruct Hall as [Hp Hk].
    inversion Hk as [|? ? Hk' _]; subst.
    destruct (IH Hp) as [Hjoin Hfull]. rewrite pathName_snoc. unfold extendPath.
    destruct p as [|a p].
    + simpl. split; [reflexivity|intros _; exact Hk'].
    + rewrite (Hfull ltac:(discriminate)), Hjoin, join_snoc by discriminate.
      split; [reflexivity|]. intros _.
      destruct (join "/" (a :: p)); reflexivity.
Qed.

Lemma Forall_prefix : forall {A : Type} (P : A -> Prop) (p t : list A),
  Forall P (p ++ t) -> Forall P p.
Proof. intros A P p t H. apply Forall_app in H. exact (proj1 H). Qed.

(** The path of a repository that is filed below it can be read off its
    full path. *)
Lemma segmentsOf_pathName : forall L p,
  0 < countBelow L p -> segmentsOf (pathName p) = p.
Proof.
  intros L p Hcount. unfold countBelow in Hcount.
  destruct (filter (filedBelow p) L) as [|x xs] eqn:Hfilter; [simpl in Hcount; lia|].
  assert (Hx : In x (filter (filedBelow p) L)) by (rewrite Hfilter; left; reflexivity).
  apply filter_In in Hx. destruct Hx as [_ Hx].
  apply filedBelow_iff in Hx. destruct Hx as [_ [t Ht]].
  assert (Hplain : Forall (fun piece => allChars (fun c => negb (Ascii.eqb c slash)) piece
                                        = true) (p ++ t)
                   /\ Forall (fun piece => nonEmpty piece = true) (p ++ t)).
  { rewrite <- Ht. unfold ownerSegments.
    destruct (firstFetchUrl x); [apply segmentsOf_pieces|split; constructor]. }
  destruct Hplain as [Hfree Hfull].
  apply Forall_prefix in Hfree. apply Forall_prefix in Hfull.
  destruct (pathName_join p Hfull) as [-> _].
  destruct p as [|a p]; [reflexivity|].
  apply segmentsOf_join; [discriminate|exact Hfree|exact Hfull].
Qed.

Lemma append_inv_head : forall a b c : string, (a ++ b)%string = (a ++ c)%string -> b = c.
Proof.
  induction a as [|x a IH]; intros b c H; simpl in H; [exact H|].
  injection H as H. apply IH. exact H.
Qed.

Section OwnerCounts.
Variable Uri : Type.
Variable parse : string -> Uri.
Variable toString : Uri -> string.
Hypothesis key_injective : forall a b, toString (parse a) = toString (parse b) -> a = b.
Variable D : string.
Variable L : list RepositoryInfo.

(** Two paths with repositories below them have two URIs. *)
Lemma owner_key_unique : forall p p',
  0 < countBelow L p -> 0 < countBelow L p' ->
  toString (parse (ownerUriText D p)) = toString (parse (ownerUriText D p')) ->
  p = p'.
Proof.
  intros p p' Hp Hp' Hkey. apply key_injective in Hkey. unfold ownerUriText in Hkey.
  apply append_inv_head in Hkey. apply append_inv_head in Hkey.
  apply (append_inv_head ":") in Hkey.
  rewrite <- (segmentsOf_pathName L p Hp), <- (segmentsOf_pathName L p' Hp'), Hkey.
  reflexivity.
Qed.

Lemma decorateOwners_node : forall show o f r d i cs decorations,
  decorateOwners parse toString show D (mkOwnerNode o f r d i cs) decorations
  = (List.length r + fst (decorateChildren parse toString show D cs decorations),
     if 0 <? List.length r + fst (decorateChildren parse toString show D cs decorations)
     then
       if show
       then setCount parse toString
              ("owner:" ++ (if nonEmpty D then D else "local") ++ ":" ++ f)%string
              (List.length r + fst (decorateChildren parse toString show D cs decorations))
              (snd (decorateChildren parse toString show D cs decorations))
       else snd (decorateChildren parse toString show D cs decorations)
     else snd (decorateChildren parse toString show D cs decorations)).
Proof. intros. reflexivity. Qed.

Lemma countsOnly_refl : forall decorations,
  countsOnly parse toString D L decorations decorations.
Proof. intros decs key. left. reflexivity. Qed.

Lemma countsOnly_trans : forall a b c,
  countsOnly parse toString D L a b -> countsOnly parse toString D L b c ->
  countsOnly parse toString D L a c.
Proof.
  intros a b c Hab Hbc key. destruct (Hbc key) as [Hkeep|Hset]; [|right; exact Hset].
  destruct (Hab key) as [Hkeep'|(p & Hp & Hkey & Hval)].
  - left. rewrite Hkeep. exact Hkeep'.
  - right. exists p. split; [exact Hp|]. split; [exact Hkey|].
    rewrite Hkeep. exact Hval.
Qed.

Lemma countsOnly_set : forall decorations p,
  0 < countBelow L p ->
  countsOnly parse toString D L decorations
    (setCount parse toString
       ("owner:" ++ (if nonEmpty D then D else "local") ++ ":" ++ pathName p)%string
       (countBelow L p) decorations).
Proof.
  intros decs p Hp key. unfold setCount. cbv zeta.
  destruct (string_dec key (toString (parse (ownerUriText D p)))) as [->|Hneq].
  - right. exists p. split; [exact Hp|]. split; [reflexivity|].
    apply mapGet_mapSet_same.
  - left. apply mapGet_mapSet_other. exact Hneq.
Qed.

(** A count that is in place stays in place. *)
Lemma count_is_kept : forall before after p,
  countsOnly parse toString D L before after ->
  0 < countBelow L p ->
  mapGet (toString (parse (ownerUriText D p))) before
  = Some (mkFileDecoration (countBelow L p)) ->
  mapGet (toString (parse (ownerUriText D p))) after
  = Some (mkFileDecoration (countBelow L p)).
Proof.
  intros before after p Hpass Hp Hbefore.
  destruct (Hpass (toString (parse (ownerUriText D p)))) as [Hkeep|(p' & Hp' & Hkey & Hval)].
  - rewrite Hkeep. exact Hbefore.
  - pose proof (owner_key_unique p p' Hp Hp' Hkey) as Heq. subst p'. exact Hval.
Qed.

Lemma decorateChildren_counts : forall q cs,
  (forall k v, In (k, v) cs ->
               exists c, v = inl c /\ decorated parse toString D L c (q ++ [k])) ->
  forall decorations,
    fst (decorateChildren parse toString true D cs decorations)
    = list_sum (map (fun k => countBelow L (q ++ [k])) (map fst cs))
    /\ countsOnly parse toString D L decorations
         (snd (decorateChildren parse toString true D cs decorations))
    /\ (forall k c c' p,
          In (k, inl c) cs -> Within c (q ++ [k]) c' p -> 0 < countBelow L p ->
          mapGet (toString (parse (ownerUriText D p)))
                 (snd (decorateChildren parse toString true D cs decorations))
          = Some (mkFileDecoration (countBelow L p))).
Proof.
  intros q cs. induction cs as [|[k v] cs IH]; intros Hcs decs.
  - simpl. split; [reflexivity|]. split; [apply countsOnly_refl|].
    intros k c c' p [].
  - destruct (Hcs k v (or_introl eq_refl)) as [c0 [-> Hc0]].
    destruct (Hc0 decs) as (Hcount & Hpass & Hset).
    destruct (IH (fun k' v' Hin => Hcs k' v' (or_intror Hin))
                 (snd (decorateOwners parse toString true D c0 decs)))
      as (Hcount' & Hpass' & Hset').
    cbn [decorateChildren fst snd map list_sum].
    split; [rewrite Hcount, Hcount'; reflexivity|].
    split; [exact (countsOnly_trans _ _ _ Hpass Hpass')|].
    intros k' c c' p [Heq|Hin] Hwithin Hp.
    + injection Heq as <- <-.
      apply (count_is_kept _ _ p Hpass' Hp). apply (Hset c' p Hwithin Hp).
    + apply (Hset' k' c c' p Hin Hwithin Hp).
Qed.

Lemma grown_decorated : forall n q, Grown D L q n -> decorated parse toString D L n q.
Proof.
  intro n. induction n as [o f r d i cs IH] using OwnerNode_induction.
  intros q Hgrown decs.
  destruct (grown_inv _ _ _ _ Hgrown) as (cs0 & Heq & Hnodup & Hchildren & Hcover & _).
  injection Heq as -> -> -> -> -> <-.
  assert (Hcs : forall k v, In (k, v) cs ->
                  exists c, v = inl c /\ decorated parse toString D L c (q ++ [k])).
  { intros k v Hin. destruct (Hchildren k v Hin) as [c [-> Hc]].
    exists c. split; [reflexivity|]. apply (IH k c Hin (q ++ [k]) Hc). }
  destruct (decorateChildren_counts q cs Hcs decs) as (Hcount & Hpass & Hset).
  rewrite decorateOwners_node. cbn [fst snd].
  assert (Htotal : List.length (bucketOf L q)
                   + fst (decorateChildren parse toString true D cs decs)
                   = countBelow L q).
  { rewrite Hcount. unfold countBelow.
    rewrite (count_split q (map fst cs) L Hnodup Hcover). reflexivity. }
  rewrite Htotal. split; [reflexivity|].
  destruct (0 <? countBelow L q) eqn:Hpos.
  - apply Nat.ltb_lt in Hpos. split.
    + apply (countsOnly_trans _ _ _ Hpass). apply (countsOnly_set _ q Hpos).
    + intros c p Hwithin Hp.
      inversion Hwithin as [n0 q0 Hn Hq|n0 q0 k c0 c' p0 Hin Hbelow]; subst.
      * unfold setCount. cbv zeta. apply mapGet_mapSet_same.
      * apply (count_is_kept _ _ p (countsOnly_set _ q Hpos) Hp).
        simpl in Hin. apply (Hset k c0 c p Hin Hbelow Hp).
  - split; [exact Hpass|]. intros c p Hwithin Hp.
    inversion Hwithin as [n0 q0 Hn Hq|n0 q0 k c0 c' p0 Hin Hbelow]; subst.
    + apply Nat.ltb_ge in Hpos. lia.
    + simpl in Hin. apply (Hset k c0 c p Hin Hbelow Hp).
Qed.

(** A node of a grown tree is grown, and below the top it has a count. *)
Lemma within_grown : forall n q c p,
  Within n q c p -> Grown D L q n ->
  Grown D L p c /\ (p = q \/ 0 < countBelow L p).
Proof.
  intros n q c p Hwithin.
  induction Hwithin as [n q|n q k c c' p Hin Hbelow IH]; intro Hgrown.
  - split; [exact Hgrown|left; reflexivity].
  - destruct (grown_inv _ _ _ _ Hgrown) as (cs & Hn & _ & Hchildren & _ & Hkeys).
    rewrite Hn in Hin. simpl in Hin.
    destruct (Hchildren k _ Hin) as [c0 [Hc0 Hc]]. injection Hc0 as <-.
    destruct (IH Hc) as [Hc' Hp]. split; [exact Hc'|]. right.
    destruct Hp as [->|Hp]; [|exact Hp].
    destruct (Hkeys k) as (x & t & Hx & Hseg).
    { apply in_map_iff. exists (k, inl c). split; [reflexivity|exact Hin]. }
    apply (count_positive _ L x Hx). apply filedBelow_iff.
    split; [rewrite Hseg; destruct q; discriminate|].
    exists t. rewrite Hseg, <- app_assoc. reflexivity.
Qed.

End OwnerCounts.

(** X17.  With the setting on, the counts that [updateDescriptions] sets
    reach the owner nodes: for every owner node below the root of the tree
    of [getOwnerNodes], the decoration provided for its resource URI is the
    number that [updateDescriptions] computes for it, the number of
    repositories of the domain filed at its path or below, which is not
    zero.  The URIs are taken to have the scheme they are parsed with and a
    text of their own. *)
Theorem owner_counts_reach_the_nodes :
  forall (Uri : Type) (parse : string -> Uri) (toString : Uri -> string)
         (scheme : Uri -> string) domain currentWorkspacePath repositories
         decorations c p,
  (forall id, scheme (parse ("git-repositories:" ++ id)%string) = "git-repositories") ->
  (forall a b, toString (parse a) = toString (parse b) -> a = b) ->
  Within (fold_left (addToOwnerTree domain currentWorkspacePath) repositories
                    (newOwnerNode "" "" [] (Some domain) currentWorkspacePath))
         [] c p ->
  p <> [] ->
  provideFileDecoration toString scheme
    (snd (decorateOwners parse toString true domain
            (fold_left (addToOwnerTree domain currentWorkspacePath) repositories
                       (newOwnerNode "" "" [] (Some domain) currentWorkspacePath))
            decorations))
    (ownerResourceUri parse (updateExpansionState currentWorkspacePath c))
  = Some (mkFileDecoration (updateDescriptions c))
  /\ updateDescriptions c = countBelow repositories p
  /\ 0 < updateDescriptions c.
Proof.
  intros Uri parse toString scheme D cwp L decs c p Hscheme Hinj Hwithin Hp.
  pose proof (grown_fold D cwp L) as Hroot.
  destruct (within_grown D L _ [] c p Hwithin Hroot) as [Hc Hpos].
  destruct Hpos as [->|Hpos]; [contradiction|].
  pose proof (grown_count D c L p Hc) as Hcount. fold (countBelow L p) in Hcount.
  split; [|split; [exact Hcount|rewrite Hcount; exact Hpos]].
  destruct (grown_decorated Uri parse toString Hinj D L _ [] Hroot decs) as (_ & _ & Hset).
  rewrite Hcount, <- (Hset c p Hwithin Hpos).
  unfold provideFileDecoration, ownerResourceUri.
  destruct (updateExpansionState_fields cwp c) as (_ & -> & _ & ->).
  destruct (grown_inv _ _ _ _ Hc) as (cs & -> & _).
  cbn [fullPath ownerDomain truthy].
  replace (scheme (parse ("git-repositories:owner:"
                          ++ (if nonEmpty D then D else "local") ++ ":" ++ pathName p)%string))
    with "git-repositories"
    by (symmetry;
        exact (Hscheme ("owner:" ++ (if nonEmpty D then D else "local")
                        ++ ":" ++ pathName p)%string)).
  reflexivity.
Qed.

Lemma owner_counts_reach_the_nodes_witness :
  provideFileDecoration (fun u => u) textScheme
    (snd (decorateOwners (fun s => s) (fun u => u) true "github.com"
            (fold_left (addToOwnerTree "github.com" None)
                       [directRepository; nestedRepository]
                       (newOwnerNode "" "" [] (Some "github.com") None))
            []))
    (ownerResourceUri (fun s => s)
       (updateExpansionState None
          (firstChild (fold_left (addToOwnerTree "github.com" None)
                                 [directRepository; nestedRepository]
                                 (newOwnerNode "" "" [] (Some "github.com") None)))))
  = Some (mkFileDecoration 2).
Proof.
  refine (proj1 (owner_counts_reach_the_nodes string (fun s => s) (fun u => u) textScheme
                   "github.com" None [directRepository; nestedRepository] []
                   (firstChild (fold_left (addToOwnerTree "github.com" None)
                                          [directRepository; nestedRepository]
                                          (newOwnerNode "" "" [] (Some "github.com") None)))
                   ["org"] _ _ _ _)).
  - intro id. reflexivity.
  - intros a b Heq. exact Heq.
  - eapply (WithinChild _ [] "org"); [|apply WithinSelf].
    vm_compute. left. reflexivity.
  - discriminate.
Defined.

End DecorationFacts.

(** * The listing and its parse *)

Module PorcelainFacts.
Import JS Scanner Provider Porcelain UrlFacts.
#[local] Open Scope list_scope.
#[local] Open Scope nat_scope.
#[local] Open Scope string_scope.

Lemma startsWith_append : forall a b, startsWith (a ++ b) a = true.
Proof.
  intros a b. unfold startsWith. induction a as [|c a IH]; simpl.
  - destruct b; reflexivity.
  - destruct (ascii_dec c c) as [_|Hneq]; [exact IH|contradiction].
Qed.

Lemma lineFree_append : forall a b, lineFree (a ++ b) = lineFree a && lineFree b.
Proof. intros a b. unfold lineFree. apply allChars_append. Qed.

Lemma line_append : forall l rest, line l ++ rest = l ++ String newline rest.
Proof.
  intros l rest. unfold line. induction l as [|c l IH]; simpl; [reflexivity|].
  rewrite IH. reflexivity.
Qed.

(** The lines of a text that starts with a line. *)
Lemma split_line : forall l rest,
  lineFree l = true -> split newline (line l ++ rest) = (l :: split newline rest)%list.
Proof.
  intros l rest Hl. rewrite line_append. apply (split_append newline l rest Hl).
Qed.

Lemma append_assoc_lines : forall a b c : string, (a ++ b) ++ c = a ++ b ++ c.
Proof. induction a as [|x a IH]; intros b c; simpl; [reflexivity|rewrite IH; reflexivity]. Qed.

(** The lines of a block. *)
Lemma block_lines : forall w rest,
  wellListed w ->
  split newline (porcelainBlock w ++ rest) = (blockLines w ++ split newline rest)%list.
Proof.
  intros [p state] rest (Hne & Hp & Hstate). unfold porcelainBlock, blockLines.
  simpl in Hne, Hp, Hstate. cbn [listedPath listedState].
  rewrite !append_assoc_lines.
  rewrite split_line by (rewrite lineFree_append, Hp; reflexivity).
  destruct state as [head branch|head|].
  - destruct Hstate as [Hhead Hbranch]. rewrite !append_assoc_lines.
    rewrite split_line by (rewrite lineFree_append, Hhead; reflexivity).
    rewrite split_line by (rewrite lineFree_append, Hbranch; reflexivity).
    rewrite split_line by reflexivity. reflexivity.
  - rewrite !append_assoc_lines.
    rewrite split_line by (rewrite lineFree_append, Hstate; reflexivity).
    rewrite split_line by reflexivity.
    rewrite split_line by reflexivity. reflexivity.
  - rewrite split_line by reflexivity.
    rewrite split_line by reflexivity. reflexivity.
Qed.

Lemma parse_worktree_line : forall st p,
  parseLine st ("worktree " ++ p)
  = (pushCurrent st, Some (mkWorktreeInfo "" p None false false None None)).
Proof.
  intros st p. unfold parseLine. cbv zeta.
  rewrite (startsWith_append "worktree " p), (substringFrom_append "worktree " p).
  reflexivity.
Qed.

Lemma parse_head_line : forall done wt head,
  nonEmpty (wtPath wt) = true ->
  parseLine (done, Some wt) ("HEAD " ++ head)
  = (done, Some (setCommitHash (substringTo 8 head) (setBranch (headAsBranch head) wt))).
Proof.
  intros done wt head Hne. unfold parseLine. cbv zeta.
  replace (startsWith ("HEAD " ++ head) "worktree ") with false by reflexivity.
  rewrite (startsWith_append "HEAD " head), (substringFrom_append "HEAD " head).
  cbn [snd fst]. rewrite Hne. reflexivity.
Qed.

Lemma parse_branch_line : forall done wt branch,
  nonEmpty (wtPath wt) = true ->
  parseLine (done, Some wt) ("branch refs/heads/" ++ branch)
  = (done, Some (setBranch branch wt)).
Proof.
  intros done wt branch Hne. unfold parseLine. cbv zeta.
  replace (startsWith ("branch refs/heads/" ++ branch) "worktree ") with false
    by reflexivity.
  replace (startsWith ("branch refs/heads/" ++ branch) "HEAD ") with false by reflexivity.
  replace (startsWith ("branch refs/heads/" ++ branch) "branch ") with true by reflexivity.
  rewrite (substringFrom_append "branch refs/heads/" branch).
  cbn [snd fst]. rewrite Hne. reflexivity.
Qed.

Lemma parse_detached_line : forall done wt,
  nonEmpty (wtPath wt) = true ->
  parseLine (done, Some wt) "detached" = (done, Some (setDetached wt)).
Proof.
  intros done wt Hne. unfold parseLine. cbv zeta.
  replace (startsWith "detached" "worktree ") with false by reflexivity.
  replace (startsWith "detached" "HEAD ") with false by reflexivity.
  replace (startsWith "detached" "branch ") with false by reflexivity.
  replace (String.eqb "detached" "detached") with true by reflexivity.
  cbn [snd fst]. rewrite Hne. reflexivity.
Qed.

Lemma parse_bare_line : forall st, parseLine st "bare" = st.
Proof. intro st. reflexivity. Qed.

Lemma parse_blank_line : forall done wt,
  nonEmpty (wtPath wt) = true ->
  parseLine (done, Some wt) "" = ((done ++ [wt])%list, None).
Proof.
  intros done wt Hne. unfold parseLine. cbv zeta.
  replace (startsWith "" "worktree ") with false by reflexivity.
  replace (startsWith "" "HEAD ") with false by reflexivity.
  replace (startsWith "" "branch ") with false by reflexivity.
  replace (String.eqb "" "detached") with false by reflexivity.
  replace (String.eqb "" "") with true by reflexivity.
  unfold hasPath, pushCurrent. cbn [snd fst]. rewrite Hne. reflexivity.
Qed.

(** The loop over the lines of a block pushes the record of the block. *)
Lemma parse_block : forall w done more,
  wellListed w ->
  fold_left parseLine (blockLines w ++ more)%list (done, None)
  = fold_left parseLine more ((done ++ [parsedWorktree w])%list, None).
Proof.
  intros [p state] done more (Hne & _). simpl in Hne. unfold blockLines.
  cbn [listedPath listedState app fold_left]. rewrite parse_worktree_line.
  change (pushCurrent (done, None)) with done.
  destruct state as [head branch|head|]; cbn [app fold_left].
  - rewrite parse_head_line by exact Hne.
    rewrite parse_branch_line by exact Hne.
    rewrite parse_blank_line by exact Hne. reflexivity.
  - rewrite parse_head_line by exact Hne.
    rewrite parse_detached_line by exact Hne.
    rewrite parse_blank_line by exact Hne. reflexivity.
  - rewrite parse_bare_line.
    rewrite parse_blank_line by exact Hne. reflexivity.
Qed.

Lemma parse_blocks : forall ws done,
  Forall wellListed ws ->
  pushCurrent (fold_left parseLine (split newline (porcelain ws)) (done, None))
  = (done ++ map parsedWorktree ws)%list.
Proof.
  induction ws as [|w ws IH]; intros done Hall.
  - simpl. rewrite app_nil_r. reflexivity.
  - inversion Hall as [|? ? Hw Hws]; subst.
    change (porcelain (w :: ws)) with (porcelainBlock w ++ porcelain ws).
    rewrite (block_lines w _ Hw), (parse_block w done _ Hw), (IH _ Hws).
    rewrite <- app_assoc. reflexivity.
Qed.

(** X18.  A listing in the form that git prints, a block of lines for each
    worktree with a blank line after it, parses into one record for each
    block, in the order of the blocks: with the branch of the [branch]
    line for a worktree on a branch; marked as detached, and with the head
    as its branch, for a detached one; and without branch and commit for a
    bare one.  The commit hash is the first eight characters of the
    head. *)
Theorem porcelain_is_parsed : forall ws,
  Forall wellListed ws ->
  parseWorktreeList (porcelain ws) = map parsedWorktree ws.
Proof.
  intros ws Hall. unfold parseWorktreeList. apply (parse_blocks ws [] Hall).
Qed.

Lemma porcelain_is_parsed_witness :
  parseWorktreeList
    (porcelain [mkListedWorktree "/r" (OnBranch "abc123" "main");
                mkListedWorktree "/r-wt" (DetachedAt "def456")])
  = [mkWorktreeInfo "" "/r" (Some "main") false false (Some "abc123") None;
     mkWorktreeInfo "" "/r-wt" (Some "def456") false true (Some "def456") None].
Proof.
  apply (porcelain_is_parsed [mkListedWorktree "/r" (OnBranch "abc123" "main");
                              mkListedWorktree "/r-wt" (DetachedAt "def456")]).
  repeat constructor.
Defined.

End PorcelainFacts.
